(** * Nintaii: the block-rolling puzzle engine

    A shallow embedding of [utils.js], [movement.js], [animations.js],
    [level.js] and [main.js].

    JavaScript numbers are IEEE doubles and the engine calls [Math.sin] and
    [Math.cos] through three.js; the embedding computes in exact real
    arithmetic, so every statement below is about the engine in exact
    arithmetic (rounding error of the doubles is outside the model). *)

From Stdlib Require Import Reals Lra Lia ZArith List Bool Psatz String.
Import ListNotations.
Local Open Scope R_scope.

(** ** JavaScript numbers and [Math] *)

Module JS.

Definition number : Type := R.

(** [a === b] on numbers. *)
Definition strict_eq (a b : number) : bool :=
  if Req_dec_T a b then true else false.

(** [a >= b] on numbers. *)
Definition ge (a b : number) : bool :=
  if Rle_dec b a then true else false.

Definition Math_floor (x : number) : number := IZR (Zfloor x).

Definition Math_ceil (x : number) : number := IZR (Zceil x).

(** [Math.round]: the nearest integer, a tie going towards +infinity. *)
Definition Math_round (x : number) : number := IZR (Zfloor (x + / 2)).

(** Truncation towards zero, the quotient of [%]. *)
Definition trunc (x : number) : number :=
  if Rle_dec 0 x then Math_floor x else Math_ceil x.

(** [n % d]: the remainder has the sign of the dividend. *)
Definition rem (n d : number) : number := n - d * trunc (n / d).

Definition Math_PI : number := PI.

End JS.

Infix "===" := JS.strict_eq (at level 70, no associativity).

(** ** The part of three.js the engine uses *)

Module THREE.

Record Vector3 : Type := mkVector3 { x : R; y : R; z : R }.

Record Quaternion : Type := mkQuaternion { qx : R; qy : R; qz : R; qw : R }.

(** A [THREE.Mesh] (an [Object3D]): the fields the engine reads or writes.
    Geometry, material and texture only matter to the renderer. *)
Record Mesh : Type := mkMesh {
  position : Vector3;
  quaternion : Quaternion;
  visible : bool
}.

Definition Vector3_new : Vector3 := mkVector3 0 0 0.

Definition add (v w : Vector3) : Vector3 :=
  mkVector3 (x v + x w) (y v + y w) (z v + z w).

Definition sub (v w : Vector3) : Vector3 :=
  mkVector3 (x v - x w) (y v - y w) (z v - z w).

(** [v.lerp(w, alpha)] *)
Definition lerp (v w : Vector3) (alpha : R) : Vector3 :=
  mkVector3 (x v + (x w - x v) * alpha)
            (y v + (y w - y v) * alpha)
            (z v + (z w - z v) * alpha).

(** [q.setFromAxisAngle(axis, angle)]; the axis is assumed normalized. *)
Definition setFromAxisAngle (axis : Vector3) (angle : R) : Quaternion :=
  let halfAngle := angle / 2 in
  let s := sin halfAngle in
  mkQuaternion (x axis * s) (y axis * s) (z axis * s) (cos halfAngle).

(** [multiplyQuaternions(a, b)]: the Hamilton product [a * b]. *)
Definition multiplyQuaternions (a b : Quaternion) : Quaternion :=
  mkQuaternion
    (qx a * qw b + qw a * qx b + qy a * qz b - qz a * qy b)
    (qy a * qw b + qw a * qy b + qz a * qx b - qx a * qz b)
    (qz a * qw b + qw a * qz b + qx a * qy b - qy a * qx b)
    (qw a * qw b - qx a * qx b - qy a * qy b - qz a * qz b).

(** [this.premultiply(q)] *)
Definition premultiply (this q : Quaternion) : Quaternion :=
  multiplyQuaternions q this.

(** [v.applyQuaternion(q)]: [v + q.w * t + cross(q.xyz, t)] with
    [t = 2 * cross(q.xyz, v)]; the rotation by [q] when [q] has norm 1. *)
Definition applyQuaternion (v : Vector3) (q : Quaternion) : Vector3 :=
  let tx := 2 * (qy q * z v - qz q * y v) in
  let ty := 2 * (qz q * x v - qx q * z v) in
  let tz := 2 * (qx q * y v - qy q * x v) in
  mkVector3 (x v + qw q * tx + qy q * tz - qz q * ty)
            (y v + qw q * ty + qz q * tx - qx q * tz)
            (z v + qw q * tz + qx q * ty - qy q * tx).

Definition set_position (o : Mesh) (p : Vector3) : Mesh :=
  mkMesh p (quaternion o) (visible o).

Definition set_visible (o : Mesh) (b : bool) : Mesh :=
  mkMesh (position o) (quaternion o) b.

(** [object.applyQuaternion(q)] premultiplies the object's orientation. *)
Definition Object3D_applyQuaternion (o : Mesh) (q : Quaternion) : Mesh :=
  mkMesh (position o) (premultiply (quaternion o) q) (visible o).

(** [object.clone()]: a new object with copies of the position and the
    orientation.  Records are values, so the copy shares nothing with the
    original. *)
Definition clone (o : Mesh) : Mesh := o.

(** A freshly constructed mesh sits at the origin, unrotated and visible. *)
Definition Mesh_new : Mesh :=
  mkMesh Vector3_new (mkQuaternion 0 0 0 1) true.

End THREE.

(** ** utils.js *)

(** [Vector2XZ]: a board coordinate. *)
Record Vector2XZ : Type := mkVector2XZ { x : R; z : R }.

(** Rounds a number to 2 decimal places. *)
Definition twoPtRound (num : R) : R := JS.Math_round (num * 100) / 100.

(** Rounds a number to the nearest 0.5. *)
Definition halfRound (num : R) : R := JS.Math_round (num * 2) / 2.

(** Checks if a number is an integer ([% 1]). *)
Definition isInt (num : R) : bool := JS.rem num 1 === 0.

Definition camOffset : THREE.Vector3 := THREE.mkVector3 (-7) 20 25.
Definition xAxis : THREE.Vector3 := THREE.mkVector3 1 0 0.
Definition yAxis : THREE.Vector3 := THREE.mkVector3 0 1 0.
Definition zAxis : THREE.Vector3 := THREE.mkVector3 0 0 1.

(** 90 degrees in radians. *)
Definition ninetyDegRad : R := JS.Math_PI / 2.

Inductive dirEnum : Type := posX | negX | posZ | negZ.

(** The methods of [Vector2XZ] update the vector in place and return it. *)
Definition Vector2XZ_floor (v : Vector2XZ) : Vector2XZ :=
  mkVector2XZ (JS.Math_floor (x v)) (JS.Math_floor (z v)).

Definition Vector2XZ_ceil (v : Vector2XZ) : Vector2XZ :=
  mkVector2XZ (JS.Math_ceil (x v)) (JS.Math_ceil (z v)).

Definition Vector2XZ_halfRound (v : Vector2XZ) : Vector2XZ :=
  mkVector2XZ (halfRound (x v)) (halfRound (z v)).

(** Rotate an object around an axis in world space passing through a point. *)
Definition rotateAroundWorldAxis
    (object : THREE.Mesh) (point axis : THREE.Vector3) (angle : R) : THREE.Mesh :=
  let q := THREE.setFromAxisAngle axis angle in
  let object := THREE.Object3D_applyQuaternion object q in
  let object := THREE.set_position object (THREE.sub (THREE.position object) point) in
  let object := THREE.set_position object (THREE.applyQuaternion (THREE.position object) q) in
  THREE.set_position object (THREE.add (THREE.position object) point).

(** Current block position(s): one cell or two. *)
Definition getBlockPos (block : THREE.Mesh) : list Vector2XZ :=
  let bx := THREE.x (THREE.position block) in
  let bz := THREE.z (THREE.position block) in
  if isInt (halfRound bx) && isInt (halfRound bz) then
    [ Vector2XZ_halfRound (mkVector2XZ bx bz) ]
  else
    [ Vector2XZ_floor (Vector2XZ_halfRound (mkVector2XZ bx bz));
      Vector2XZ_ceil (Vector2XZ_halfRound (mkVector2XZ bx bz)) ].

(** A clone of the block rotated around an axis through a point. *)
Definition getRotatedClone
    (block : THREE.Mesh) (point axis : THREE.Vector3) (angle : R) : THREE.Mesh :=
  let blockClone := THREE.clone block in
  rotateAroundWorldAxis blockClone point axis angle.

(** ** level.js: level data *)

(** Total levels (the index of the last layout). *)
Definition _LEVELS : Z := 11.

(** Array of initial block positions (X,Z position). *)
Definition _BLOCK_POSITIONS : list (Z * Z) :=
  [ (5, 1)%Z (* level 0 *);
    (1, 1)%Z (* level 1 *);
    (1, 1)%Z (* level 2 *);
    (3, 0)%Z (* level 3 *);
    (1, 0)%Z (* level 4 *);
    (0, 0)%Z (* level 5 *);
    (1, 3)%Z (* level 6 *);
    (13, 3)%Z (* level 7 *);
    (0, 3)%Z (* level 8 *);
    (2, 7)%Z (* level 9 *);
    (0, 5)%Z (* level 10 *);
    (9, 14)%Z (* level 11 *) ].

Definition _LAYOUT_0 : list (list string) :=
  [ [" "; " "; "■"; "■"; "■"; "■"; "■"];
    [" "; " "; "■"; "■"; "■"; "■"; "■"];
    [" "; " "; "■"; "■"; "■"; "■"; "■"];
    [" "; "■"; "■"; "■"; "■"; "■"; " "];
    [" "; "■"; "■"; "■"; "■"; "■"; " "];
    [" "; "■"; "■"; "■"; "■"; "■"; " "];
    ["■"; "■"; "■"; "■"; "■"; " "; " "];
    ["■"; "□"; "■"; "■"; "■"; " "; " "];
    ["■"; "■"; "■"; "■"; "■"; " "; " "] ]%string.

Definition _LAYOUT_1 : list (list string) :=
  [ ["■"; "■"; "■"; "■"; "■"; " "; "■"; "■"; "■"; "■"; "■"];
    ["■"; "■"; "■"; "■"; "■"; " "; "■"; "■"; "□"; "■"; "■"];
    [" "; "■"; "■"; "■"; " "; " "; " "; "■"; "■"; "■"; " "];
    [" "; "■"; "■"; "■"; " "; " "; " "; "■"; "■"; "■"; " "];
    [" "; "■"; "■"; "■"; " "; " "; " "; "■"; "■"; "■"; " "];
    [" "; "■"; "■"; "■"; "■"; " "; "■"; "■"; "■"; "■"; " "];
    [" "; " "; " "; "■"; "■"; "■"; "■"; "■"; " "; " "; " "];
    [" "; " "; " "; " "; "■"; "■"; "■"; " "; " "; " "; " "];
    [" "; " "; " "; " "; " "; "■"; " "; " "; " "; " "; " "] ]%string.

Definition _LAYOUT_2 : list (list string) :=
  [ [" "; "■"; "■"; " "; " "];
    ["■"; "■"; "■"; "■"; " "];
    ["■"; "■"; "□"; "■"; "■"];
    [" "; "■"; "■"; "■"; "■"];
    [" "; " "; "■"; "■"; " "] ]%string.

Definition _LAYOUT_3 : list (list string) :=
  [ ["■"; "■"; "■"; "■"; "■"; " "; " "; " "];
    ["■"; "■"; "■"; "■"; " "; " "; " "; " "];
    ["■"; "■"; "■"; " "; " "; "■"; "■"; "■"];
    ["■"; "■"; " "; " "; " "; "■"; "□"; "■"];
    ["■"; "■"; "■"; "■"; "■"; "■"; "■"; "■"];
    [" "; " "; " "; " "; " "; "■"; "■"; "■"];
    [" "; " "; " "; " "; " "; "■"; "■"; "■"] ]%string.

Definition _LAYOUT_4 : list (list string) :=
  [ [" "; "■"; "■"; "■"; "■"];
    [" "; " "; " "; " "; "■"];
    ["■"; "■"; "■"; " "; "■"];
    ["■"; "■"; "■"; "■"; "■"];
    ["■"; "□"; "■"; " "; " "];
    ["■"; "■"; "■"; " "; " "] ]%string.

Definition _LAYOUT_5 : list (list string) :=
  [ ["■"; "■"; "■"; " "; " "; " "];
    ["■"; "■"; "■"; " "; " "; " "];
    ["■"; "■"; "■"; "■"; "■"; " "];
    [" "; " "; " "; "■"; "■"; " "];
    ["■"; "■"; "■"; "■"; "■"; " "];
    ["■"; "■"; "■"; " "; " "; " "];
    ["■"; "■"; "■"; "■"; "■"; "■"];
    [" "; " "; " "; "■"; "□"; "■"];
    [" "; " "; " "; "■"; "■"; "■"];
    [" "; " "; " "; " "; "■"; "■"] ]%string.

Definition _LAYOUT_6 : list (list string) :=
  [ [" "; " "; " "; " "; " "; " "; "■"; "■"; "■"; "■"; "■"; "■"; "■"; " "; " "];
    ["■"; "■"; "■"; "■"; " "; " "; "■"; "■"; " "; " "; " "; "■"; "■"; " "; " "];
    ["■"; "■"; "■"; "■"; "■"; "■"; "■"; "■"; "■"; " "; " "; "■"; "■"; "■"; "■"];
    ["■"; "■"; "■"; "■"; " "; " "; " "; " "; " "; " "; " "; "■"; "■"; "□"; "■"];
    ["■"; "■"; "■"; "■"; " "; " "; " "; " "; " "; " "; " "; "■"; "■"; "■"; "■"];
    [" "; " "; " "; " "; " "; " "; " "; " "; " "; " "; " "; " "; "■"; "■"; "■"];
    [" "; " "; " "; " "; " "; " "; " "; " "; " "; " "; " "; " "; " "; " "; " "];
    [" "; " "; " "; " "; " "; " "; " "; " "; " "; " "; " "; " "; " "; " "; " "];
    [" "; " "; " "; " "; " "; " "; " "; " "; " "; " "; " "; " "; " "; " "; " "];
    [" "; " "; " "; " "; " "; " "; " "; " "; " "; " "; " "; " "; " "; " "; " "] ]%string.

Definition _LAYOUT_7 : list (list string) :=
  [ [" "; " "; " "; " "; " "; " "; " "; " "; "■"; "■"; "■"; "■"; " "; " "; " "];
    [" "; " "; " "; " "; " "; " "; " "; " "; "■"; "■"; "■"; "■"; " "; " "; " "];
    ["■"; "■"; "■"; " "; " "; " "; " "; "■"; "■"; " "; " "; "■"; "■"; "■"; "■"];
    ["■"; "□"; "■"; " "; " "; " "; " "; "■"; "■"; " "; " "; " "; "■"; "■"; "■"];
    ["■"; "■"; "■"; " "; " "; " "; "■"; "■"; "■"; " "; " "; " "; "■"; "■"; "■"];
    ["■"; "■"; "■"; " "; " "; " "; "■"; "■"; "■"; " "; " "; " "; "■"; "■"; "■"];
    [" "; "■"; "■"; "■"; " "; " "; " "; "■"; " "; " "; " "; " "; " "; " "; " "];
    [" "; " "; "■"; "■"; "■"; "■"; "■"; "■"; " "; " "; " "; " "; " "; " "; " "] ]%string.

Definition _LAYOUT_8 : list (list string) :=
  [ [" "; " "; " "; " "; " "; "■"; "■"; "■"; "■"; "■"; "■"; " "; " "; " "; " "];
    [" "; " "; " "; " "; " "; "■"; " "; " "; "■"; "■"; "■"; " "; " "; " "; " "];
    [" "; " "; " "; " "; " "; "■"; " "; " "; "■"; "■"; "■"; "■"; "■"; " "; " "];
    ["■"; "■"; "■"; "■"; "■"; "■"; " "; " "; " "; " "; " "; "■"; "■"; "■"; "■"];
    [" "; " "; " "; " "; "■"; "■"; "■"; " "; " "; " "; " "; "■"; "■"; "□"; "■"];
    [" "; " "; " "; " "; "■"; "■"; "■"; " "; " "; " "; " "; " "; "■"; "■"; "■"];
    [" "; " "; " "; " "; " "; " "; "■"; " "; " "; "■"; "■"; " "; " "; " "; " "];
    [" "; " "; " "; " "; " "; " "; "■"; "■"; "■"; "■"; "■"; " "; " "; " "; " "];
    [" "; " "; " "; " "; " "; " "; "■"; "■"; "■"; "■"; "■"; " "; " "; " "; " "];
    [" "; " "; " "; " "; " "; " "; " "; "■"; "■"; "■"; " "; " "; " "; " "; " "] ]%string.

Definition _LAYOUT_9 : list (list string) :=
  [ [" "; " "; " "; " "; " "; " "; " "; " "; " "; " "; "■"; "■"; "■"; "■"; " "];
    ["■"; "■"; "■"; "■"; "■"; "■"; "■"; "■"; "■"; "■"; "■"; "■"; "□"; "■"; " "];
    ["■"; "■"; "■"; " "; " "; " "; " "; " "; " "; " "; " "; "■"; "■"; "■"; " "];
    ["■"; "■"; "■"; "■"; " "; " "; " "; " "; " "; " "; " "; " "; " "; " "; " "];
    [" "; " "; "■"; "■"; "■"; "■"; "■"; "■"; "■"; "■"; " "; " "; "■"; "■"; "■"];
    [" "; " "; " "; " "; " "; " "; " "; "■"; "■"; "■"; "■"; "■"; "■"; "■"; "■"];
    [" "; "■"; "■"; "■"; "■"; " "; " "; " "; " "; " "; "■"; "■"; "■"; "■"; "■"];
    [" "; "■"; "■"; "■"; "■"; "■"; "■"; "■"; "■"; "■"; "■"; " "; " "; " "; " "];
    [" "; "■"; "■"; "■"; "■"; " "; " "; " "; " "; " "; " "; " "; " "; " "; " "] ]%string.

Definition _LAYOUT_10 : list (list string) :=
  [ [" "; "■"; "■"; "■"; "■"; " "; " "; " "; " "; " "; " "; " "];
    [" "; "■"; "□"; "■"; "■"; " "; " "; " "; " "; " "; " "; " "];
    [" "; "■"; "■"; "■"; " "; " "; " "; " "; " "; " "; " "; " "];
    [" "; "■"; " "; " "; " "; "■"; "■"; "■"; "■"; "■"; "■"; " "];
    [" "; "■"; " "; " "; " "; "■"; "■"; " "; " "; "■"; "■"; " "];
    ["■"; "■"; "■"; "■"; "■"; "■"; "■"; " "; " "; "■"; "■"; "■"];
    [" "; " "; " "; " "; " "; "■"; " "; " "; " "; " "; " "; "■"];
    [" "; " "; " "; " "; " "; "■"; "■"; "■"; "■"; " "; " "; "■"];
    [" "; " "; " "; " "; " "; "■"; "■"; "■"; "■"; "■"; "■"; "■"];
    [" "; " "; " "; " "; " "; " "; " "; " "; "■"; "■"; "■"; " "] ]%string.

Definition _LAYOUT_11 : list (list string) :=
  [ [" "; " "; " "; " "; " "; " "; " "; " "; " "; " "; " "; " "; " "; " "; " "; " "; " "; " "; " "; " "];
    [" "; " "; " "; " "; " "; " "; " "; " "; " "; " "; " "; " "; " "; " "; " "; " "; " "; " "; " "; " "];
    [" "; " "; " "; " "; " "; "■"; "■"; "■"; "■"; " "; "■"; " "; " "; " "; " "; " "; " "; " "; " "; " "];
    [" "; " "; " "; " "; "■"; "■"; "■"; "■"; "■"; "■"; "■"; "■"; " "; " "; " "; " "; " "; " "; " "; " "];
    [" "; " "; " "; " "; "■"; " "; " "; "■"; "■"; "■"; "■"; "■"; " "; " "; " "; " "; " "; " "; " "; " "];
    [" "; " "; " "; " "; "■"; " "; " "; " "; " "; "■"; " "; "■"; " "; " "; " "; " "; " "; " "; " "; " "];
    [" "; " "; " "; " "; "■"; " "; " "; " "; " "; " "; " "; "■"; "■"; "■"; "■"; " "; " "; " "; " "; " "];
    [" "; " "; " "; "■"; "■"; " "; " "; " "; " "; "■"; " "; " "; " "; "■"; "■"; " "; " "; " "; " "; " "];
    [" "; " "; " "; "■"; "■"; " "; " "; " "; "■"; "■"; "■"; " "; " "; " "; "■"; " "; " "; " "; " "; " "];
    [" "; " "; " "; "■"; "■"; "■"; " "; "■"; "■"; "□"; "■"; "■"; " "; "■"; "■"; " "; " "; " "; " "; " "];
    [" "; " "; " "; " "; "■"; " "; " "; " "; "■"; "■"; "■"; " "; " "; " "; "■"; "■"; "■"; " "; " "; " "];
    [" "; " "; " "; " "; "■"; "■"; "■"; " "; " "; "■"; " "; " "; "■"; "■"; "■"; "■"; "■"; " "; " "; " "];
    [" "; " "; " "; "■"; "■"; "■"; "■"; " "; " "; "■"; " "; " "; "■"; "■"; "■"; " "; " "; " "; " "; " "];
    [" "; " "; " "; "■"; "■"; "■"; "■"; " "; " "; "■"; " "; " "; " "; " "; "■"; " "; " "; " "; " "; " "];
    [" "; " "; " "; "■"; " "; " "; " "; " "; "■"; "■"; "■"; " "; " "; "■"; "■"; " "; " "; " "; " "; " "];
    [" "; " "; " "; "■"; "■"; "■"; "■"; "■"; "■"; "■"; "■"; " "; " "; "■"; "■"; " "; " "; " "; " "; " "];
    [" "; " "; " "; " "; " "; " "; " "; " "; "■"; " "; "■"; "■"; "■"; "■"; " "; " "; " "; " "; " "; " "];
    [" "; " "; " "; " "; " "; " "; " "; " "; " "; " "; " "; " "; " "; " "; " "; " "; " "; " "; " "; " "];
    [" "; " "; " "; " "; " "; " "; " "; " "; " "; " "; " "; " "; " "; " "; " "; " "; " "; " "; " "; " "];
    [" "; " "; " "; " "; " "; " "; " "; " "; " "; " "; " "; " "; " "; " "; " "; " "; " "; " "; " "; " "] ]%string.

(** Array of layouts (2D arrays representing positions of tiles on a board). *)
Definition _LAYOUTS : list (list (list string)) :=
  [ _LAYOUT_0; _LAYOUT_1; _LAYOUT_2; _LAYOUT_3; _LAYOUT_4; _LAYOUT_5; _LAYOUT_6; _LAYOUT_7; _LAYOUT_8; _LAYOUT_9; _LAYOUT_10; _LAYOUT_11 ].

(** ** level.js: the [Level] class *)

Record Level : Type := mkLevel {
  totalLevels : Z;
  levelNum : Z;
  board : list THREE.Mesh;
  block : THREE.Mesh;
  (** [undefined] until a layout marks a hole. *)
  winTile : option THREE.Mesh
}.

Definition set_block (l : Level) (b : THREE.Mesh) : Level :=
  mkLevel (totalLevels l) (levelNum l) (board l) b (winTile l).

(** [array[n]]: [undefined] outside the array. *)
Definition array_get {A : Type} (a : list A) (n : Z) : option A :=
  if (n <? 0)%Z then None else nth_error a (Z.to_nat n).

(** Creates a board tile. *)
Definition createTile (x z : R) : THREE.Mesh :=
  THREE.set_position THREE.Mesh_new (THREE.mkVector3 x (- (1 / 10)) z).

(** The inner loop of [#boardFromLayout] over row [i], from column [j] on;
    the accumulator is the board built so far and [#winTile]. *)
Fixpoint boardFromRow (row : list string) (i j : nat)
    (acc : list THREE.Mesh * option THREE.Mesh) : list THREE.Mesh * option THREE.Mesh :=
  match row with
  | [] => acc
  | c :: row' =>
    let acc :=
      if negb (String.eqb c " ") then
        if String.eqb c "■" then
          (fst acc ++ [createTile (IZR (Z.of_nat j)) (IZR (Z.of_nat i))], snd acc)
        else if String.eqb c "□" then
          let hole := createTile (IZR (Z.of_nat j)) (IZR (Z.of_nat i)) in
          let hole := THREE.set_visible hole false in
          (fst acc ++ [hole], Some hole)
        else acc
      else acc in
    boardFromRow row' i (S j) acc
  end.

(** The outer loop of [#boardFromLayout], from row [i] on. *)
Fixpoint boardFromRows (layout : list (list string)) (i : nat)
    (acc : list THREE.Mesh * option THREE.Mesh) : list THREE.Mesh * option THREE.Mesh :=
  match layout with
  | [] => acc
  | row :: layout' => boardFromRows layout' (S i) (boardFromRow row i 0%nat acc)
  end.

(** Creates a board from a layout; also yields the winning tile. *)
Definition boardFromLayout (layout : list (list string))
    : list THREE.Mesh * option THREE.Mesh :=
  boardFromRows layout 0%nat ([], None).

(** Creates a block object, standing on the cell [position]. *)
Definition createBlock (position : Z * Z) : THREE.Mesh :=
  let block := THREE.Mesh_new in
  THREE.set_position block
    (THREE.mkVector3 (IZR (fst position)) 1 (IZR (snd position))).

(** [new Level(levelNum)]; [None] is the [TypeError] of reading a layout or
    a block position that does not exist. *)
Definition Level_new (levelNum : Z) : option Level :=
  match array_get _LAYOUTS levelNum with
  | None => None
  | Some layout =>
    let '(board, winTile) := boardFromLayout layout in
    match array_get _BLOCK_POSITIONS levelNum with
    | None => None
    | Some position => Some (mkLevel _LEVELS levelNum board (createBlock position) winTile)
    end
  end.

(** The getter [blockPos].  (It also stores its result in [#blockPos], which
    nothing else reads.) *)
Definition blockPos (l : Level) : list Vector2XZ := getBlockPos (block l).

(** ** The session state: the globals of main.js and animations.js *)

(** A child of the scene: a light, or a mesh of the current level.  The
    scene holds the meshes themselves, not copies: [boardTile k] stands for
    the object [level.board[k]] and [theBlock] for the object [level.block],
    which the animations move in place. *)
Inductive SceneChild : Type :=
| AmbientLight
| DirectionalLight
| boardTile (k : nat)
| theBlock.

(** The interval and timeout callbacks that are pending, each with the
    variables its closure captured. *)
Inductive Timer : Type :=
| rotationAnimation (rotPoint axis : THREE.Vector3) (angle : R)
    (futureBlock : THREE.Mesh) (intervals : Z)
| failAnimationForward (rotPoint axis : THREE.Vector3) (angle : R) (intervals : Z)
| failAnimationBackward (rotPoint axis : THREE.Vector3) (angle : R) (intervals : Z)
| winTimeout
| winAnimation
| winFadeTimeout
| fadeOutAnimation (offset : Z) (intervals : Z)
| fadeInAnimation (intervals : Z).

Record Game : Type := mkGame {
  level : Level;
  (** [scene.children] *)
  scene : list SceneChild;
  (** [camera.position] *)
  camera : THREE.Vector3;
  animationPlaying : bool;
  (** The computed [visibility] of the element [pause-window-box]. *)
  pauseWindowBox : string;
  (** [canvas.style.opacity] of the element [three-window]. *)
  opacity : R;
  timers : list Timer
}.

Definition set_level (st : Game) (l : Level) : Game :=
  mkGame l (scene st) (camera st) (animationPlaying st) (pauseWindowBox st)
         (opacity st) (timers st).

Definition set_scene (st : Game) (s : list SceneChild) : Game :=
  mkGame (level st) s (camera st) (animationPlaying st) (pauseWindowBox st)
         (opacity st) (timers st).

Definition set_camera (st : Game) (c : THREE.Vector3) : Game :=
  mkGame (level st) (scene st) c (animationPlaying st) (pauseWindowBox st)
         (opacity st) (timers st).

Definition set_animationPlaying (st : Game) (b : bool) : Game :=
  mkGame (level st) (scene st) (camera st) b (pauseWindowBox st)
         (opacity st) (timers st).

Definition set_pauseWindowBox (st : Game) (v : string) : Game :=
  mkGame (level st) (scene st) (camera st) (animationPlaying st) v
         (opacity st) (timers st).

Definition set_opacity (st : Game) (o : R) : Game :=
  mkGame (level st) (scene st) (camera st) (animationPlaying st) (pauseWindowBox st)
         o (timers st).

Definition set_timers (st : Game) (t : list Timer) : Game :=
  mkGame (level st) (scene st) (camera st) (animationPlaying st) (pauseWindowBox st)
         (opacity st) t.

(** [setInterval] and [setTimeout] register a callback. *)
Definition setTimer (st : Game) (t : Timer) : Game :=
  set_timers st (timers st ++ [t]).

(** [clearInterval] of the [k]-th pending callback; a timeout that has fired
    leaves the same way. *)
Fixpoint remove_at {A : Type} (k : nat) (l : list A) : list A :=
  match l, k with
  | [], _ => []
  | _ :: l', O => l'
  | a :: l', S k' => a :: remove_at k' l'
  end.

(** The [k]-th pending callback keeps running with updated variables. *)
Fixpoint replace_at {A : Type} (k : nat) (a : A) (l : list A) : list A :=
  match l, k with
  | [], _ => []
  | _ :: l', O => a :: l'
  | b :: l', S k' => b :: replace_at k' a l'
  end.

Definition clearTimer (st : Game) (k : nat) : Game :=
  set_timers st (remove_at k (timers st)).

(** ** movement.js *)

(** Offset of the rotation point for an x-directed rotation. *)
Definition offsetRotPointX (level : Level) : R :=
  if (twoPtRound (THREE.y (THREE.position (block level))) === 1 / 2)
     && isInt (twoPtRound (THREE.z (THREE.position (block level))))
  then 1 else 1 / 2.

(** Offset of the rotation point for a z-directed rotation. *)
Definition offsetRotPointZ (level : Level) : R :=
  if (twoPtRound (THREE.y (THREE.position (block level))) === 1 / 2)
     && isInt (twoPtRound (THREE.x (THREE.position (block level))))
  then 1 else 1 / 2.

(** Check if an attempted rotation is valid. *)
Definition isValidRotation (level : Level)
    (point axis : THREE.Vector3) (angle : R) : bool :=
  let blockFuturePositions := getBlockPos (getRotatedClone (block level) point axis angle) in
  let tilePositions :=
    map (fun tile => mkVector2XZ (THREE.x (THREE.position tile))
                                 (THREE.z (THREE.position tile)))
        (board level) in
  fold_left
    (fun isValid blockPos =>
       let validTile :=
         existsb (fun tilePos => (x tilePos === x blockPos) && (z tilePos === z blockPos))
                 tilePositions in
       if negb validTile then false else isValid)
    blockFuturePositions true.

(** The [switch] of [handleBlockMovement]: the rotation point, the axis and
    the rotation angle modifier of a direction. *)
Definition rotationOf (level : Level) (rotDir : dirEnum)
    : THREE.Vector3 * THREE.Vector3 * R :=
  let rotPoint := THREE.Vector3_new in
  let pos := THREE.position (block level) in
  match rotDir with
  | posX =>
    (THREE.mkVector3 (twoPtRound (THREE.x pos) + offsetRotPointX level)
                     (THREE.y rotPoint) (THREE.z rotPoint), zAxis, -1)
  | negX =>
    (THREE.mkVector3 (twoPtRound (THREE.x pos) - offsetRotPointX level)
                     (THREE.y rotPoint) (THREE.z rotPoint), zAxis, 1)
  | posZ =>
    (THREE.mkVector3 (THREE.x rotPoint) (THREE.y rotPoint)
                     (twoPtRound (THREE.z pos) + offsetRotPointZ level), xAxis, 1)
  | negZ =>
    (THREE.mkVector3 (THREE.x rotPoint) (THREE.y rotPoint)
                     (twoPtRound (THREE.z pos) - offsetRotPointZ level), xAxis, -1)
  end.

(** ** animations.js *)

(** Start the rotation of the block around an axis through a point. *)
Definition animateRotation (rotPoint axis : THREE.Vector3) (angle : R) (st : Game) : Game :=
  let futureBlock := getRotatedClone (block (level st)) rotPoint axis angle in
  let intervals := 0%Z in
  let st := set_animationPlaying st true in
  setTimer st (rotationAnimation rotPoint axis angle futureBlock intervals).

(** Start the forward-then-backward rotation of a refused move. *)
Definition animateFailedRotation (rotPoint axis : THREE.Vector3) (angle : R) (st : Game) : Game :=
  let intervals := 0%Z in
  let st := set_animationPlaying st true in
  setTimer st (failAnimationForward rotPoint axis angle intervals).

(** Check if the block is standing on the winning tile; [None] is the
    [TypeError] of a level without a winning tile. *)
Definition _checkForWin (level : Level) : option bool :=
  let win := false in
  let blockPos := blockPos level in
  match winTile level with
  | None => None
  | Some winTile =>
    let winTilePos := THREE.position winTile in
    Some match blockPos with
         | [ blockPos0 ] =>
           (x blockPos0 === THREE.x winTilePos) && (z blockPos0 === THREE.z winTilePos)
         | _ => win
         end
  end.

(** Start the block sliding into the winning tile hole. *)
Definition _animateWin (st : Game) : Game :=
  let st := set_animationPlaying st true in
  setTimer st winTimeout.

(** Request the transition to the level [offset] away; does nothing if the
    requested level is invalid. *)
Definition fadeOutInLevel (offset : Z) (st : Game) : Game :=
  if ((levelNum (level st) + offset <? 0)
      || (levelNum (level st) + offset >? totalLevels (level st)))%Z
  then st
  else
    let st := set_animationPlaying st true in
    let intervals := 20%Z in
    setTimer st (fadeOutAnimation offset intervals).

(** ** movement.js: the entry point *)

(** Rotate the block in a specified direction; does nothing if an animation
    is playing or the pause menu is visible. *)
Definition handleBlockMovement (rotDir : dirEnum) (st : Game) : Game :=
  if animationPlaying st || String.eqb (pauseWindowBox st) "visible" then st
  else
    let '(rotPoint, rotAxis, rotAngleMod) := rotationOf (level st) rotDir in
    if isValidRotation (level st) rotPoint rotAxis (ninetyDegRad * rotAngleMod)
    then animateRotation rotPoint rotAxis (ninetyDegRad * rotAngleMod) st
    else animateFailedRotation rotPoint rotAxis (JS.Math_PI / (6 * rotAngleMod)) st.

(** ** main.js *)

Definition SceneChild_eq_dec (a b : SceneChild) : {a = b} + {a <> b}.
Proof. decide equality. apply Nat.eq_dec. Defined.

(** The children that are the tiles of a board. *)
Definition boardChildren (l : Level) : list SceneChild :=
  map boardTile (seq 0 (List.length (board l))).

(** [children.indexOf(object)] followed by [splice]. *)
Fixpoint remove_child (object : SceneChild) (children : list SceneChild) : list SceneChild :=
  match children with
  | [] => []
  | c :: children' =>
    if SceneChild_eq_dec c object then children' else c :: remove_child object children'
  end.

(** [scene.remove(...objects)] *)
Definition scene_remove (objects children : list SceneChild) : list SceneChild :=
  fold_left (fun children object => remove_child object children) objects children.

(** [scene.add(...objects)] *)
Definition scene_add (objects children : list SceneChild) : list SceneChild :=
  children ++ objects.

(** How a call that may throw ends, with the state it leaves. *)
Inductive Completion : Type :=
| Returns (st : Game)
| Throws (st : Game).

(** Overwrite the global level with a new level object and update the scene. *)
Definition changeLevel (offset : Z) (st : Game) : Completion :=
  let st := set_scene st (scene_remove (boardChildren (level st)) (scene st)) in
  let st := set_scene st (scene_remove [theBlock] (scene st)) in
  match Level_new (levelNum (level st) + offset) with
  | None => Throws st
  | Some level' =>
    let st := set_level st level' in
    let st := set_camera st (THREE.add (THREE.position (block (level st))) camOffset) in
    let st := set_scene st (scene_add (boardChildren (level st)) (scene st)) in
    Returns (set_scene st (scene_add [theBlock] (scene st)))
  end.

(** [initScene] then [initLevel]: the session as the page loads.  The style
    sheet, which is not part of the engine, fixes the two display values. *)
Definition initLevel (pauseVisibility : string) (canvasOpacity : R) : option Game :=
  match Level_new 0 with
  | None => None
  | Some level =>
    let scene := [AmbientLight; DirectionalLight] in
    let camera := THREE.add (THREE.position (block level)) camOffset in
    let scene := scene_add (boardChildren level) scene in
    let scene := scene_add [theBlock] scene in
    Some (mkGame level scene camera false pauseVisibility canvasOpacity [])
  end.

(** The [Escape] key toggles the pause menu. *)
Definition togglePause (st : Game) : Game :=
  set_pauseWindowBox st
    (if String.eqb (pauseWindowBox st) "hidden" then "visible" else "hidden")%string.

(** ** The callbacks of animations.js *)

Definition set_level_block (st : Game) (b : THREE.Mesh) : Game :=
  set_level st (set_block (level st) b).

(** One interval of [rotationAnimation], pending at index [k]. *)
Definition rotationAnimation_callback (k : nat) (rotPoint axis : THREE.Vector3) (angle : R)
    (futureBlock : THREE.Mesh) (intervals : Z) (st : Game) : Game :=
  (* [futureBlock.position.add(camOffset)] moves the clone itself *)
  let futureBlock :=
    THREE.set_position futureBlock (THREE.add (THREE.position futureBlock) camOffset) in
  let st := set_camera st (THREE.lerp (camera st) (THREE.position futureBlock) (1 / 18)) in
  let st := set_level_block st
              (rotateAroundWorldAxis (block (level st)) rotPoint axis (angle / 18)) in
  let intervals := (intervals + 1)%Z in
  if (intervals =? 18)%Z then
    let st := clearTimer st k in
    let st := set_animationPlaying st false in
    match _checkForWin (level st) with
    | Some true => _animateWin st
    | Some false => st
    | None => st
    end
  else
    set_timers st
      (replace_at k (rotationAnimation rotPoint axis angle futureBlock intervals) (timers st)).

(** One interval of [failAnimationForward]. *)
Definition failAnimationForward_callback (k : nat) (rotPoint axis : THREE.Vector3) (angle : R)
    (intervals : Z) (st : Game) : Game :=
  let st := set_level_block st
              (rotateAroundWorldAxis (block (level st)) rotPoint axis (angle / 18)) in
  let intervals := (intervals + 1)%Z in
  if (intervals =? 18)%Z then
    let st := clearTimer st k in
    let intervals := 0%Z in
    setTimer st (failAnimationBackward rotPoint axis angle intervals)
  else
    set_timers st (replace_at k (failAnimationForward rotPoint axis angle intervals) (timers st)).

(** One interval of [failAnimationBackward]. *)
Definition failAnimationBackward_callback (k : nat) (rotPoint axis : THREE.Vector3) (angle : R)
    (intervals : Z) (st : Game) : Game :=
  let st := set_level_block st
              (rotateAroundWorldAxis (block (level st)) rotPoint axis (- angle / 18)) in
  let intervals := (intervals + 1)%Z in
  if (intervals =? 18)%Z then
    let st := clearTimer st k in
    set_animationPlaying st false
  else
    set_timers st (replace_at k (failAnimationBackward rotPoint axis angle intervals) (timers st)).

(** The timeout of [_animateWin] starts the slide. *)
Definition winTimeout_callback (k : nat) (st : Game) : Game :=
  let st := clearTimer st k in
  setTimer st winAnimation.

(** One interval of [winAnimation]: the block sinks by 0.1. *)
Definition winAnimation_callback (k : nat) (st : Game) : Game :=
  let b := block (level st) in
  let pos := THREE.position b in
  if JS.ge (twoPtRound (THREE.y pos)) (- (9 / 10)) then
    set_level_block st
      (THREE.set_position b (THREE.mkVector3 (THREE.x pos) (THREE.y pos - 1 / 10) (THREE.z pos)))
  else
    let st := clearTimer st k in
    setTimer st winFadeTimeout.

(** The timeout that moves on to the next level after a win. *)
Definition winFadeTimeout_callback (k : nat) (st : Game) : Game :=
  let st := clearTimer st k in
  fadeOutInLevel 1 st.

(** One interval of [fadeOutAnimation]; the last one changes the level and
    starts the fade in, which goes on with the same counter. *)
Definition fadeOutAnimation_callback (k : nat) (offset intervals : Z) (st : Game) : Game :=
  let st := set_opacity st (IZR intervals / 20) in
  if (intervals =? 0)%Z then
    let intervals := (intervals - 1)%Z in
    let st := clearTimer st k in
    match changeLevel offset st with
    | Throws st => st
    | Returns st => setTimer st (fadeInAnimation intervals)
    end
  else
    let intervals := (intervals - 1)%Z in
    set_timers st (replace_at k (fadeOutAnimation offset intervals) (timers st)).

(** One interval of [fadeInAnimation]. *)
Definition fadeInAnimation_callback (k : nat) (intervals : Z) (st : Game) : Game :=
  let st := set_opacity st (IZR intervals / 20) in
  if (intervals =? 20)%Z then
    let st := clearTimer st k in
    set_animationPlaying st false
  else
    let intervals := (intervals + 1)%Z in
    set_timers st (replace_at k (fadeInAnimation intervals) (timers st)).

(** The [k]-th pending callback runs once.  Which callback the clock runs
    next, and when, is not part of the state: a run of the session names the
    callbacks in the order in which they fire. *)
Definition fire (k : nat) (st : Game) : Game :=
  match nth_error (timers st) k with
  | None => st
  | Some (rotationAnimation rotPoint axis angle futureBlock intervals) =>
    rotationAnimation_callback k rotPoint axis angle futureBlock intervals st
  | Some (failAnimationForward rotPoint axis angle intervals) =>
    failAnimationForward_callback k rotPoint axis angle intervals st
  | Some (failAnimationBackward rotPoint axis angle intervals) =>
    failAnimationBackward_callback k rotPoint axis angle intervals st
  | Some winTimeout => winTimeout_callback k st
  | Some winAnimation => winAnimation_callback k st
  | Some winFadeTimeout => winFadeTimeout_callback k st
  | Some (fadeOutAnimation offset intervals) => fadeOutAnimation_callback k offset intervals st
  | Some (fadeInAnimation intervals) => fadeInAnimation_callback k intervals st
  end.

(** ** Vocabulary of the statements *)

(** A whole number, and a whole number plus one half. *)
Definition whole (v : R) : Prop := exists k : Z, v = IZR k.

Definition halfInteger (v : R) : Prop := exists k : Z, v = IZR k + 1 / 2.

(** The cell is one of the tile coordinates of the board. *)
Definition tiled (level : Level) (c : Vector2XZ) : Prop :=
  exists tile,
    In tile (board level)
    /\ THREE.x (THREE.position tile) = x c
    /\ THREE.z (THREE.position tile) = z c.

Definition wholeCell (c : Vector2XZ) : Prop := whole (x c) /\ whole (z c).

(** Two cells that differ by 1 along one axis and agree on the other. *)
Definition adjacent (c1 c2 : Vector2XZ) : Prop :=
  (x c2 = x c1 + 1 /\ z c2 = z c1) \/ (x c2 = x c1 /\ z c2 = z c1 + 1).

(** One whole cell, or two adjacent whole cells. *)
Definition classificationConsistent (cells : list Vector2XZ) : Prop :=
  (exists c, cells = [c] /\ wholeCell c)
  \/ (exists c1 c2, cells = [c1; c2] /\ wholeCell c1 /\ wholeCell c2 /\ adjacent c1 c2).

(** The three resting poses of the 1 x 2 x 1 block on the unit grid. *)
Inductive Pose : THREE.Vector3 -> Prop :=
| standing (i j : Z) : Pose (THREE.mkVector3 (IZR i) 1 (IZR j))
| lyingAlongX (i j : Z) : Pose (THREE.mkVector3 (IZR i + 1 / 2) (1 / 2) (IZR j))
| lyingAlongZ (i j : Z) : Pose (THREE.mkVector3 (IZR i) (1 / 2) (IZR j + 1 / 2)).

(** The quarter turn that [handleBlockMovement] asks for in a direction. *)
Definition rollAngle (level : Level) (rotDir : dirEnum) : R :=
  ninetyDegRad * snd (rotationOf level rotDir).

Definition rollPoint (level : Level) (rotDir : dirEnum) : THREE.Vector3 :=
  fst (fst (rotationOf level rotDir)).

Definition rollAxis (level : Level) (rotDir : dirEnum) : THREE.Vector3 :=
  snd (fst (rotationOf level rotDir)).

(** The verdict of the engine on a roll, and the level once the block has
    turned by the whole angle. *)
Definition accepted (level : Level) (rotDir : dirEnum) : bool :=
  isValidRotation level (rollPoint level rotDir) (rollAxis level rotDir) (rollAngle level rotDir).

Definition roll (level : Level) (rotDir : dirEnum) : Level :=
  set_block level
    (rotateAroundWorldAxis (block level)
       (rollPoint level rotDir) (rollAxis level rotDir) (rollAngle level rotDir)).

(** The levels reached from [level0] by accepted rolls. *)
Inductive reachable (level0 : Level) : Level -> Prop :=
| reachable_start : reachable level0 level0
| reachable_roll (level : Level) (rotDir : dirEnum) :
    reachable level0 level ->
    accepted level rotDir = true ->
    reachable level0 (roll level rotDir).

Definition normalized (axis : THREE.Vector3) : Prop :=
  THREE.x axis * THREE.x axis + THREE.y axis * THREE.y axis + THREE.z axis * THREE.z axis = 1.

Definition Quaternion_opp (q : THREE.Quaternion) : THREE.Quaternion :=
  THREE.mkQuaternion (- THREE.qx q) (- THREE.qy q) (- THREE.qz q) (- THREE.qw q).

(** Two quaternions that turn every vector the same way. *)
Definition sameOrientation (q1 q2 : THREE.Quaternion) : Prop :=
  forall v, THREE.applyQuaternion v q1 = THREE.applyQuaternion v q2.

(** [q * v * conj(q)], which [applyQuaternion] computes for a [q] of norm 1. *)
Definition sandwich (v : THREE.Vector3) (q : THREE.Quaternion) : THREE.Vector3 :=
  let ix := THREE.qw q * THREE.x v + THREE.qy q * THREE.z v - THREE.qz q * THREE.y v in
  let iy := THREE.qw q * THREE.y v + THREE.qz q * THREE.x v - THREE.qx q * THREE.z v in
  let iz := THREE.qw q * THREE.z v + THREE.qx q * THREE.y v - THREE.qy q * THREE.x v in
  let iw := - THREE.qx q * THREE.x v - THREE.qy q * THREE.y v - THREE.qz q * THREE.z v in
  THREE.mkVector3
    (ix * THREE.qw q + iw * - THREE.qx q + iy * - THREE.qz q - iz * - THREE.qy q)
    (iy * THREE.qw q + iw * - THREE.qy q + iz * - THREE.qx q - ix * - THREE.qz q)
    (iz * THREE.qw q + iw * - THREE.qz q + ix * - THREE.qy q - iy * - THREE.qx q).

Definition norm2 (q : THREE.Quaternion) : R :=
  THREE.qx q * THREE.qx q + THREE.qy q * THREE.qy q
  + THREE.qz q * THREE.qz q + THREE.qw q * THREE.qw q.

(** No animation is playing and the pause menu is not showing. *)
Definition idle (st : Game) : Prop :=
  animationPlaying st = false /\ pauseWindowBox st <> "visible"%string.

(** A fresh mesh moved to [p]. *)
Definition blockAt (p : THREE.Vector3) : THREE.Mesh :=
  THREE.set_position THREE.Mesh_new p.

(** Whether a layout marks a winning tile. *)
Definition hasHole (layout : list (list string)) : bool :=
  existsb (existsb (String.eqb "□")) layout.

(** [_checkForWin] answered that the block stands on the winning tile. *)
Definition wins (l : Level) : bool :=
  match _checkForWin l with
  | Some true => true
  | _ => false
  end.

(** The state while a rotation of the block of [level0] is in its [n]-th
    interval, its callback pending ahead of the callbacks [rest]. *)
Definition rotating (level0 : Level) (rotPoint axis : THREE.Vector3) (angle : R)
    (n : nat) (rest : list Timer) (st : Game) : Prop :=
  (exists futureBlock,
     timers st = rotationAnimation rotPoint axis angle futureBlock (Z.of_nat n) :: rest)
  /\ animationPlaying st = true
  /\ level st
     = set_block level0
         (Nat.iter n (fun o => rotateAroundWorldAxis o rotPoint axis (angle / 18))
                   (block level0)).

(** The state while the forward half of a refused roll started from [st0]
    is in its [n]-th interval, and likewise for the backward half. *)
Definition bouncingForward (st0 : Game) (rotPoint axis : THREE.Vector3) (angle : R)
    (n : nat) (st : Game) : Prop :=
  timers st = [failAnimationForward rotPoint axis angle (Z.of_nat n)]
  /\ animationPlaying st = true
  /\ scene st = scene st0
  /\ camera st = camera st0
  /\ pauseWindowBox st = pauseWindowBox st0
  /\ opacity st = opacity st0
  /\ level st
     = set_block (level st0)
         (Nat.iter n (fun o => rotateAroundWorldAxis o rotPoint axis (angle / 18))
                   (block (level st0))).

Definition bouncingBackward (st0 : Game) (rotPoint axis : THREE.Vector3) (angle : R)
    (n : nat) (st : Game) : Prop :=
  timers st = [failAnimationBackward rotPoint axis angle (Z.of_nat n)]
  /\ animationPlaying st = true
  /\ scene st = scene st0
  /\ camera st = camera st0
  /\ pauseWindowBox st = pauseWindowBox st0
  /\ opacity st = opacity st0
  /\ level st
     = set_block (level st0)
         (Nat.iter n (fun o => rotateAroundWorldAxis o rotPoint axis (- angle / 18))
            (Nat.iter 18 (fun o => rotateAroundWorldAxis o rotPoint axis (angle / 18))
                      (block (level st0)))).

(** The state while the fade out requested from [st0] still has [k]
    intervals to go before the one that changes the level. *)
Definition fadingOut (st0 : Game) (offset : Z) (k : Z) (st : Game) : Prop :=
  timers st = [fadeOutAnimation offset k]
  /\ animationPlaying st = true
  /\ scene st = scene st0
  /\ camera st = camera st0
  /\ pauseWindowBox st = pauseWindowBox st0
  /\ level st = level st0.

(** The scene of a session that shows its level: the two lights, the tiles
    of the board and the block. *)
Definition sceneOf (l : Level) : list SceneChild :=
  [AmbientLight; DirectionalLight] ++ boardChildren l ++ [theBlock].

(** Level 0 as [new Level(0)] builds it, and the session [initLevel] starts. *)
Definition startLevel : Level :=
  mkLevel _LEVELS 0 (fst (boardFromLayout _LAYOUT_0)) (createBlock (5, 1)%Z)
          (snd (boardFromLayout _LAYOUT_0)).

Definition startGame : Game :=
  mkGame startLevel (sceneOf startLevel)
         (THREE.add (THREE.position (block startLevel)) camOffset)
         false "hidden" 1 [].

(** What the player and the timers do to the session.  A click on a level
    button counts while the buttons are unlocked. *)
Inductive Event : Type :=
| keydown (rotDir : dirEnum)
| escape
| clickLevelButton (offset : Z)
| interval (k : nat).

Definition handle (st : Game) (e : Event) : Game :=
  match e with
  | keydown rotDir => handleBlockMovement rotDir st
  | escape => togglePause st
  | clickLevelButton offset => fadeOutInLevel offset st
  | interval k => fire k st
  end.

Definition run (events : list Event) (st : Game) : Game := fold_left handle events st.

(** A roll to the left, the pause menu opened, a restart requested and the
    menu closed again while the block turns; the fade out has had four of its
    intervals when the roll ends on its eighteenth. *)
Definition restartDuringRoll : list Event :=
  [ keydown negX ]
  ++ repeat (interval 0) 6 ++ [ escape ]
  ++ repeat (interval 0) 4 ++ [ clickLevelButton 0 ]
  ++ repeat (interval 0) 2 ++ [ interval 1; interval 0; escape; interval 0; interval 1;
                               interval 0; interval 1; interval 0; interval 0; interval 1;
                               interval 0 ].

(** A block lying across the cells (0,0) and (1,0) of a board that has the
    tile (0,1) next to it but not the tile (1,1). *)
Definition halfSupportedLevel : Level :=
  mkLevel _LEVELS 0 [createTile 0 0; createTile 1 0; createTile 0 1]
          (blockAt (THREE.mkVector3 (1 / 2) (1 / 2) 0)) None.

(** A level whose block has drifted off the 0.01 grid. *)
Definition driftedLevel : Level :=
  mkLevel _LEVELS 0 [] (blockAt (THREE.mkVector3 (1 / 1000) 1 0)) None.

(** A block at standing height whose centre is astride the cells (0,0) and
    (0,1), on a board of the two tiles (1,0) and (2,1). *)
Definition astrideLevel : Level :=
  mkLevel _LEVELS 0 [createTile 1 0; createTile 2 1]
          (blockAt (THREE.mkVector3 0 1 (1 / 2))) None.

(** ** Further vocabulary *)

(** The direction that rolls back. *)
Definition opposite (rotDir : dirEnum) : dirEnum :=
  match rotDir with
  | posX => negX
  | negX => posX
  | posZ => negZ
  | negZ => posZ
  end.


(** The board cell in column [i] and row [j]. *)
Definition cell (i j : Z) : Vector2XZ := mkVector2XZ (IZR i) (IZR j).

(** [layout[i][j]] *)
Definition layoutAt (layout : list (list string)) (i j : nat) : option string :=
  match nth_error layout i with
  | Some row => nth_error row j
  | None => None
  end.

(** The tile that the character [c] in row [i] and column [j] of a layout
    stands for: a plain tile for a filled square, the invisible tile of the
    hole for an empty square. *)
Definition tileFor (c : string) (i j : nat) (tile : THREE.Mesh) : Prop :=
  (c = "■"%string /\ tile = createTile (IZR (Z.of_nat j)) (IZR (Z.of_nat i)))
  \/ (c = "□"%string
      /\ tile = THREE.set_visible (createTile (IZR (Z.of_nat j)) (IZR (Z.of_nat i))) false).


(** The square of the distance between two points, and the dot product. *)
Definition distanceToSquared (v w : THREE.Vector3) : R :=
  (THREE.x v - THREE.x w) * (THREE.x v - THREE.x w)
  + (THREE.y v - THREE.y w) * (THREE.y v - THREE.y w)
  + (THREE.z v - THREE.z w) * (THREE.z v - THREE.z w).

Definition dot (v w : THREE.Vector3) : R :=
  THREE.x v * THREE.x w + THREE.y v * THREE.y w + THREE.z v * THREE.z w.

(** [v.multiplyScalar(s)] *)
Definition multiplyScalar (v : THREE.Vector3) (s : R) : THREE.Vector3 :=
  THREE.mkVector3 (THREE.x v * s) (THREE.y v * s) (THREE.z v * s).

(** Where the camera is after [n] intervals of a rotation that started with
    the camera at [c0] and the rotated clone at [F]. *)
Definition cameraAfter (F c0 : THREE.Vector3) (n : nat) : THREE.Vector3 :=
  THREE.add (THREE.add F (multiplyScalar camOffset (INR n - 17)))
            (multiplyScalar (THREE.add (THREE.sub c0 F) (multiplyScalar camOffset 17))
                            ((17 / 18) ^ n)).

(** The state after [n] intervals of such a rotation: the clone has been
    moved [n] times by [camOffset]. *)
Definition tracking (F c0 : THREE.Vector3) (n : nat) (st : Game) : Prop :=
  (exists p a g fb rest,
      timers st = rotationAnimation p a g fb (Z.of_nat n) :: rest
      /\ THREE.position fb = THREE.add F (multiplyScalar camOffset (INR n)))
  /\ camera st = cameraAfter F c0 n.

(** The session with the block lowered by [d]. *)
Definition sunk (st : Game) (d : R) : Game :=
  let b := block (level st) in
  let pos := THREE.position b in
  set_level_block st
    (THREE.set_position b (THREE.mkVector3 (THREE.x pos) (THREE.y pos - d) (THREE.z pos))).

(** A block lying across the cells (0,0) and (1,0) of the last level, next
    to the hole at (2,0). *)
Definition lastHole : THREE.Mesh := THREE.set_visible (createTile 2 0) false.

Definition lastRollLevel : Level :=
  mkLevel _LEVELS _LEVELS [createTile 0 0; createTile 1 0; lastHole]
          (blockAt (THREE.mkVector3 (IZR 0 + 1 / 2) (1 / 2) (IZR 0))) (Some lastHole).

Definition lastRollGame : Game :=
  mkGame lastRollLevel (sceneOf lastRollLevel)
         (THREE.add (THREE.position (block lastRollLevel)) camOffset) false "hidden" 1 [].

(** The fields of the session that a level change reads or writes. *)
Definition session (l : Level) (sc : list SceneChild) (flag : bool) (ts : list Timer)
    (st : Game) : Prop :=
  level st = l /\ scene st = sc /\ animationPlaying st = flag /\ timers st = ts.

(** With the timeout of a win pending: the pause key, a click on the
    next-level button, two intervals of its fade out, and the timeout, which
    asks for the next level as well. *)
Definition twoRequests : list Event :=
  [ escape; clickLevelButton 1; interval 1; interval 1; interval 0 ].

(** The intervals of the two fade outs and of the fade in that follows the
    first level change, in the order in which they fall due. *)
Definition bothFades : list Event :=
  List.concat (repeat [interval 0; interval 1] 18)
  ++ [ interval 0 ]
  ++ [ interval 0; interval 1; interval 0; interval 1 ]
  ++ [ interval 0 ]
  ++ repeat (interval 0) 20.

(** A key press and the intervals of the roll it starts, and the timeout
    and the intervals of the slide into the hole after a win. *)
Definition rollEvents (rotDir : dirEnum) : list Event :=
  [ keydown rotDir ] ++ repeat (interval 0) 18.

Definition slideEvents : list Event := repeat (interval 0) 22.

(** *** The puzzle on the grid *)

(** How the block rests, and where: [col] and [row] are those of the cell
    it stands on, or of the lower of the two cells it lies on. *)
Inductive Lie : Type := upright | alongX | alongZ.

Record Place : Type := mkPlace { lie : Lie; col : Z; row : Z }.

Definition centre (p : Place) : THREE.Vector3 :=
  match lie p with
  | upright => THREE.mkVector3 (IZR (col p)) 1 (IZR (row p))
  | alongX => THREE.mkVector3 (IZR (col p) + 1 / 2) (1 / 2) (IZR (row p))
  | alongZ => THREE.mkVector3 (IZR (col p)) (1 / 2) (IZR (row p) + 1 / 2)
  end.

Definition cells (p : Place) : list (Z * Z) :=
  match lie p with
  | upright => [ (col p, row p) ]
  | alongX => [ (col p, row p); ((col p + 1)%Z, row p) ]
  | alongZ => [ (col p, row p); (col p, (row p + 1)%Z) ]
  end.

Definition move (rotDir : dirEnum) (p : Place) : Place :=
  match lie p, rotDir with
  | upright, posX => mkPlace alongX (col p + 1)%Z (row p)
  | upright, negX => mkPlace alongX (col p - 2)%Z (row p)
  | upright, posZ => mkPlace alongZ (col p) (row p + 1)%Z
  | upright, negZ => mkPlace alongZ (col p) (row p - 2)%Z
  | alongX, posX => mkPlace upright (col p + 2)%Z (row p)
  | alongX, negX => mkPlace upright (col p - 1)%Z (row p)
  | alongX, posZ => mkPlace alongX (col p) (row p + 1)%Z
  | alongX, negZ => mkPlace alongX (col p) (row p - 1)%Z
  | alongZ, posX => mkPlace alongZ (col p + 1)%Z (row p)
  | alongZ, negX => mkPlace alongZ (col p - 1)%Z (row p)
  | alongZ, posZ => mkPlace upright (col p) (row p + 2)%Z
  | alongZ, negZ => mkPlace upright (col p) (row p - 1)%Z
  end.

(** The character of the layout at a cell (column, row). *)
Definition square (layout : list (list string)) (c : Z * Z) : option string :=
  if ((fst c <? 0) || (snd c <? 0))%Z then None
  else layoutAt layout (Z.to_nat (snd c)) (Z.to_nat (fst c)).

Definition filled (layout : list (list string)) (c : Z * Z) : bool :=
  match square layout c with
  | Some s => (s =? "■")%string || (s =? "□")%string
  | None => false
  end.

Definition onHole (layout : list (list string)) (p : Place) : bool :=
  match lie p, square layout (col p, row p) with
  | upright, Some s => (s =? "□")%string
  | _, _ => false
  end.

(** Every roll of the path lands on filled squares. *)
Fixpoint legal (layout : list (list string)) (p : Place) (path : list dirEnum) : bool :=
  match path with
  | [] => true
  | rotDir :: path' =>
    forallb (filled layout) (cells (move rotDir p)) && legal layout (move rotDir p) path'
  end.

(** No roll of the path leaves the block upright on an empty square. *)
Fixpoint quiet (layout : list (list string)) (p : Place) (path : list dirEnum) : bool :=
  match path with
  | [] => true
  | rotDir :: path' =>
    negb (onHole layout (move rotDir p)) && quiet layout (move rotDir p) path'
  end.

Definition final (p : Place) (path : list dirEnum) : Place :=
  fold_left (fun p rotDir => move rotDir p) path p.

(** The empty squares of a layout, as (row, column), from row [i] on. *)
Fixpoint holesOfRow (row : list string) (i j : nat) : list (nat * nat) :=
  match row with
  | [] => []
  | c :: row' => (if (c =? "□")%string then [ (i, j) ] else []) ++ holesOfRow row' i (S j)
  end.

Fixpoint holesOf (layout : list (list string)) (i : nat) : list (nat * nat) :=
  match layout with
  | [] => []
  | row :: layout' => holesOfRow row i 0 ++ holesOf layout' (S i)
  end.

(** The path is legal from the start of the layout and ends upright on
    its only empty square. *)
Definition solves (layout : list (list string)) (start : Z * Z) (path : list dirEnum) : bool :=
  let p := mkPlace upright (fst start) (snd start) in
  legal layout p path
  && match holesOf layout 0, lie (final p path) with
     | [ (i, j) ], upright =>
       (col (final p path) =? Z.of_nat j)%Z && (row (final p path) =? Z.of_nat i)%Z
     | _, _ => false
     end.

(** For each level, a sequence of rolls that wins it (the engine has no such
    table; these are what a player may type). *)
Definition solutions : list (list dirEnum) :=
  [ [ negX; negX; posZ; posZ; posZ; negX; posZ ];
    [ posZ; posZ; posX; posZ; posX; posZ; posX; posX; negZ; posX; negZ; posX;
      negZ; negX; negZ ];
    [ posX; posZ; negX; negZ; posX; posZ ];
    [ negX; posZ; negX; posZ; posX; posZ; posX; posX; posX; negZ; posX; posZ;
      negX; negZ ];
    [ posX; posX; posZ; posZ; negX; negX; posZ; posX; negZ; negX; posZ; posX;
      negZ; negX; posZ ];
    [ posX; posZ; posZ; negX; negZ; posX; posX; posZ; posX; posZ; posZ; negX;
      negX; posZ; posZ; posX; posX; posZ; posX; posZ; negX; negZ ];
    [ posX; negZ; negX; posZ; posX; negZ; posX; posX; posX; negZ; negZ; posX;
      posX; posX; posZ; posX; posZ; posZ; posX; negZ ];
    [ posZ; posX; negZ; negX; negZ; negX; negZ; negX; negX; negX; posZ; posZ;
      posZ; negX; negZ; posX; negZ; negX; posZ; posZ; posZ; negX; negX; negX;
      negZ; negX; negZ; negZ ];
    [ posX; posX; posX; posZ; posX; posZ; posZ; posX; posZ; posZ; posX; negZ;
      negX; negX; negX; negZ; negZ; negX; negZ; negZ; negZ; posX; posX; posX;
      posZ; posZ; negX; negZ; posX; posX; posZ; posX; posZ; posZ; posX ];
    [ posX; posZ; negX; negZ; negX; posZ; posX; negZ; posX; posX; posX; posX;
      posX; negZ; posX; posX; negZ; posX; posZ; posZ; negX; negZ; posX; posZ;
      negX; negZ; negX; negX; negZ; negX; negX; negX; negX; negZ; negX; negZ;
      negX; posZ; posX; negZ; negZ; posX; posX; posX; posX; posX; posX; posX ];
    [ posX; posX; posX; posX; negZ; negX; posZ; posZ; posZ; posX; posX; posX;
      posZ; negX; negZ; negX; negX; negX; negZ; negZ; posX; negZ; posX; posX;
      posZ; posX; negZ; negX; negX; negX; posZ; posZ; negX; negX; negX; negZ;
      negZ; posX; negZ; negZ; negX; posZ; posX; negZ; posX; posZ; negX ];
    [ negZ; negZ; negZ; posX; negZ; negX; posZ; posZ; posX; negZ; negX; posZ;
      posZ; posZ; posZ; posX; posZ; posX; posX; negZ; posX; negZ; negZ; negZ;
      posX; posZ; negX; negX; posZ; posX; negZ; negZ; negZ; negZ; negX; negX;
      negZ; negZ; negX; negX; negX; negZ; posX; posZ; negX; negZ; negX; posZ;
      negX; posZ; posZ; posZ; posZ; posZ; posZ; posX; posZ; negX; negZ; posX;
      posX; posZ; negX; negZ; negX; posZ; posZ; posX; posX; posX; posX; negZ;
      negZ; negZ; negZ ] ].

(** The key presses of a path, each with the intervals of its roll. *)
Definition play (path : list dirEnum) : list Event := flat_map rollEvents path.

(** A click on the next-level button and the intervals of the transition. *)
Definition nextLevelEvents : list Event :=
  [ clickLevelButton 1 ] ++ repeat (interval 0) (22 + 21).

(** From the page as it loads to level [n]: the pause menu is opened, the
    next-level button is clicked [n] times, each click after the transition
    before it has ended, and the menu is closed. *)
Definition enterLevel (n : nat) : list Event :=
  [ escape ] ++ List.concat (repeat nextLevelEvents n) ++ [ escape ].

(** A session that has just entered level [n], the pause menu showing. *)
Definition entered (n : nat) (st : Game) : Prop :=
  Level_new (Z.of_nat n) = Some (level st)
  /\ scene st = sceneOf (level st)
  /\ timers st = []
  /\ animationPlaying st = false
  /\ pauseWindowBox st = "visible"%string.

(** * Properties of the engine *)

(** ** JavaScript numbers *)

Lemma strict_eq_true (a b : R) : (a === b) = true <-> a = b.
Proof.
  unfold JS.strict_eq. destruct (Req_dec_T a b); split; congruence.
Qed.

Lemma strict_eq_false (a b : R) : (a === b) = false <-> a <> b.
Proof.
  unfold JS.strict_eq. destruct (Req_dec_T a b); split; congruence.
Qed.

Lemma strict_eq_refl (a : R) : (a === a) = true.
Proof. now apply strict_eq_true. Qed.

Lemma Math_floor_IZR (k : Z) : JS.Math_floor (IZR k) = IZR k.
Proof. unfold JS.Math_floor. now rewrite ZfloorZ. Qed.

Lemma Math_ceil_IZR (k : Z) : JS.Math_ceil (IZR k) = IZR k.
Proof.
  unfold JS.Math_ceil, Zceil. rewrite ZfloorNZ. f_equal. lia.
Qed.

Lemma Math_floor_half (k : Z) : JS.Math_floor (IZR k + 1 / 2) = IZR k.
Proof. unfold JS.Math_floor. rewrite (Zfloor_eq k); [reflexivity | lra]. Qed.

Lemma Math_ceil_half (k : Z) : JS.Math_ceil (IZR k + 1 / 2) = IZR k + 1.
Proof.
  unfold JS.Math_ceil. rewrite (Zceil_eq (k + 1)).
  - now rewrite plus_IZR.
  - rewrite plus_IZR. lra.
Qed.

Lemma Math_round_eq (k : Z) (v : R) :
  IZR k - 1 / 2 <= v < IZR k + 1 / 2 -> JS.Math_round v = IZR k.
Proof.
  intros H. unfold JS.Math_round. rewrite (Zfloor_eq k); [reflexivity | lra].
Qed.

Lemma Math_round_IZR (k : Z) : JS.Math_round (IZR k) = IZR k.
Proof. apply Math_round_eq. lra. Qed.

Lemma trunc_IZR (k : Z) : JS.trunc (IZR k) = IZR k.
Proof.
  unfold JS.trunc. destruct (Rle_dec 0 (IZR k)).
  - apply Math_floor_IZR.
  - apply Math_ceil_IZR.
Qed.

Lemma trunc_whole (v : R) : whole (JS.trunc v).
Proof.
  unfold JS.trunc. destruct (Rle_dec 0 v); eexists; reflexivity.
Qed.

(** [isInt] holds exactly of the whole numbers, of either sign. *)
Lemma isInt_whole (v : R) : isInt v = true <-> whole v.
Proof.
  unfold isInt, JS.rem. rewrite strict_eq_true. split.
  - intros H. destruct (trunc_whole (v / 1)) as [k Hk]. exists k. lra.
  - intros [k ->]. replace (IZR k / 1) with (IZR k) by field.
    rewrite trunc_IZR. ring.
Qed.

Lemma isInt_IZR (k : Z) : isInt (IZR k) = true.
Proof. apply isInt_whole. now exists k. Qed.

Lemma half_not_whole (k : Z) : ~ whole (IZR k + 1 / 2).
Proof.
  intros [m Hm].
  assert (E : IZR (2 * m - 2 * k) = 1) by (rewrite minus_IZR, !mult_IZR; lra).
  apply eq_IZR in E. lia.
Qed.

Lemma isInt_half (k : Z) : isInt (IZR k + 1 / 2) = false.
Proof.
  apply not_true_is_false. rewrite isInt_whole. apply half_not_whole.
Qed.

Lemma whole_or_half_of_even_odd (n : Z) : whole (IZR n / 2) \/ halfInteger (IZR n / 2).
Proof.
  destruct (Z.even n) eqn:E.
  - left. apply Z.even_spec in E. destruct E as [m ->]. exists m.
    rewrite mult_IZR. field.
  - right. assert (O : Z.odd n = true) by (rewrite <- Z.negb_even, E; reflexivity).
    apply Z.odd_spec in O. destruct O as [m ->]. exists m.
    rewrite plus_IZR, mult_IZR. field.
Qed.

(** [halfRound] lands on the half-unit grid. *)
Lemma halfRound_grid (v : R) : whole (halfRound v) \/ halfInteger (halfRound v).
Proof. unfold halfRound, JS.Math_round. apply whole_or_half_of_even_odd. Qed.

Lemma halfRound_IZR (k : Z) : halfRound (IZR k) = IZR k.
Proof.
  unfold halfRound. rewrite (Math_round_eq (2 * k)).
  - rewrite mult_IZR. field.
  - rewrite mult_IZR. lra.
Qed.

Lemma halfRound_half (k : Z) : halfRound (IZR k + 1 / 2) = IZR k + 1 / 2.
Proof.
  unfold halfRound. rewrite (Math_round_eq (2 * k + 1)).
  - rewrite plus_IZR, mult_IZR. field.
  - rewrite plus_IZR, mult_IZR. lra.
Qed.

Lemma twoPtRound_IZR (k : Z) : twoPtRound (IZR k) = IZR k.
Proof.
  unfold twoPtRound. rewrite (Math_round_eq (100 * k)).
  - rewrite mult_IZR. field.
  - rewrite mult_IZR. lra.
Qed.

Lemma twoPtRound_half (k : Z) : twoPtRound (IZR k + 1 / 2) = IZR k + 1 / 2.
Proof.
  unfold twoPtRound. rewrite (Math_round_eq (100 * k + 50)).
  - rewrite plus_IZR, mult_IZR. field.
  - rewrite plus_IZR, mult_IZR. lra.
Qed.

Lemma twoPtRound_centi (n : Z) : twoPtRound (IZR n / 100) = IZR n / 100.
Proof.
  unfold twoPtRound. rewrite (Math_round_eq n); [reflexivity | lra].
Qed.

(** The nearest half unit, a tie going up. *)
Lemma halfRound_nearest (v : R) : v - 1 / 4 < halfRound v <= v + 1 / 4.
Proof.
  unfold halfRound, JS.Math_round.
  pose proof (Zfloor_bound (v * 2 + / 2)). lra.
Qed.

(** A tie of [halfRound]: an odd multiple of one quarter. *)
Lemma halfRound_tie (v : R) :
  whole (v * 2 + 1 / 2) -> halfRound v = v + 1 / 4 /\ halfRound (- v) = - v + 1 / 4.
Proof.
  intros [k Hk]. unfold halfRound. split.
  - rewrite (Math_round_eq k) by lra. lra.
  - rewrite (Math_round_eq (1 - k)) by (rewrite minus_IZR; lra).
    rewrite minus_IZR. lra.
Qed.

Lemma halfRound_opp (v : R) :
  ~ whole (v * 2 + 1 / 2) -> halfRound (- v) = - halfRound v.
Proof.
  intros Hn. unfold halfRound, JS.Math_round.
  pose proof (Zfloor_bound (v * 2 + / 2)) as B.
  assert (N : IZR (Zfloor (v * 2 + / 2)) <> v * 2 + / 2).
  { intros E. apply Hn. exists (Zfloor (v * 2 + / 2)). lra. }
  rewrite (Zfloor_eq (- Zfloor (v * 2 + / 2))); rewrite opp_IZR; lra.
Qed.

(** C10, as stated: [halfRound] is symmetric about zero at every number.
    It is not at one quarter, which goes up to one half while minus one
    quarter goes up to zero. *)
Lemma C10_halfRound_not_symmetric :
  ~ (forall v : R, halfRound (- v) = - halfRound v).
Proof.
  intros H. specialize (H (1 / 4)).
  destruct (halfRound_tie (1 / 4)) as [E1 E2].
  - exists 1%Z. lra.
  - rewrite E1, E2 in H. lra.
Qed.

(** C10, amended: [halfRound v] is [Math.round (v * 2) / 2], the nearest
    half unit with a tie going up; [isInt] holds exactly of the whole
    numbers, the negative ones included; and [halfRound] is symmetric
    about zero exactly at the numbers that are not a tie. *)
Theorem C10_halfRound_isInt (v : R) :
  halfRound v = JS.Math_round (v * 2) / 2
  /\ (whole (halfRound v) \/ halfInteger (halfRound v))
  /\ v - 1 / 4 < halfRound v <= v + 1 / 4
  /\ (isInt v = true <-> whole v)
  /\ (forall k : Z, isInt (IZR k) = true /\ isInt (- IZR k) = true)
  /\ (halfRound (- v) = - halfRound v <-> ~ whole (v * 2 + 1 / 2)).
Proof.
  split; [reflexivity |].
  split; [apply halfRound_grid |].
  split; [apply halfRound_nearest |].
  split; [apply isInt_whole |].
  split.
  - intros k. split; [apply isInt_IZR |]. rewrite <- opp_IZR. apply isInt_IZR.
  - split.
    + intros E T. destruct (halfRound_tie v T) as [E1 E2]. lra.
    + apply halfRound_opp.
Qed.

(** ** Cell classification *)

Lemma getBlockPos_whole (block : THREE.Mesh) :
  whole (halfRound (THREE.x (THREE.position block))) ->
  whole (halfRound (THREE.z (THREE.position block))) ->
  getBlockPos block
  = [ mkVector2XZ (halfRound (THREE.x (THREE.position block)))
                  (halfRound (THREE.z (THREE.position block))) ].
Proof.
  intros Hx Hz. unfold getBlockPos.
  apply isInt_whole in Hx. apply isInt_whole in Hz. rewrite Hx, Hz. reflexivity.
Qed.

Lemma getBlockPos_halfX (block : THREE.Mesh) (i j : Z) :
  halfRound (THREE.x (THREE.position block)) = IZR i + 1 / 2 ->
  halfRound (THREE.z (THREE.position block)) = IZR j ->
  getBlockPos block = [ mkVector2XZ (IZR i) (IZR j); mkVector2XZ (IZR i + 1) (IZR j) ].
Proof.
  intros Hx Hz. unfold getBlockPos, Vector2XZ_floor, Vector2XZ_ceil, Vector2XZ_halfRound.
  cbn [x z]. rewrite Hx, Hz, isInt_half. cbn [andb].
  now rewrite Math_floor_half, Math_ceil_half, Math_floor_IZR, Math_ceil_IZR.
Qed.

Lemma getBlockPos_halfZ (block : THREE.Mesh) (i j : Z) :
  halfRound (THREE.x (THREE.position block)) = IZR i ->
  halfRound (THREE.z (THREE.position block)) = IZR j + 1 / 2 ->
  getBlockPos block = [ mkVector2XZ (IZR i) (IZR j); mkVector2XZ (IZR i) (IZR j + 1) ].
Proof.
  intros Hx Hz. unfold getBlockPos, Vector2XZ_floor, Vector2XZ_ceil, Vector2XZ_halfRound.
  cbn [x z]. rewrite Hx, Hz, isInt_half, andb_false_r.
  now rewrite Math_floor_half, Math_ceil_half, Math_floor_IZR, Math_ceil_IZR.
Qed.

(** C2: with both half-rounded coordinates whole, [getBlockPos] returns the
    one cell at that pair; with exactly one of them a half-integer, it
    returns two cells, the floor and the ceiling of that coordinate with
    the other one fixed, which differ by 1 along that axis alone. *)
Theorem C2_getBlockPos_cells (block : THREE.Mesh) :
  let hx := halfRound (THREE.x (THREE.position block)) in
  let hz := halfRound (THREE.z (THREE.position block)) in
  ((whole hx \/ halfInteger hx) /\ (whole hz \/ halfInteger hz))
  /\ (whole hx -> whole hz -> getBlockPos block = [ mkVector2XZ hx hz ])
  /\ (halfInteger hx -> whole hz ->
      exists c1 c2,
        getBlockPos block = [ c1; c2 ]
        /\ c1 = mkVector2XZ (JS.Math_floor hx) hz
        /\ c2 = mkVector2XZ (JS.Math_ceil hx) hz
        /\ wholeCell c1 /\ wholeCell c2
        /\ x c2 = x c1 + 1 /\ z c2 = z c1)
  /\ (whole hx -> halfInteger hz ->
      exists c1 c2,
        getBlockPos block = [ c1; c2 ]
        /\ c1 = mkVector2XZ hx (JS.Math_floor hz)
        /\ c2 = mkVector2XZ hx (JS.Math_ceil hz)
        /\ wholeCell c1 /\ wholeCell c2
        /\ x c2 = x c1 /\ z c2 = z c1 + 1).
Proof.
  intros hx hz. split; [split; apply halfRound_grid |]. split; [| split].
  - apply getBlockPos_whole.
  - intros [i Hi] [j Hj]. subst hx hz.
    exists (mkVector2XZ (IZR i) (IZR j)), (mkVector2XZ (IZR i + 1) (IZR j)).
    rewrite (getBlockPos_halfX block i j Hi Hj), Hi, Hj.
    rewrite Math_floor_half, Math_ceil_half.
    repeat split; cbn [x z]; try reflexivity;
      try (now exists i); try (now exists j);
      exists (i + 1)%Z; now rewrite plus_IZR.
  - intros [i Hi] [j Hj]. subst hx hz.
    exists (mkVector2XZ (IZR i) (IZR j)), (mkVector2XZ (IZR i) (IZR j + 1)).
    rewrite (getBlockPos_halfZ block i j Hi Hj), Hi, Hj.
    rewrite Math_floor_half, Math_ceil_half.
    repeat split; cbn [x z]; try reflexivity;
      try (now exists i); try (now exists j);
      exists (j + 1)%Z; now rewrite plus_IZR.
Qed.

(** ** Pivot offsets *)

Lemma offsetRotPointX_cases (level : Level) :
  let pos := THREE.position (block level) in
  (twoPtRound (THREE.y pos) = 1 / 2 /\ whole (twoPtRound (THREE.z pos))
   /\ offsetRotPointX level = 1)
  \/ (~ (twoPtRound (THREE.y pos) = 1 / 2 /\ whole (twoPtRound (THREE.z pos)))
      /\ offsetRotPointX level = 1 / 2).
Proof.
  cbv zeta. unfold offsetRotPointX.
  destruct (twoPtRound (THREE.y (THREE.position (block level))) === 1 / 2) eqn:Ey;
    destruct (isInt (twoPtRound (THREE.z (THREE.position (block level))))) eqn:Ez;
    cbn [andb].
  - left. apply strict_eq_true in Ey. apply isInt_whole in Ez. tauto.
  - right. split; [| reflexivity]. intros [_ W]. apply isInt_whole in W. congruence.
  - right. split; [| reflexivity]. intros [E _]. apply strict_eq_false in Ey. tauto.
  - right. split; [| reflexivity]. intros [E _]. apply strict_eq_false in Ey. tauto.
Qed.

Lemma offsetRotPointZ_cases (level : Level) :
  let pos := THREE.position (block level) in
  (twoPtRound (THREE.y pos) = 1 / 2 /\ whole (twoPtRound (THREE.x pos))
   /\ offsetRotPointZ level = 1)
  \/ (~ (twoPtRound (THREE.y pos) = 1 / 2 /\ whole (twoPtRound (THREE.x pos)))
      /\ offsetRotPointZ level = 1 / 2).
Proof.
  cbv zeta. unfold offsetRotPointZ.
  destruct (twoPtRound (THREE.y (THREE.position (block level))) === 1 / 2) eqn:Ey;
    destruct (isInt (twoPtRound (THREE.x (THREE.position (block level))))) eqn:Ex;
    cbn [andb].
  - left. apply strict_eq_true in Ey. apply isInt_whole in Ex. tauto.
  - right. split; [| reflexivity]. intros [_ W]. apply isInt_whole in W. congruence.
  - right. split; [| reflexivity]. intros [E _]. apply strict_eq_false in Ey. tauto.
  - right. split; [| reflexivity]. intros [E _]. apply strict_eq_false in Ey. tauto.
Qed.

Lemma twoPtRound_1 : twoPtRound 1 = 1.
Proof. exact (twoPtRound_IZR 1). Qed.

Lemma twoPtRound_one_half : twoPtRound (1 / 2) = 1 / 2.
Proof.
  replace (1 / 2) with (IZR 0 + 1 / 2) by lra. apply twoPtRound_half.
Qed.

Lemma isInt_one_half : isInt (1 / 2) = false.
Proof. rewrite <- (isInt_half 0). f_equal. lra. Qed.

Lemma one_not_half : (1 === 1 / 2) = false.
Proof. apply strict_eq_false. lra. Qed.

(** The offsets in the three resting poses. *)
Lemma offsets_of_pose (level : Level) :
  Pose (THREE.position (block level)) ->
  (exists i j, THREE.position (block level) = THREE.mkVector3 (IZR i) 1 (IZR j)
               /\ offsetRotPointX level = 1 / 2 /\ offsetRotPointZ level = 1 / 2)
  \/ (exists i j, THREE.position (block level) = THREE.mkVector3 (IZR i + 1 / 2) (1 / 2) (IZR j)
                  /\ offsetRotPointX level = 1 /\ offsetRotPointZ level = 1 / 2)
  \/ (exists i j, THREE.position (block level) = THREE.mkVector3 (IZR i) (1 / 2) (IZR j + 1 / 2)
                  /\ offsetRotPointX level = 1 / 2 /\ offsetRotPointZ level = 1).
Proof.
  intros P. unfold offsetRotPointX, offsetRotPointZ.
  inversion P as [i j E | i j E | i j E]; cbn [THREE.x THREE.y THREE.z].
  - left. exists i, j. split; [reflexivity |].
    rewrite twoPtRound_1, one_not_half. split; reflexivity.
  - right. left. exists i, j. split; [reflexivity |].
    rewrite twoPtRound_one_half, strict_eq_refl, twoPtRound_half, twoPtRound_IZR,
      isInt_IZR, isInt_half.
    split; reflexivity.
  - right. right. exists i, j. split; [reflexivity |].
    rewrite twoPtRound_one_half, strict_eq_refl, twoPtRound_half, twoPtRound_IZR,
      isInt_IZR, isInt_half.
    split; reflexivity.
Qed.

(** C3: the x offset is 1 exactly when the rounded height is 0.5 and the
    rounded z coordinate is whole, and 0.5 in every other state; the z
    offset likewise with the rounded x coordinate. *)
Theorem C3_offsetRotPoint (level : Level) :
  let pos := THREE.position (block level) in
  (offsetRotPointX level = 1
   <-> twoPtRound (THREE.y pos) = 1 / 2 /\ whole (twoPtRound (THREE.z pos)))
  /\ (offsetRotPointX level = 1 / 2
      <-> ~ (twoPtRound (THREE.y pos) = 1 / 2 /\ whole (twoPtRound (THREE.z pos))))
  /\ (offsetRotPointZ level = 1
      <-> twoPtRound (THREE.y pos) = 1 / 2 /\ whole (twoPtRound (THREE.x pos)))
  /\ (offsetRotPointZ level = 1 / 2
      <-> ~ (twoPtRound (THREE.y pos) = 1 / 2 /\ whole (twoPtRound (THREE.x pos))))
  /\ (forall i j, pos = THREE.mkVector3 (IZR i) 1 (IZR j) ->
                  offsetRotPointX level = 1 / 2 /\ offsetRotPointZ level = 1 / 2)
  /\ (forall i j, pos = THREE.mkVector3 (IZR i + 1 / 2) (1 / 2) (IZR j) ->
                  offsetRotPointX level = 1 /\ offsetRotPointZ level = 1 / 2)
  /\ (forall i j, pos = THREE.mkVector3 (IZR i) (1 / 2) (IZR j + 1 / 2) ->
                  offsetRotPointX level = 1 / 2 /\ offsetRotPointZ level = 1).
Proof.
  cbv zeta.
  assert (Hiff :
    (offsetRotPointX level = 1
     <-> twoPtRound (THREE.y (THREE.position (block level))) = 1 / 2
         /\ whole (twoPtRound (THREE.z (THREE.position (block level)))))
    /\ (offsetRotPointX level = 1 / 2
        <-> ~ (twoPtRound (THREE.y (THREE.position (block level))) = 1 / 2
               /\ whole (twoPtRound (THREE.z (THREE.position (block level))))))
    /\ (offsetRotPointZ level = 1
        <-> twoPtRound (THREE.y (THREE.position (block level))) = 1 / 2
            /\ whole (twoPtRound (THREE.x (THREE.position (block level)))))
    /\ (offsetRotPointZ level = 1 / 2
        <-> ~ (twoPtRound (THREE.y (THREE.position (block level))) = 1 / 2
               /\ whole (twoPtRound (THREE.x (THREE.position (block level))))))).
  { destruct (offsetRotPointX_cases level) as [(Hy & Hz & E) | (N & E)];
      destruct (offsetRotPointZ_cases level) as [(Hy' & Hx & E') | (N' & E')];
      rewrite E, E'; repeat split; intros; try tauto; try lra. }
  destruct Hiff as (H1 & H2 & H3 & H4).
  split; [exact H1 |]. split; [exact H2 |]. split; [exact H3 |]. split; [exact H4 |].
  split; [| split]; intros i j P; unfold offsetRotPointX, offsetRotPointZ; rewrite P;
    cbn [THREE.x THREE.y THREE.z];
    rewrite ?twoPtRound_1, ?one_not_half, ?twoPtRound_one_half, ?strict_eq_refl,
      ?twoPtRound_half, ?twoPtRound_IZR, ?isInt_IZR, ?isInt_half;
    split; reflexivity.
Qed.

(** ** Validity of a rotation *)

Lemma isValid_fold (validTile : Vector2XZ -> bool) (cells : list Vector2XZ) (b : bool) :
  fold_left (fun isValid blockPos => if negb (validTile blockPos) then false else isValid)
            cells b
  = b && forallb validTile cells.
Proof.
  revert b. induction cells as [| c cells IH]; intros b; cbn.
  - now rewrite andb_true_r.
  - rewrite IH. destruct (validTile c), b; reflexivity.
Qed.

Lemma validTile_tiled (level : Level) (c : Vector2XZ) :
  existsb (fun tilePos => (x tilePos === x c) && (z tilePos === z c))
          (map (fun tile => mkVector2XZ (THREE.x (THREE.position tile))
                                        (THREE.z (THREE.position tile)))
               (board level)) = true
  <-> tiled level c.
Proof.
  rewrite existsb_exists. unfold tiled. split.
  - intros (tilePos & Hin & H). apply in_map_iff in Hin. destruct Hin as (tile & <- & Hin).
    apply andb_true_iff in H. cbn [x z] in H. destruct H as [Hx Hz].
    apply strict_eq_true in Hx. apply strict_eq_true in Hz. now exists tile.
  - intros (tile & Hin & Hx & Hz).
    exists (mkVector2XZ (THREE.x (THREE.position tile)) (THREE.z (THREE.position tile))).
    split.
    + apply in_map_iff. now exists tile.
    + cbn [x z]. rewrite Hx, Hz, !strict_eq_refl. reflexivity.
Qed.

Lemma isValidRotation_tiled (level : Level) (point axis : THREE.Vector3) (angle : R) :
  isValidRotation level point axis angle = true
  <-> Forall (tiled level) (getBlockPos (getRotatedClone (block level) point axis angle)).
Proof.
  unfold isValidRotation. rewrite isValid_fold. cbn [andb].
  rewrite forallb_forall, Forall_forall.
  split; intros H c Hc; apply validTile_tiled, H, Hc.
Qed.

Lemma forallb_false_exists {A : Type} (f : A -> bool) (l : list A) :
  forallb f l = false -> exists a, In a l /\ f a = false.
Proof.
  induction l as [| a l IH]; cbn; [discriminate |].
  destruct (f a) eqn:E; cbn.
  - intros H. destruct (IH H) as (b & Hb & Fb). exists b. auto.
  - intros _. exists a. auto.
Qed.

Lemma isValidRotation_untiled (level : Level) (point axis : THREE.Vector3) (angle : R) :
  isValidRotation level point axis angle = false
  <-> exists c, In c (getBlockPos (getRotatedClone (block level) point axis angle))
                /\ ~ tiled level c.
Proof.
  split.
  - unfold isValidRotation. rewrite isValid_fold. cbn [andb]. intros H.
    apply forallb_false_exists in H. destruct H as (c & Hc & F). exists c. split; [exact Hc |].
    intros T. apply validTile_tiled in T. congruence.
  - intros (c & Hc & N). apply not_true_is_false. intros V.
    apply isValidRotation_tiled in V. rewrite Forall_forall in V. auto.
Qed.

Lemma getBlockPos_one_or_two (block : THREE.Mesh) :
  (exists c, getBlockPos block = [c]) \/ (exists c1 c2, getBlockPos block = [c1; c2]).
Proof.
  unfold getBlockPos.
  destruct (isInt _ && isInt _); [left | right]; repeat eexists.
Qed.

Lemma handleBlockMovement_idle (rotDir : dirEnum) (st : Game) :
  idle st ->
  handleBlockMovement rotDir st
  = if accepted (level st) rotDir
    then animateRotation (rollPoint (level st) rotDir) (rollAxis (level st) rotDir)
           (rollAngle (level st) rotDir) st
    else animateFailedRotation (rollPoint (level st) rotDir) (rollAxis (level st) rotDir)
           (JS.Math_PI / (6 * snd (rotationOf (level st) rotDir))) st.
Proof.
  intros [Ha Hp]. unfold handleBlockMovement, accepted, rollPoint, rollAxis, rollAngle.
  rewrite Ha. apply String.eqb_neq in Hp. rewrite Hp. cbn [orb].
  destruct (rotationOf (level st) rotDir) as [[p a] m]. reflexivity.
Qed.

Lemma animateRotation_neq_failed p a g p' a' g' st :
  animateRotation p a g st <> animateFailedRotation p' a' g' st.
Proof.
  unfold animateRotation, animateFailedRotation, setTimer, set_timers. intros E.
  apply (f_equal timers) in E. cbn in E. apply app_inj_tail in E. destruct E as [_ E].
  discriminate E.
Qed.

(** C1: the engine declares a roll legal exactly when every cell the probe
    block occupies after the quarter turn, one cell or two, is among the
    tile coordinates of the board, and refuses it as soon as one of them is
    missing; on that verdict handleBlockMovement starts the rotation or the
    bounce. *)
Theorem C1_roll_legal_iff_tiled (rotDir : dirEnum) (lvl : Level) :
  let probe := getRotatedClone (block lvl) (rollPoint lvl rotDir)
                 (rollAxis lvl rotDir) (rollAngle lvl rotDir) in
  ((exists c, getBlockPos probe = [c]) \/ (exists c1 c2, getBlockPos probe = [c1; c2]))
  /\ (accepted lvl rotDir = true <-> forall c, In c (getBlockPos probe) -> tiled lvl c)
  /\ (accepted lvl rotDir = false <-> exists c, In c (getBlockPos probe) /\ ~ tiled lvl c)
  /\ (forall st,
        level st = lvl -> idle st ->
        (handleBlockMovement rotDir st
         = animateRotation (rollPoint lvl rotDir) (rollAxis lvl rotDir)
             (rollAngle lvl rotDir) st
         <-> forall c, In c (getBlockPos probe) -> tiled lvl c)
        /\ (handleBlockMovement rotDir st
            = animateFailedRotation (rollPoint lvl rotDir) (rollAxis lvl rotDir)
                (JS.Math_PI / (6 * snd (rotationOf lvl rotDir))) st
            <-> exists c, In c (getBlockPos probe) /\ ~ tiled lvl c)).
Proof.
  intros probe.
  assert (V : accepted lvl rotDir = true <-> forall c, In c (getBlockPos probe) -> tiled lvl c).
  { rewrite <- Forall_forall. apply isValidRotation_tiled. }
  assert (U : accepted lvl rotDir = false
              <-> exists c, In c (getBlockPos probe) /\ ~ tiled lvl c)
    by apply isValidRotation_untiled.
  split; [apply getBlockPos_one_or_two |]. split; [exact V |]. split; [exact U |].
  intros st <- Hidle. rewrite (handleBlockMovement_idle rotDir st Hidle).
  rewrite <- V, <- U.
  destruct (accepted (level st) rotDir) eqn:A.
  - split; split; try tauto; try discriminate.
    intros E. exfalso. exact (animateRotation_neq_failed _ _ _ _ _ _ _ E).
  - split; split; try tauto; try discriminate.
    intros E. exfalso. symmetry in E. exact (animateRotation_neq_failed _ _ _ _ _ _ _ E).
Qed.

(** ** Rotations *)

Lemma Vector3_eq (a b : THREE.Vector3) :
  THREE.x a = THREE.x b -> THREE.y a = THREE.y b -> THREE.z a = THREE.z b -> a = b.
Proof. destruct a, b; cbn; intros; subst; reflexivity. Qed.

Lemma Quaternion_eq (a b : THREE.Quaternion) :
  THREE.qx a = THREE.qx b -> THREE.qy a = THREE.qy b ->
  THREE.qz a = THREE.qz b -> THREE.qw a = THREE.qw b -> a = b.
Proof. destruct a, b; cbn; intros; subst; reflexivity. Qed.

Lemma sandwich_compose (v : THREE.Vector3) (q1 q2 : THREE.Quaternion) :
  sandwich (sandwich v q2) q1 = sandwich v (THREE.multiplyQuaternions q1 q2).
Proof.
  destruct v, q1, q2. unfold sandwich, THREE.multiplyQuaternions. cbn.
  apply Vector3_eq; cbn; ring.
Qed.

Lemma applyQuaternion_sandwich (v : THREE.Vector3) (q : THREE.Quaternion) :
  norm2 q = 1 -> THREE.applyQuaternion v q = sandwich v q.
Proof.
  destruct v as [a b c], q as [qx qy qz qw]. unfold norm2, sandwich, THREE.applyQuaternion.
  cbn. intros N.
  apply Vector3_eq; cbn.
  - replace a with (a * (qx * qx + qy * qy + qz * qz + qw * qw)) at 1 by (rewrite N; ring). ring.
  - replace b with (b * (qx * qx + qy * qy + qz * qz + qw * qw)) at 1 by (rewrite N; ring). ring.
  - replace c with (c * (qx * qx + qy * qy + qz * qz + qw * qw)) at 1 by (rewrite N; ring). ring.
Qed.

Lemma sin2_cos2' (a : R) : sin a * sin a + cos a * cos a = 1.
Proof. pose proof (sin2_cos2 a) as H. unfold Rsqr in H. exact H. Qed.

Lemma norm2_setFromAxisAngle (axis : THREE.Vector3) (angle : R) :
  normalized axis -> norm2 (THREE.setFromAxisAngle axis angle) = 1.
Proof.
  unfold normalized, norm2, THREE.setFromAxisAngle. destruct axis as [a b c]. cbn.
  intros N. pose proof (sin2_cos2' (angle / 2)) as T.
  replace (a * sin (angle / 2) * (a * sin (angle / 2))
           + b * sin (angle / 2) * (b * sin (angle / 2))
           + c * sin (angle / 2) * (c * sin (angle / 2))
           + cos (angle / 2) * cos (angle / 2))
    with ((a * a + b * b + c * c) * (sin (angle / 2) * sin (angle / 2))
          + cos (angle / 2) * cos (angle / 2)) by ring.
  rewrite N. lra.
Qed.

Lemma norm2_multiply (q1 q2 : THREE.Quaternion) :
  norm2 (THREE.multiplyQuaternions q1 q2) = norm2 q1 * norm2 q2.
Proof. destruct q1, q2. unfold norm2, THREE.multiplyQuaternions. cbn. ring. Qed.

(** Turning about one axis by [b] and then by [a] is turning by [a + b]. *)
Lemma setFromAxisAngle_multiply (axis : THREE.Vector3) (a b : R) :
  normalized axis ->
  THREE.multiplyQuaternions (THREE.setFromAxisAngle axis a) (THREE.setFromAxisAngle axis b)
  = THREE.setFromAxisAngle axis (a + b).
Proof.
  unfold normalized, THREE.multiplyQuaternions, THREE.setFromAxisAngle.
  destruct axis as [kx ky kz]. cbn. intros N.
  replace ((a + b) / 2) with (a / 2 + b / 2) by field.
  rewrite sin_plus, cos_plus.
  apply Quaternion_eq; cbn; try ring.
  replace (cos (a / 2) * cos (b / 2) - kx * sin (a / 2) * (kx * sin (b / 2))
           - ky * sin (a / 2) * (ky * sin (b / 2)) - kz * sin (a / 2) * (kz * sin (b / 2)))
    with (cos (a / 2) * cos (b / 2)
          - (kx * kx + ky * ky + kz * kz) * (sin (a / 2) * sin (b / 2))) by ring.
  rewrite N. ring.
Qed.

Lemma multiplyQuaternions_assoc (a b c : THREE.Quaternion) :
  THREE.multiplyQuaternions a (THREE.multiplyQuaternions b c)
  = THREE.multiplyQuaternions (THREE.multiplyQuaternions a b) c.
Proof.
  destruct a, b, c. unfold THREE.multiplyQuaternions. cbn.
  apply Quaternion_eq; cbn; ring.
Qed.

Lemma applyQuaternion_compose (v : THREE.Vector3) (axis : THREE.Vector3) (a b : R) :
  normalized axis ->
  THREE.applyQuaternion (THREE.applyQuaternion v (THREE.setFromAxisAngle axis b))
                        (THREE.setFromAxisAngle axis a)
  = THREE.applyQuaternion v (THREE.setFromAxisAngle axis (a + b)).
Proof.
  intros N.
  rewrite !applyQuaternion_sandwich by now apply norm2_setFromAxisAngle.
  rewrite sandwich_compose. now rewrite setFromAxisAngle_multiply.
Qed.

Lemma sub_add_cancel (v p : THREE.Vector3) : THREE.sub (THREE.add v p) p = v.
Proof. destruct v, p. unfold THREE.sub, THREE.add. cbn. apply Vector3_eq; cbn; ring. Qed.

Lemma add_sub_cancel (v p : THREE.Vector3) : THREE.add (THREE.sub v p) p = v.
Proof. destruct v, p. unfold THREE.sub, THREE.add. cbn. apply Vector3_eq; cbn; ring. Qed.

(** Two turns about the same axis through the same point add up. *)
Lemma rotateAroundWorldAxis_compose (o : THREE.Mesh) (point axis : THREE.Vector3) (a b : R) :
  normalized axis ->
  rotateAroundWorldAxis (rotateAroundWorldAxis o point axis b) point axis a
  = rotateAroundWorldAxis o point axis (a + b).
Proof.
  intros N. destruct o as [pos q vis].
  unfold rotateAroundWorldAxis, THREE.Object3D_applyQuaternion, THREE.set_position,
    THREE.premultiply.
  cbn [THREE.position THREE.quaternion THREE.visible].
  rewrite sub_add_cancel, (applyQuaternion_compose _ _ _ _ N).
  rewrite multiplyQuaternions_assoc, (setFromAxisAngle_multiply _ _ _ N).
  reflexivity.
Qed.

Lemma rotateAroundWorldAxis_zero (o : THREE.Mesh) (point axis : THREE.Vector3) :
  rotateAroundWorldAxis o point axis 0 = o.
Proof.
  destruct o as [pos q vis].
  unfold rotateAroundWorldAxis, THREE.Object3D_applyQuaternion, THREE.set_position,
    THREE.premultiply, THREE.setFromAxisAngle.
  cbn [THREE.position THREE.quaternion THREE.visible].
  replace (0 / 2) with 0 by field. rewrite sin_0, cos_0.
  f_equal.
  - destruct pos, point. unfold THREE.add, THREE.sub, THREE.applyQuaternion. cbn.
    apply Vector3_eq; cbn; ring.
  - destruct q. unfold THREE.multiplyQuaternions. cbn. apply Quaternion_eq; cbn; ring.
Qed.

(** [n] turns by [a] are one turn by [n * a]. *)
Lemma rotateAroundWorldAxis_iter (n : nat) (o : THREE.Mesh) (point axis : THREE.Vector3) (a : R) :
  normalized axis ->
  Nat.iter n (fun o => rotateAroundWorldAxis o point axis a) o
  = rotateAroundWorldAxis o point axis (INR n * a).
Proof.
  intros N. induction n as [| n IH].
  - cbn [Nat.iter INR]. rewrite Rmult_0_l. symmetry. apply rotateAroundWorldAxis_zero.
  - rewrite Nat.iter_succ, IH, (rotateAroundWorldAxis_compose _ _ _ _ _ N).
    f_equal. rewrite S_INR. ring.
Qed.

(** A full turn: the position comes back and the quaternion changes sign. *)
Lemma rotateAroundWorldAxis_full_turn (o : THREE.Mesh) (point axis : THREE.Vector3) (s : R) :
  s = 1 \/ s = -1 ->
  THREE.position (rotateAroundWorldAxis o point axis (s * (2 * PI))) = THREE.position o
  /\ THREE.quaternion (rotateAroundWorldAxis o point axis (s * (2 * PI)))
     = Quaternion_opp (THREE.quaternion o)
  /\ THREE.visible (rotateAroundWorldAxis o point axis (s * (2 * PI))) = THREE.visible o.
Proof.
  intros Hs. destruct o as [pos q vis].
  unfold rotateAroundWorldAxis, THREE.Object3D_applyQuaternion, THREE.set_position,
    THREE.premultiply, THREE.setFromAxisAngle.
  cbn [THREE.position THREE.quaternion THREE.visible].
  assert (S : sin (s * (2 * PI) / 2) = 0 /\ cos (s * (2 * PI) / 2) = -1).
  { destruct Hs as [-> | ->].
    - replace (1 * (2 * PI) / 2) with PI by field. now rewrite sin_PI, cos_PI.
    - replace (-1 * (2 * PI) / 2) with (- PI) by field.
      rewrite sin_neg, cos_neg, sin_PI, cos_PI. split; ring. }
  destruct S as [-> ->].
  repeat split.
  - destruct pos, point. unfold THREE.add, THREE.sub, THREE.applyQuaternion. cbn.
    apply Vector3_eq; cbn; ring.
  - destruct q. unfold THREE.multiplyQuaternions, Quaternion_opp. cbn.
    apply Quaternion_eq; cbn; ring.
Qed.

Lemma sameOrientation_opp (q : THREE.Quaternion) : sameOrientation (Quaternion_opp q) q.
Proof.
  intros v. destruct v, q. unfold THREE.applyQuaternion, Quaternion_opp. cbn.
  apply Vector3_eq; cbn; ring.
Qed.

(** C9: four quarter turns of a body about the same point and the same
    normalized axis, all by +90 degrees or all by -90 degrees, bring its
    position back exactly and leave it in its original orientation: the
    quaternion comes back with the opposite sign, which is the same
    orientation. *)
Theorem C9_four_quarter_turns (o : THREE.Mesh) (point axis : THREE.Vector3) (angle : R) :
  normalized axis ->
  angle = ninetyDegRad \/ angle = - ninetyDegRad ->
  let turn := fun o => rotateAroundWorldAxis o point axis angle in
  THREE.position (turn (turn (turn (turn o)))) = THREE.position o
  /\ sameOrientation (THREE.quaternion (turn (turn (turn (turn o))))) (THREE.quaternion o)
  /\ THREE.quaternion (turn (turn (turn (turn o)))) = Quaternion_opp (THREE.quaternion o)
  /\ THREE.visible (turn (turn (turn (turn o)))) = THREE.visible o.
Proof.
  intros N Ha turn.
  assert (E : turn (turn (turn (turn o)))
              = rotateAroundWorldAxis o point axis (INR 4 * angle))
    by exact (rotateAroundWorldAxis_iter 4 o point axis angle N).
  rewrite E.
  assert (exists s, (s = 1 \/ s = -1) /\ INR 4 * angle = s * (2 * PI)) as (s & Hs & ->).
  { unfold ninetyDegRad, JS.Math_PI in Ha. cbn [INR].
    destruct Ha as [-> | ->]; [exists 1 | exists (-1)]; split; auto; field. }
  destruct (rotateAroundWorldAxis_full_turn o point axis s Hs) as (P & Q & V).
  rewrite P, Q, V. repeat split. apply sameOrientation_opp.
Qed.

Lemma normalized_zAxis : normalized zAxis.
Proof. unfold normalized, zAxis. cbn. ring. Qed.

Lemma normalized_xAxis : normalized xAxis.
Proof. unfold normalized, xAxis. cbn. ring. Qed.

(** A block standing on (0,0), turned four times as for a roll in +X. *)
Lemma C9_four_quarter_turns_witness :
  THREE.position
    (rotateAroundWorldAxis
       (rotateAroundWorldAxis
          (rotateAroundWorldAxis
             (rotateAroundWorldAxis (blockAt (THREE.mkVector3 0 1 0))
                (THREE.mkVector3 (1 / 2) 0 0) zAxis (- ninetyDegRad))
             (THREE.mkVector3 (1 / 2) 0 0) zAxis (- ninetyDegRad))
          (THREE.mkVector3 (1 / 2) 0 0) zAxis (- ninetyDegRad))
       (THREE.mkVector3 (1 / 2) 0 0) zAxis (- ninetyDegRad))
  = THREE.mkVector3 0 1 0.
Proof.
  exact (proj1 (C9_four_quarter_turns (blockAt (THREE.mkVector3 0 1 0))
                  (THREE.mkVector3 (1 / 2) 0 0) zAxis (- ninetyDegRad)
                  normalized_zAxis (or_intror eq_refl))).
Defined.

(** ** Quarter turns about the world axes *)

Lemma sin_double_half (a : R) : sin a = 2 * sin (a / 2) * cos (a / 2).
Proof. rewrite <- sin_2a. f_equal. field. Qed.

Lemma cos_double_half (a : R) : cos a = 1 - 2 * sin (a / 2) * sin (a / 2).
Proof. rewrite <- cos_2a_sin. f_equal. field. Qed.

Lemma applyQuaternion_zAxis (v : THREE.Vector3) (a : R) :
  THREE.applyQuaternion v (THREE.setFromAxisAngle zAxis a)
  = THREE.mkVector3 (THREE.x v * cos a - THREE.y v * sin a)
                    (THREE.x v * sin a + THREE.y v * cos a)
                    (THREE.z v).
Proof.
  rewrite (sin_double_half a), (cos_double_half a).
  destruct v. unfold THREE.applyQuaternion, THREE.setFromAxisAngle, zAxis. cbn.
  apply Vector3_eq; cbn; ring.
Qed.

Lemma applyQuaternion_xAxis (v : THREE.Vector3) (a : R) :
  THREE.applyQuaternion v (THREE.setFromAxisAngle xAxis a)
  = THREE.mkVector3 (THREE.x v)
                    (THREE.y v * cos a - THREE.z v * sin a)
                    (THREE.y v * sin a + THREE.z v * cos a).
Proof.
  rewrite (sin_double_half a), (cos_double_half a).
  destruct v. unfold THREE.applyQuaternion, THREE.setFromAxisAngle, xAxis. cbn.
  apply Vector3_eq; cbn; ring.
Qed.

Lemma quarter_turn_plus : sin (ninetyDegRad * 1) = 1 /\ cos (ninetyDegRad * 1) = 0.
Proof.
  unfold ninetyDegRad, JS.Math_PI. rewrite Rmult_1_r. split; [apply sin_PI2 | apply cos_PI2].
Qed.

Lemma quarter_turn_minus : sin (ninetyDegRad * -1) = -1 /\ cos (ninetyDegRad * -1) = 0.
Proof.
  unfold ninetyDegRad, JS.Math_PI.
  replace (PI / 2 * -1) with (- (PI / 2)) by ring.
  rewrite sin_neg, cos_neg, sin_PI2, cos_PI2. split; reflexivity.
Qed.

Lemma position_rotateAroundWorldAxis (o : THREE.Mesh) (point axis : THREE.Vector3) (a : R) :
  THREE.position (rotateAroundWorldAxis o point axis a)
  = THREE.add (THREE.applyQuaternion (THREE.sub (THREE.position o) point)
                                     (THREE.setFromAxisAngle axis a))
              point.
Proof. reflexivity. Qed.

(** Where a roll in each direction takes the centre of the block. *)
Lemma roll_position (level : Level) (rotDir : dirEnum) :
  let pos := THREE.position (block level) in
  THREE.position (block (roll level rotDir))
  = match rotDir with
    | posX =>
      let p := twoPtRound (THREE.x pos) + offsetRotPointX level in
      THREE.mkVector3 (p + THREE.y pos) (p - THREE.x pos) (THREE.z pos)
    | negX =>
      let p := twoPtRound (THREE.x pos) - offsetRotPointX level in
      THREE.mkVector3 (p - THREE.y pos) (THREE.x pos - p) (THREE.z pos)
    | posZ =>
      let p := twoPtRound (THREE.z pos) + offsetRotPointZ level in
      THREE.mkVector3 (THREE.x pos) (p - THREE.z pos) (p + THREE.y pos)
    | negZ =>
      let p := twoPtRound (THREE.z pos) - offsetRotPointZ level in
      THREE.mkVector3 (THREE.x pos) (THREE.z pos - p) (p - THREE.y pos)
    end.
Proof.
  cbv zeta. unfold roll, rollPoint, rollAxis, rollAngle. cbn [block set_block].
  rewrite position_rotateAroundWorldAxis.
  destruct (THREE.position (block level)) as [a b c] eqn:E.
  destruct quarter_turn_plus as [Sp Cp]. destruct quarter_turn_minus as [Sm Cm].
  destruct rotDir; unfold rotationOf; rewrite E; cbn [fst snd THREE.x THREE.y THREE.z];
    rewrite ?applyQuaternion_zAxis, ?applyQuaternion_xAxis, ?Sp, ?Cp, ?Sm, ?Cm;
    unfold THREE.add, THREE.sub, THREE.Vector3_new; cbn [THREE.x THREE.y THREE.z];
    apply Vector3_eq; cbn [THREE.x THREE.y THREE.z]; ring.
Qed.

Lemma Pose_standing (a b c : R) (i j : Z) :
  a = IZR i -> b = 1 -> c = IZR j -> Pose (THREE.mkVector3 a b c).
Proof. intros -> -> ->. constructor. Qed.

Lemma Pose_lyingAlongX (a b c : R) (i j : Z) :
  a = IZR i + 1 / 2 -> b = 1 / 2 -> c = IZR j -> Pose (THREE.mkVector3 a b c).
Proof. intros -> -> ->. constructor. Qed.

Lemma Pose_lyingAlongZ (a b c : R) (i j : Z) :
  a = IZR i -> b = 1 / 2 -> c = IZR j + 1 / 2 -> Pose (THREE.mkVector3 a b c).
Proof. intros -> -> ->. constructor. Qed.

(** A roll takes a resting pose to a resting pose, whatever the board. *)
Lemma roll_Pose (level : Level) (rotDir : dirEnum) :
  Pose (THREE.position (block level)) ->
  Pose (THREE.position (block (roll level rotDir))).
Proof.
  intros P. rewrite roll_position. cbv zeta.
  destruct (offsets_of_pose level P)
    as [(i & j & E & Ox & Oz) | [(i & j & E & Ox & Oz) | (i & j & E & Ox & Oz)]];
    rewrite E, Ox, Oz; cbn [THREE.x THREE.y THREE.z];
    rewrite ?twoPtRound_IZR, ?twoPtRound_half.
  - (* standing *)
    destruct rotDir.
    + apply (Pose_lyingAlongX _ _ _ (i + 1) j); rewrite ?plus_IZR; lra.
    + apply (Pose_lyingAlongX _ _ _ (i - 2) j); rewrite ?minus_IZR; lra.
    + apply (Pose_lyingAlongZ _ _ _ i (j + 1)); rewrite ?plus_IZR; lra.
    + apply (Pose_lyingAlongZ _ _ _ i (j - 2)); rewrite ?minus_IZR; lra.
  - (* lying along x *)
    destruct rotDir.
    + apply (Pose_standing _ _ _ (i + 2) j); rewrite ?plus_IZR; lra.
    + apply (Pose_standing _ _ _ (i - 1) j); rewrite ?minus_IZR; lra.
    + apply (Pose_lyingAlongX _ _ _ i (j + 1)); rewrite ?plus_IZR; lra.
    + apply (Pose_lyingAlongX _ _ _ i (j - 1)); rewrite ?minus_IZR; lra.
  - (* lying along z *)
    destruct rotDir.
    + apply (Pose_lyingAlongZ _ _ _ (i + 1) j); rewrite ?plus_IZR; lra.
    + apply (Pose_lyingAlongZ _ _ _ (i - 1) j); rewrite ?minus_IZR; lra.
    + apply (Pose_standing _ _ _ i (j + 2)); rewrite ?plus_IZR; lra.
    + apply (Pose_standing _ _ _ i (j - 1)); rewrite ?minus_IZR; lra.
Qed.

Lemma whole_IZR (k : Z) : whole (IZR k).
Proof. now exists k. Qed.

Lemma whole_succ (k : Z) : whole (IZR k + 1).
Proof. exists (k + 1)%Z. now rewrite plus_IZR. Qed.

(** A block in a resting pose classifies to one cell or two adjacent cells. *)
Lemma Pose_classificationConsistent (b : THREE.Mesh) :
  Pose (THREE.position b) -> classificationConsistent (getBlockPos b).
Proof.
  intros P. inversion P as [i j E | i j E | i j E].
  - left. exists (mkVector2XZ (IZR i) (IZR j)). split.
    + rewrite getBlockPos_whole; rewrite <- E; cbn [THREE.x THREE.z];
        rewrite ?halfRound_IZR; try reflexivity; apply whole_IZR.
    + split; apply whole_IZR.
  - right. exists (mkVector2XZ (IZR i) (IZR j)), (mkVector2XZ (IZR i + 1) (IZR j)).
    split.
    + apply getBlockPos_halfX; rewrite <- E; cbn [THREE.x THREE.z];
        [apply halfRound_half | apply halfRound_IZR].
    + split; [split; apply whole_IZR |].
      split; [split; [apply whole_succ | apply whole_IZR] |].
      left. split; reflexivity.
  - right. exists (mkVector2XZ (IZR i) (IZR j)), (mkVector2XZ (IZR i) (IZR j + 1)).
    split.
    + apply getBlockPos_halfZ; rewrite <- E; cbn [THREE.x THREE.z];
        [apply halfRound_IZR | apply halfRound_half].
    + split; [split; apply whole_IZR |].
      split; [split; [apply whole_IZR | apply whole_succ] |].
      right. split; reflexivity.
Qed.

Lemma Level_new_inv (n : Z) (level0 : Level) :
  Level_new n = Some level0 ->
  exists layout position,
    array_get _LAYOUTS n = Some layout
    /\ array_get _BLOCK_POSITIONS n = Some position
    /\ level0 = mkLevel _LEVELS n (fst (boardFromLayout layout)) (createBlock position)
                        (snd (boardFromLayout layout)).
Proof.
  unfold Level_new. destruct (array_get _LAYOUTS n) as [layout |]; [| discriminate].
  destruct (boardFromLayout layout) as [bd wt] eqn:B.
  destruct (array_get _BLOCK_POSITIONS n) as [position |]; [| discriminate].
  intros [= <-]. exists layout, position. rewrite B. auto.
Qed.

Lemma Level_new_Pose (n : Z) (level0 : Level) :
  Level_new n = Some level0 -> Pose (THREE.position (block level0)).
Proof.
  intros H. apply Level_new_inv in H. destruct H as (layout & [px pz] & _ & _ & ->).
  cbn. constructor.
Qed.

Lemma reachable_Pose (level0 level : Level) :
  Pose (THREE.position (block level0)) -> reachable level0 level ->
  Pose (THREE.position (block level)).
Proof.
  intros P0 R. induction R as [| level rotDir R IH A]; [exact P0 |].
  now apply roll_Pose.
Qed.

(** ** Loading a level *)

Lemma array_get_Some {A : Type} (a : list A) (n : Z) :
  (0 <= n < Z.of_nat (List.length a))%Z -> exists v, array_get a n = Some v.
Proof.
  intros H. unfold array_get.
  destruct (Z.ltb_spec n 0); [lia |].
  destruct (nth_error a (Z.to_nat n)) as [v |] eqn:E; [now exists v |].
  apply nth_error_None in E. lia.
Qed.

Lemma array_get_None {A : Type} (a : list A) (n : Z) :
  (n < 0 \/ Z.of_nat (List.length a) <= n)%Z -> array_get a n = None.
Proof.
  intros H. unfold array_get.
  destruct (Z.ltb_spec n 0); [reflexivity |].
  apply nth_error_None. lia.
Qed.

(** Every index from 0 to [_LEVELS] loads, and no other index does. *)
Lemma Level_new_Some (n : Z) :
  (0 <= n <= _LEVELS)%Z ->
  exists layout position,
    array_get _LAYOUTS n = Some layout
    /\ array_get _BLOCK_POSITIONS n = Some position
    /\ Level_new n
       = Some (mkLevel _LEVELS n (fst (boardFromLayout layout)) (createBlock position)
                       (snd (boardFromLayout layout))).
Proof.
  intros H. unfold _LEVELS in H.
  destruct (array_get_Some _LAYOUTS n) as [layout EL]; [cbn; lia |].
  destruct (array_get_Some _BLOCK_POSITIONS n) as [position EP]; [cbn; lia |].
  exists layout, position. split; [exact EL |]. split; [exact EP |].
  unfold Level_new. rewrite EL, EP.
  destruct (boardFromLayout layout). reflexivity.
Qed.

Lemma Level_new_None (n : Z) : (n < 0 \/ _LEVELS < n)%Z -> Level_new n = None.
Proof.
  intros H. unfold Level_new, _LEVELS in *.
  rewrite array_get_None; [reflexivity | cbn; lia].
Qed.

Lemma boardFromRow_keeps_winTile (row : list string) (i j : nat)
    (acc : list THREE.Mesh * option THREE.Mesh) :
  snd acc <> None -> snd (boardFromRow row i j acc) <> None.
Proof.
  revert j acc. induction row as [| c row IH]; intros j acc H; cbn [boardFromRow]; [exact H |].
  apply IH.
  destruct (negb (c =? " ")%string); [| exact H].
  destruct (c =? "■")%string; [exact H |].
  destruct (c =? "□")%string; [cbn; discriminate | exact H].
Qed.

Lemma boardFromRow_finds_winTile (row : list string) (i j : nat)
    (acc : list THREE.Mesh * option THREE.Mesh) :
  existsb (String.eqb "□") row = true -> snd (boardFromRow row i j acc) <> None.
Proof.
  revert j acc. induction row as [| c row IH]; intros j acc H;
    cbn [existsb boardFromRow] in *; [discriminate |].
  apply orb_true_iff in H. destruct H as [H | H].
  - apply String.eqb_eq in H. subst c. apply boardFromRow_keeps_winTile.
    cbn. discriminate.
  - now apply IH.
Qed.

Lemma boardFromRows_keeps_winTile (layout : list (list string)) (i : nat)
    (acc : list THREE.Mesh * option THREE.Mesh) :
  snd acc <> None -> snd (boardFromRows layout i acc) <> None.
Proof.
  revert i acc. induction layout as [| row layout IH]; intros i acc H;
    cbn [boardFromRows]; [exact H |].
  apply IH. now apply boardFromRow_keeps_winTile.
Qed.

Lemma boardFromLayout_winTile (layout : list (list string)) :
  hasHole layout = true -> snd (boardFromLayout layout) <> None.
Proof.
  unfold boardFromLayout, hasHole. generalize 0%nat.
  generalize (@nil THREE.Mesh, @None THREE.Mesh).
  induction layout as [| row layout IH]; intros acc i H;
    cbn [existsb boardFromRows] in *; [discriminate |].
  apply orb_true_iff in H. destruct H as [H | H].
  - apply boardFromRows_keeps_winTile. now apply boardFromRow_finds_winTile.
  - now apply IH.
Qed.

Lemma boardFromRow_winTile_In (row : list string) (i j : nat)
    (acc : list THREE.Mesh * option THREE.Mesh) :
  (forall w, snd acc = Some w -> In w (fst acc)) ->
  forall w, snd (boardFromRow row i j acc) = Some w -> In w (fst (boardFromRow row i j acc)).
Proof.
  revert j acc. induction row as [| c row IH]; intros j acc H; cbn [boardFromRow]; [exact H |].
  apply IH.
  destruct (negb (c =? " ")%string); [| exact H].
  destruct (c =? "■")%string.
  - cbn [fst snd]. intros w W. apply in_or_app. left. now apply H.
  - destruct (c =? "□")%string; [| exact H].
    cbn [fst snd]. intros w [= <-]. apply in_or_app. right. now left.
Qed.

Lemma boardFromLayout_winTile_In (layout : list (list string)) (w : THREE.Mesh) :
  snd (boardFromLayout layout) = Some w -> In w (fst (boardFromLayout layout)).
Proof.
  unfold boardFromLayout. generalize 0%nat.
  assert (H : forall w, snd (@nil THREE.Mesh, @None THREE.Mesh) = Some w
                        -> In w (fst (@nil THREE.Mesh, @None THREE.Mesh)))
    by (intros w' [=]).
  revert H. generalize (@nil THREE.Mesh, @None THREE.Mesh). revert w.
  induction layout as [| row layout IH]; intros w acc H i; cbn [boardFromRows].
  - apply H.
  - apply IH. now apply boardFromRow_winTile_In.
Qed.

Lemma layouts_have_hole : forallb hasHole _LAYOUTS = true.
Proof. vm_compute. reflexivity. Qed.

(** Every level that loads has a winning tile, one of the tiles of its
    board. *)
Lemma Level_new_winTile (n : Z) (level0 : Level) :
  Level_new n = Some level0 -> exists w, winTile level0 = Some w /\ In w (board level0).
Proof.
  intros H. apply Level_new_inv in H. destruct H as (layout & position & EL & _ & ->).
  cbn [winTile board].
  assert (Hh : hasHole layout = true).
  { pose proof layouts_have_hole as F. rewrite forallb_forall in F. apply F.
    unfold array_get in EL. destruct (n <? 0)%Z; [discriminate |].
    now apply nth_error_In in EL. }
  apply boardFromLayout_winTile in Hh.
  destruct (snd (boardFromLayout layout)) as [w |] eqn:W; [| contradiction].
  exists w. split; [reflexivity | now apply boardFromLayout_winTile_In].
Qed.

Lemma reachable_same_board (level0 level : Level) :
  reachable level0 level ->
  totalLevels level = totalLevels level0 /\ levelNum level = levelNum level0
  /\ board level = board level0 /\ winTile level = winTile level0.
Proof.
  induction 1 as [| level rotDir R IH A]; [auto |]. exact IH.
Qed.

(** ** Win detection *)

Lemma checkForWin_cells (level : Level) (w : THREE.Mesh) :
  winTile level = Some w ->
  (_checkForWin level = Some true
   <-> exists c, getBlockPos (block level) = [c]
                 /\ x c = THREE.x (THREE.position w)
                 /\ z c = THREE.z (THREE.position w))
  /\ (forall c1 c2, getBlockPos (block level) = [c1; c2] -> _checkForWin level = Some false)
  /\ (_checkForWin level = Some true \/ _checkForWin level = Some false).
Proof.
  intros W. unfold _checkForWin, blockPos. rewrite W.
  destruct (getBlockPos_one_or_two (block level)) as [[c E] | (c1 & c2 & E)]; rewrite E.
  - split; [| split].
    + split.
      * intros [= H]. apply andb_true_iff in H. destruct H as [Hx Hz].
        apply strict_eq_true in Hx. apply strict_eq_true in Hz. now exists c.
      * intros (c' & [= <-] & Hx & Hz). rewrite Hx, Hz, !strict_eq_refl. reflexivity.
    + intros c1 c2 [=].
    + destruct ((x c === _) && (z c === _)); auto.
  - split; [| split].
    + split; [discriminate |]. intros (c & [=] & _).
    + reflexivity.
    + auto.
Qed.

(** C5: the win check is true exactly when the classification of the block
    is a single cell and that cell is the cell of the winning tile; whenever
    the block occupies two cells the check is false, also when one of the
    two is the winning cell.  The check needs the level to have a winning
    tile, which every level has that is reached from a loaded one. *)
Theorem C5_checkForWin :
  (forall lvl w,
      winTile lvl = Some w ->
      (_checkForWin lvl = Some true
       <-> exists c, getBlockPos (block lvl) = [c]
                     /\ x c = THREE.x (THREE.position w)
                     /\ z c = THREE.z (THREE.position w))
      /\ (forall c1 c2, getBlockPos (block lvl) = [c1; c2] -> _checkForWin lvl = Some false)
      /\ (_checkForWin lvl = Some true \/ _checkForWin lvl = Some false))
  /\ (forall n level0 lvl,
        Level_new n = Some level0 -> reachable level0 lvl ->
        exists w, winTile lvl = Some w /\ In w (board lvl)).
Proof.
  split; [exact checkForWin_cells |].
  intros n level0 lvl L R.
  destruct (reachable_same_board level0 lvl R) as (_ & _ & B & W). rewrite B, W.
  now apply (Level_new_winTile n).
Qed.

(** ** The direction table *)

Lemma twoPtRound_drift : twoPtRound (1 / 1000) = 0.
Proof.
  unfold twoPtRound. rewrite (Math_round_eq 0) by lra. lra.
Qed.

(** C4, as stated: the pivot of a +X roll is at x = center.x + offsetX.  It
    is not for a block whose centre is off the 0.01 grid: the engine rounds
    the centre to two decimals first. *)
Lemma C4_pivot_not_center_plus_offset :
  THREE.x (rollPoint driftedLevel posX)
  <> THREE.x (THREE.position (block driftedLevel)) + offsetRotPointX driftedLevel.
Proof.
  unfold rollPoint, rotationOf, offsetRotPointX, driftedLevel, blockAt.
  cbn [fst snd block THREE.set_position THREE.position THREE.x THREE.y THREE.z].
  rewrite twoPtRound_drift, twoPtRound_1, one_not_half. cbn [andb]. lra.
Qed.

(** C4, amended: the pivot coordinate is the centre coordinate rounded to
    two decimals, plus or minus the offset, which is the centre coordinate
    itself plus or minus the offset when that coordinate is a multiple of
    0.01; the axis and the signed quarter turn are those of the direction
    table; and these are the parameters of the rotation the engine starts
    when it accepts the roll. *)
Theorem C4_direction_table (lvl : Level) :
  let pos := THREE.position (block lvl) in
  rotationOf lvl posX
  = (THREE.mkVector3 (twoPtRound (THREE.x pos) + offsetRotPointX lvl) 0 0, zAxis, -1)
  /\ rotationOf lvl negX
     = (THREE.mkVector3 (twoPtRound (THREE.x pos) - offsetRotPointX lvl) 0 0, zAxis, 1)
  /\ rotationOf lvl posZ
     = (THREE.mkVector3 0 0 (twoPtRound (THREE.z pos) + offsetRotPointZ lvl), xAxis, 1)
  /\ rotationOf lvl negZ
     = (THREE.mkVector3 0 0 (twoPtRound (THREE.z pos) - offsetRotPointZ lvl), xAxis, -1)
  /\ rollAngle lvl posX = - ninetyDegRad /\ rollAngle lvl negX = ninetyDegRad
  /\ rollAngle lvl posZ = ninetyDegRad /\ rollAngle lvl negZ = - ninetyDegRad
  /\ ninetyDegRad = PI / 2
  /\ (forall n : Z, THREE.x pos = IZR n / 100 -> twoPtRound (THREE.x pos) = THREE.x pos)
  /\ (forall n : Z, THREE.z pos = IZR n / 100 -> twoPtRound (THREE.z pos) = THREE.z pos)
  /\ (forall rotDir st,
        lvl = level st -> idle st -> accepted lvl rotDir = true ->
        handleBlockMovement rotDir st
        = animateRotation (fst (fst (rotationOf lvl rotDir)))
            (snd (fst (rotationOf lvl rotDir)))
            (ninetyDegRad * snd (rotationOf lvl rotDir)) st).
Proof.
  cbv zeta. unfold rollAngle, rotationOf.
  cbn [fst snd THREE.Vector3_new THREE.x THREE.y THREE.z].
  repeat (split; [reflexivity || ring |]).
  split; [intros n ->; apply twoPtRound_centi |].
  split; [intros n ->; apply twoPtRound_centi |].
  intros rotDir st -> Hidle A.
  rewrite (handleBlockMovement_idle rotDir st Hidle), A. reflexivity.
Qed.

(** ** The busy flag *)

Lemma handleBlockMovement_busy (rotDir : dirEnum) (st : Game) :
  animationPlaying st = true \/ pauseWindowBox st = "visible"%string ->
  handleBlockMovement rotDir st = st.
Proof.
  intros [H | H]; unfold handleBlockMovement; rewrite H; [reflexivity |].
  cbn. now rewrite orb_true_r.
Qed.

Lemma handleBlockMovement_sets_flag (rotDir : dirEnum) (st : Game) :
  idle st -> animationPlaying (handleBlockMovement rotDir st) = true.
Proof.
  intros Hidle. rewrite (handleBlockMovement_idle rotDir st Hidle).
  destruct (accepted (level st) rotDir); reflexivity.
Qed.

Lemma fadeOutInLevel_out_of_range (offset : Z) (st : Game) :
  (levelNum (level st) + offset < 0 \/ levelNum (level st) + offset > totalLevels (level st))%Z ->
  fadeOutInLevel offset st = st.
Proof.
  intros H. unfold fadeOutInLevel.
  destruct (Z.ltb_spec (levelNum (level st) + offset) 0); [reflexivity |].
  destruct (Z.gtb_spec (levelNum (level st) + offset) (totalLevels (level st)));
    [reflexivity | lia].
Qed.

Lemma fadeOutInLevel_in_range (offset : Z) (st : Game) :
  (0 <= levelNum (level st) + offset <= totalLevels (level st))%Z ->
  fadeOutInLevel offset st
  = setTimer (set_animationPlaying st true) (fadeOutAnimation offset 20).
Proof.
  intros H. unfold fadeOutInLevel.
  destruct (Z.ltb_spec (levelNum (level st) + offset) 0); [lia |].
  destruct (Z.gtb_spec (levelNum (level st) + offset) (totalLevels (level st)));
    [lia | reflexivity].
Qed.

(** ** Running the intervals of an animation *)

Lemma set_block_block (l : Level) : set_block l (block l) = l.
Proof. destruct l. reflexivity. Qed.

Lemma set_block_set_block (l : Level) (b b' : THREE.Mesh) :
  set_block (set_block l b) b' = set_block l b'.
Proof. reflexivity. Qed.

Lemma animateRotation_rotating (st0 : Game) (rotPoint axis : THREE.Vector3) (angle : R) :
  timers st0 = [] ->
  rotating (level st0) rotPoint axis angle 0 [] (animateRotation rotPoint axis angle st0).
Proof.
  intros T. unfold rotating, animateRotation, setTimer. cbn. rewrite T.
  repeat split.
  - eexists. reflexivity.
  - symmetry. apply set_block_block.
Qed.

Lemma rotating_step (level0 : Level) (rotPoint axis : THREE.Vector3) (angle : R)
    (n : nat) (rest : list Timer) (st : Game) :
  rotating level0 rotPoint axis angle n rest st -> (S n < 18)%nat ->
  rotating level0 rotPoint axis angle (S n) rest (fire 0 st)
  /\ pauseWindowBox (fire 0 st) = pauseWindowBox st.
Proof.
  intros ([fb T] & A & L) Hn. unfold fire. rewrite T. cbn [nth_error].
  unfold rotationAnimation_callback.
  destruct (Z.eqb_spec (Z.of_nat n + 1) 18) as [E | _]; [lia |].
  unfold rotating. cbn. rewrite T, A, L. cbn.
  repeat split. eexists. do 2 f_equal. lia.
Qed.

Lemma rotating_iter (st0 : Game) (rotPoint axis : THREE.Vector3) (angle : R) (n : nat) :
  timers st0 = [] -> (n < 18)%nat ->
  rotating (level st0) rotPoint axis angle n []
    (Nat.iter n (fire 0) (animateRotation rotPoint axis angle st0))
  /\ pauseWindowBox (Nat.iter n (fire 0) (animateRotation rotPoint axis angle st0))
     = pauseWindowBox st0.
Proof.
  intros T. induction n as [| n IH]; intros Hn.
  - split; [now apply animateRotation_rotating | reflexivity].
  - rewrite Nat.iter_succ. destruct IH as [IH P]; [lia |].
    destruct (rotating_step _ _ _ _ _ _ _ IH Hn) as [R P']. split; [exact R | congruence].
Qed.

(** The pause key and a level request leave a running rotation alone; the
    request queues its fade out behind it. *)
Lemma rotating_togglePause (level0 : Level) (rotPoint axis : THREE.Vector3) (angle : R)
    (n : nat) (rest : list Timer) (st : Game) :
  rotating level0 rotPoint axis angle n rest st ->
  rotating level0 rotPoint axis angle n rest (togglePause st).
Proof. intros H. exact H. Qed.

Lemma rotating_fadeOutInLevel (level0 : Level) (rotPoint axis : THREE.Vector3) (angle : R)
    (n : nat) (rest : list Timer) (offset : Z) (st : Game) :
  rotating level0 rotPoint axis angle n rest st ->
  (0 <= levelNum level0 + offset <= totalLevels level0)%Z ->
  rotating level0 rotPoint axis angle n (rest ++ [fadeOutAnimation offset 20])
    (fadeOutInLevel offset st)
  /\ pauseWindowBox (fadeOutInLevel offset st) = pauseWindowBox st.
Proof.
  intros ([fb T] & A & L) H.
  rewrite fadeOutInLevel_in_range by (rewrite L; exact H).
  unfold rotating, setTimer. cbn. rewrite T, L. cbn.
  repeat split. now exists fb.
Qed.

(** An interval of a fade out queued right behind the rotation. *)
Lemma rotating_fade_tick (level0 : Level) (rotPoint axis : THREE.Vector3) (angle : R)
    (n : nat) (rest : list Timer) (offset k : Z) (st : Game) :
  rotating level0 rotPoint axis angle n (fadeOutAnimation offset k :: rest) st ->
  k <> 0%Z ->
  rotating level0 rotPoint axis angle n (fadeOutAnimation offset (k - 1) :: rest) (fire 1 st)
  /\ pauseWindowBox (fire 1 st) = pauseWindowBox st.
Proof.
  intros ([fb T] & A & L) Hk. unfold fire. rewrite T. cbn [nth_error].
  unfold fadeOutAnimation_callback.
  destruct (Z.eqb_spec k 0) as [E | _]; [contradiction |].
  unfold rotating. cbn. rewrite T, A, L. cbn.
  repeat split. now exists fb.
Qed.

(** The eighteenth interval ends the rotation and checks for a win. *)
Lemma rotating_last (level0 : Level) (rotPoint axis : THREE.Vector3) (angle : R)
    (rest : list Timer) (st : Game) :
  normalized axis ->
  rotating level0 rotPoint axis angle 17 rest st ->
  let level' := set_block level0
                  (rotateAroundWorldAxis (block level0) rotPoint axis angle) in
  level (fire 0 st) = level'
  /\ pauseWindowBox (fire 0 st) = pauseWindowBox st
  /\ animationPlaying (fire 0 st) = wins level'
  /\ timers (fire 0 st) = rest ++ (if wins level' then [winTimeout] else []).
Proof.
  intros N ([fb T] & A & L) level'.
  assert (E : set_block (level st)
                (rotateAroundWorldAxis (block (level st)) rotPoint axis (angle / 18))
              = level').
  { rewrite L. cbn [block set_block]. unfold level'. rewrite set_block_set_block. f_equal.
    transitivity (Nat.iter 18 (fun o => rotateAroundWorldAxis o rotPoint axis (angle / 18))
                           (block level0)); [reflexivity |].
    rewrite (rotateAroundWorldAxis_iter 18 _ _ _ _ N).
    f_equal. rewrite INR_IZR_INZ. cbn [Z.of_nat Pos.of_succ_nat Pos.succ]. field. }
  unfold fire. rewrite T. cbn [nth_error]. unfold rotationAnimation_callback.
  change (Z.of_nat 17 + 1 =? 18)%Z with true. cbv iota.
  unfold set_level_block. cbn [level set_level set_camera clearTimer set_timers
    set_animationPlaying]. rewrite E. unfold wins.
  destruct (_checkForWin level') as [[|] |]; cbn; rewrite ?T; cbn;
    rewrite ?app_nil_r; auto.
Qed.

Lemma normalized_rollAxis (l : Level) (rotDir : dirEnum) : normalized (rollAxis l rotDir).
Proof.
  unfold rollAxis, rotationOf. destruct rotDir; cbn [fst snd];
    (apply normalized_zAxis || apply normalized_xAxis).
Qed.

(** From an idle moment to the end of an accepted roll: eighteen intervals
    turn the block by the whole quarter turn. *)
Lemma accepted_roll_completes (rotDir : dirEnum) (st : Game) :
  idle st -> timers st = [] -> accepted (level st) rotDir = true ->
  let st' := Nat.iter 18 (fire 0) (handleBlockMovement rotDir st) in
  level st' = roll (level st) rotDir
  /\ pauseWindowBox st' = pauseWindowBox st
  /\ animationPlaying st' = wins (roll (level st) rotDir)
  /\ timers st' = (if wins (roll (level st) rotDir) then [winTimeout] else []).
Proof.
  intros Hidle T A. cbv zeta.
  rewrite (handleBlockMovement_idle rotDir st Hidle), A.
  rewrite Nat.iter_succ.
  destruct (rotating_iter st (rollPoint (level st) rotDir) (rollAxis (level st) rotDir)
              (rollAngle (level st) rotDir) 17 T) as [R P]; [lia |].
  destruct (rotating_last _ _ _ _ _ _ (normalized_rollAxis _ _) R) as (L' & P' & A' & T').
  repeat split; [exact L' | congruence | exact A' | exact T'].
Qed.

Lemma animateFailedRotation_bouncing (st0 : Game) (rotPoint axis : THREE.Vector3) (angle : R) :
  timers st0 = [] ->
  bouncingForward st0 rotPoint axis angle 0 (animateFailedRotation rotPoint axis angle st0).
Proof.
  intros T. unfold bouncingForward, animateFailedRotation, setTimer. cbn. rewrite T.
  repeat split. symmetry. apply set_block_block.
Qed.

Lemma bouncingForward_step (st0 : Game) (rotPoint axis : THREE.Vector3) (angle : R)
    (n : nat) (st : Game) :
  bouncingForward st0 rotPoint axis angle n st -> (S n < 18)%nat ->
  bouncingForward st0 rotPoint axis angle (S n) (fire 0 st).
Proof.
  intros (T & A & S & C & P & O & L) Hn. unfold fire. rewrite T. cbn [nth_error].
  unfold failAnimationForward_callback.
  destruct (Z.eqb_spec (Z.of_nat n + 1) 18) as [E | _]; [lia |].
  unfold bouncingForward. cbn. rewrite T, A, S, C, P, O, L. cbn.
  repeat split. do 2 f_equal. lia.
Qed.

Lemma bouncingForward_turn (st0 : Game) (rotPoint axis : THREE.Vector3) (angle : R)
    (st : Game) :
  bouncingForward st0 rotPoint axis angle 17 st ->
  bouncingBackward st0 rotPoint axis angle 0 (fire 0 st).
Proof.
  intros (T & A & S & C & P & O & L). unfold fire. rewrite T. cbn [nth_error].
  unfold failAnimationForward_callback.
  change (Z.of_nat 17 + 1 =? 18)%Z with true. cbv iota.
  unfold bouncingBackward. cbn. rewrite T, A, S, C, P, O, L. cbn.
  repeat split.
Qed.

Lemma bouncingBackward_step (st0 : Game) (rotPoint axis : THREE.Vector3) (angle : R)
    (n : nat) (st : Game) :
  bouncingBackward st0 rotPoint axis angle n st -> (S n < 18)%nat ->
  bouncingBackward st0 rotPoint axis angle (S n) (fire 0 st).
Proof.
  intros (T & A & S & C & P & O & L) Hn. unfold fire. rewrite T. cbn [nth_error].
  unfold failAnimationBackward_callback.
  destruct (Z.eqb_spec (Z.of_nat n + 1) 18) as [E | _]; [lia |].
  unfold bouncingBackward. cbn. rewrite T, A, S, C, P, O, L. cbn.
  repeat split. do 2 f_equal. lia.
Qed.

Lemma bouncingForward_iter (st0 : Game) (rotPoint axis : THREE.Vector3) (angle : R) (n : nat) :
  timers st0 = [] -> (n < 18)%nat ->
  bouncingForward st0 rotPoint axis angle n
    (Nat.iter n (fire 0) (animateFailedRotation rotPoint axis angle st0)).
Proof.
  intros T. induction n as [| n IH]; intros Hn.
  - now apply animateFailedRotation_bouncing.
  - rewrite Nat.iter_succ. apply bouncingForward_step; [apply IH; lia | exact Hn].
Qed.

Lemma bouncingBackward_iter (st0 : Game) (rotPoint axis : THREE.Vector3) (angle : R) (n : nat) :
  timers st0 = [] -> (n < 18)%nat ->
  bouncingBackward st0 rotPoint axis angle n
    (Nat.iter (18 + n) (fire 0) (animateFailedRotation rotPoint axis angle st0)).
Proof.
  intros T. induction n as [| n IH]; intros Hn.
  - rewrite Nat.add_0_r, Nat.iter_succ. apply bouncingForward_turn.
    apply bouncingForward_iter; [exact T | lia].
  - rewrite <- plus_n_Sm, Nat.iter_succ.
    apply bouncingBackward_step; [apply IH; lia | exact Hn].
Qed.

(** The last backward interval puts the block back where it was. *)
Lemma bouncingBackward_last (st0 : Game) (rotPoint axis : THREE.Vector3) (angle : R)
    (st : Game) :
  normalized axis -> animationPlaying st0 = false -> timers st0 = [] ->
  bouncingBackward st0 rotPoint axis angle 17 st ->
  fire 0 st = st0.
Proof.
  intros N A0 T0 (T & A & S & C & P & O & L).
  unfold fire. rewrite T. cbn [nth_error]. unfold failAnimationBackward_callback.
  change (Z.of_nat 17 + 1 =? 18)%Z with true. cbv iota.
  assert (E : set_block (level st)
                (rotateAroundWorldAxis (block (level st)) rotPoint axis (- angle / 18))
              = level st0).
  { rewrite L. cbn [block set_block]. rewrite set_block_set_block.
    transitivity (set_block (level st0) (block (level st0))); [| apply set_block_block].
    f_equal.
    transitivity
      (Nat.iter 18 (fun o => rotateAroundWorldAxis o rotPoint axis (- angle / 18))
         (Nat.iter 18 (fun o => rotateAroundWorldAxis o rotPoint axis (angle / 18))
                   (block (level st0)))); [reflexivity |].
    rewrite !(rotateAroundWorldAxis_iter 18 _ _ _ _ N).
    rewrite (rotateAroundWorldAxis_compose _ _ _ _ _ N).
    rewrite <- (rotateAroundWorldAxis_zero (block (level st0)) rotPoint axis) at 2.
    f_equal. rewrite INR_IZR_INZ. cbn [Z.of_nat Pos.of_succ_nat Pos.succ]. field. }
  unfold set_level_block, clearTimer, set_animationPlaying, set_timers, set_level.
  cbn. rewrite E, T, S, C, P, O. cbn. destruct st0. cbn in *. subst. reflexivity.
Qed.

(** A refused roll: thirty-six intervals later the session is exactly what
    it was before the request. *)
Lemma refused_roll_completes (rotDir : dirEnum) (st : Game) :
  idle st -> timers st = [] -> accepted (level st) rotDir = false ->
  Nat.iter 36 (fire 0) (handleBlockMovement rotDir st) = st.
Proof.
  intros Hidle T A.
  rewrite (handleBlockMovement_idle rotDir st Hidle), A.
  change 36%nat with (S (18 + 17)). rewrite Nat.iter_succ.
  apply (bouncingBackward_last st (rollPoint (level st) rotDir) (rollAxis (level st) rotDir)
           (JS.Math_PI / (6 * snd (rotationOf (level st) rotDir)))).
  - apply normalized_rollAxis.
  - apply Hidle.
  - exact T.
  - apply bouncingBackward_iter; [exact T | lia].
Qed.

(** While a roll or a bounce started by [handleBlockMovement] is in flight
    the busy flag is set. *)
Lemma in_flight_flag (rotDir : dirEnum) (st : Game) (n : nat) :
  idle st -> timers st = [] ->
  (n < (if accepted (level st) rotDir then 18 else 36))%nat ->
  animationPlaying (Nat.iter n (fire 0) (handleBlockMovement rotDir st)) = true.
Proof.
  intros Hidle T Hn.
  rewrite (handleBlockMovement_idle rotDir st Hidle).
  destruct (accepted (level st) rotDir).
  - apply (rotating_iter st _ _ _ n T Hn).
  - destruct (Nat.lt_ge_cases n 18) as [Hlt | Hge].
    + apply (bouncingForward_iter st _ _ _ n T Hlt).
    + replace n with (18 + (n - 18))%nat by lia.
      apply (bouncingBackward_iter st _ _ _ (n - 18) T). lia.
Qed.

(** With the busy flag set or the pause menu showing, a roll request
    returns the session unchanged: the block keeps its position and
    orientation and no rotation or bounce is started.  In particular every
    request made while a roll or a bounce that [handleBlockMovement] started
    is in flight, with nothing else pending, is dropped. *)
Lemma busy_requests_dropped (rotDir : dirEnum) (st : Game) :
  (animationPlaying st = true \/ pauseWindowBox st = "visible"%string ->
   handleBlockMovement rotDir st = st
   /\ block (level (handleBlockMovement rotDir st)) = block (level st)
   /\ timers (handleBlockMovement rotDir st) = timers st)
  /\ (forall st0 rotDir0 n,
        idle st0 -> timers st0 = [] ->
        (n < (if accepted (level st0) rotDir0 then 18 else 36))%nat ->
        st = Nat.iter n (fire 0) (handleBlockMovement rotDir0 st0) ->
        handleBlockMovement rotDir st = st).
Proof.
  split.
  - intros H. rewrite (handleBlockMovement_busy rotDir st H). auto.
  - intros st0 rotDir0 n Hidle T Hn ->.
    apply handleBlockMovement_busy. left. now apply in_flight_flag.
Qed.

(** ** Changing the level *)

Lemma fadingOut_step (st0 : Game) (offset k : Z) (st : Game) :
  fadingOut st0 offset k st -> k <> 0%Z -> fadingOut st0 offset (k - 1) (fire 0 st).
Proof.
  intros (T & A & S & C & P & L) Hk. unfold fire. rewrite T. cbn [nth_error].
  unfold fadeOutAnimation_callback.
  destruct (Z.eqb_spec k 0) as [E | _]; [contradiction |].
  unfold fadingOut. cbn. rewrite T, A, S, C, P, L. cbn. repeat split.
Qed.

Lemma fadingOut_iter (st0 : Game) (offset : Z) (n : nat) :
  timers st0 = [] -> (n <= 20)%nat ->
  fadingOut st0 offset (20 - Z.of_nat n)
    (Nat.iter n (fire 0) (setTimer (set_animationPlaying st0 true) (fadeOutAnimation offset 20))).
Proof.
  intros T. induction n as [| n IH]; intros Hn.
  - unfold fadingOut, setTimer. cbn. rewrite T. repeat split.
  - rewrite Nat.iter_succ.
    replace (20 - Z.of_nat (S n))%Z with (20 - Z.of_nat n - 1)%Z by lia.
    apply fadingOut_step; [apply IH; lia | lia].
Qed.

(** *** The scene across a level change *)

Lemma remove_child_first (object : SceneChild) (base tail : list SceneChild) :
  ~ In object base -> remove_child object (base ++ object :: tail) = base ++ tail.
Proof.
  induction base as [| c base IH]; intros N; cbn [app remove_child].
  - destruct (SceneChild_eq_dec object object); [reflexivity | contradiction].
  - destruct (SceneChild_eq_dec c object) as [-> | _].
    + exfalso. apply N. now left.
    + f_equal. apply IH. intros I. apply N. now right.
Qed.

Lemma scene_remove_tiles (n a : nat) (base tail : list SceneChild) :
  (forall k, ~ In (boardTile k) base) ->
  scene_remove (map boardTile (seq a n)) (base ++ map boardTile (seq a n) ++ tail)
  = base ++ tail.
Proof.
  intros N. revert a. induction n as [| n IH]; intros a; [reflexivity |].
  cbn [seq map app]. unfold scene_remove. cbn [fold_left].
  rewrite remove_child_first by apply N. apply IH.
Qed.

(** Taking the level out of a scene that shows it leaves the two lights. *)
Lemma scene_remove_sceneOf (l : Level) :
  scene_remove [theBlock] (scene_remove (boardChildren l) (sceneOf l))
  = [AmbientLight; DirectionalLight].
Proof.
  unfold sceneOf, boardChildren. rewrite scene_remove_tiles.
  - reflexivity.
  - intros k [E | [E | []]]; discriminate E.
Qed.

Lemma changeLevel_Returns (offset : Z) (st : Game) (level' : Level) :
  Level_new (levelNum (level st) + offset) = Some level' ->
  changeLevel offset st
  = Returns (mkGame level'
               (scene_add [theBlock]
                  (scene_add (boardChildren level')
                     (scene_remove [theBlock]
                        (scene_remove (boardChildren (level st)) (scene st)))))
               (THREE.add (THREE.position (block level')) camOffset)
               (animationPlaying st) (pauseWindowBox st) (opacity st) (timers st)).
Proof. intros N. unfold changeLevel. cbn. rewrite N. reflexivity. Qed.

Lemma changeLevel_sceneOf (l level' : Level) :
  scene_add [theBlock]
    (scene_add (boardChildren level')
       (scene_remove [theBlock] (scene_remove (boardChildren l) (sceneOf l))))
  = sceneOf level'.
Proof.
  rewrite scene_remove_sceneOf. unfold scene_add, sceneOf. now rewrite <- app_assoc.
Qed.

(** The interval that finds the counter at 0 changes the level. *)
Lemma fadingOut_last (st0 : Game) (offset : Z) (st : Game) (level' : Level) :
  fadingOut st0 offset 0 st ->
  Level_new (levelNum (level st0) + offset) = Some level' ->
  fire 0 st
  = mkGame level'
      (scene_add [theBlock]
         (scene_add (boardChildren level')
            (scene_remove [theBlock]
               (scene_remove (boardChildren (level st0)) (scene st0)))))
      (THREE.add (THREE.position (block level')) camOffset) true
      (pauseWindowBox st0) (IZR 0 / 20) [fadeInAnimation (-1)].
Proof.
  intros (T & A & S & C & P & L) N. unfold fire. rewrite T. cbn [nth_error].
  unfold fadeOutAnimation_callback. cbn [Z.eqb].
  rewrite (changeLevel_Returns offset _ level')
    by (cbn [level clearTimer set_timers set_opacity]; rewrite L; exact N).
  unfold setTimer, clearTimer, set_timers, set_opacity.
  cbn [level scene timers camera animationPlaying pauseWindowBox opacity].
  rewrite L, S, T, A, P. reflexivity.
Qed.

(** A request on its own.  A request whose index falls below 0 or above the
    last valid index leaves the whole session as it is (board, block and
    level number included).  For every index in range the request starts
    the fade out, and, with no other callback pending, the interval that
    ends the fade out takes the board and the block of the old level out of
    the scene and replaces the level by the one that [new Level] builds for
    the current index plus the offset, which depends on that index alone:
    the board and winning tile of its layout and the block on its initial
    cell, which then make up the scene. *)
Lemma level_request_alone (offset : Z) (st : Game) :
  ((levelNum (level st) + offset < 0 \/ levelNum (level st) + offset > totalLevels (level st))%Z ->
   fadeOutInLevel offset st = st)
  /\ (forall n, (exists l, Level_new n = Some l) <-> (0 <= n <= _LEVELS)%Z)
  /\ (totalLevels (level st) = _LEVELS ->
      (0 <= levelNum (level st) + offset <= totalLevels (level st))%Z ->
      exists layout position level',
        array_get _LAYOUTS (levelNum (level st) + offset) = Some layout
        /\ array_get _BLOCK_POSITIONS (levelNum (level st) + offset) = Some position
        /\ level' = mkLevel _LEVELS (levelNum (level st) + offset)
                      (fst (boardFromLayout layout)) (createBlock position)
                      (snd (boardFromLayout layout))
        /\ Level_new (levelNum (level st) + offset) = Some level'
        /\ fadeOutInLevel offset st
           = setTimer (set_animationPlaying st true) (fadeOutAnimation offset 20)
        /\ (exists st', changeLevel offset st = Returns st'
                        /\ level st' = level'
                        /\ (scene st = sceneOf (level st) -> scene st' = sceneOf level'))
        /\ (timers st = [] ->
            level (Nat.iter 21 (fire 0) (fadeOutInLevel offset st)) = level'
            /\ (scene st = sceneOf (level st) ->
                scene (Nat.iter 21 (fire 0) (fadeOutInLevel offset st)) = sceneOf level'))).
Proof.
  split; [apply fadeOutInLevel_out_of_range |].
  split.
  { intros n. split.
    - intros [l L]. destruct (Z_lt_dec n 0) as [Hn | Hn].
      + rewrite Level_new_None in L by now left. discriminate L.
      + destruct (Z_lt_dec _LEVELS n) as [Hm | Hm]; [| lia].
        rewrite Level_new_None in L by now right. discriminate L.
    - intros H. destruct (Level_new_Some n H) as (layout & position & _ & _ & L).
      eexists. exact L. }
  intros TL H.
  destruct (Level_new_Some (levelNum (level st) + offset)) as (layout & position & EL & EP & N);
    [rewrite <- TL; exact H |].
  eexists layout, position, _. split; [exact EL |]. split; [exact EP |].
  split; [reflexivity |]. split; [exact N |].
  split; [now apply fadeOutInLevel_in_range |].
  split.
  - eexists. split; [apply (changeLevel_Returns offset st _ N) |].
    split; [reflexivity |]. intros S. cbn [scene]. rewrite S. apply changeLevel_sceneOf.
  - intros T. rewrite (fadeOutInLevel_in_range offset st H).
    rewrite Nat.iter_succ.
    rewrite (fadingOut_last st offset _ _ (fadingOut_iter st offset 20 T (le_n 20)) N).
    split; [reflexivity |]. intros S. cbn [scene]. rewrite S. apply changeLevel_sceneOf.
Qed.

Lemma Level_new_0 : Level_new 0 = Some startLevel.
Proof.
  unfold Level_new, startLevel.
  change (array_get _LAYOUTS 0) with (Some _LAYOUT_0).
  cbv beta iota.
  change (array_get _BLOCK_POSITIONS 0) with (Some (5, 1)%Z).
  destruct (boardFromLayout _LAYOUT_0). reflexivity.
Qed.

Lemma initLevel_startGame : initLevel "hidden" 1 = Some startGame.
Proof. unfold initLevel. rewrite Level_new_0. reflexivity. Qed.

Lemma idle_startGame : idle startGame.
Proof. split; [reflexivity | discriminate]. Qed.

Ltac board_of_layout :=
  cbv [boardFromLayout _LAYOUT_0 boardFromRows boardFromRow String.eqb Ascii.eqb
       Bool.eqb negb fst snd app Z.of_nat Pos.of_succ_nat Pos.succ].

Lemma board_startLevel :
  In (createTile 3 1) (board startLevel) /\ In (createTile 4 1) (board startLevel)
  /\ In (createTile 2 1) (board startLevel).
Proof.
  unfold startLevel. cbn [board]. board_of_layout. cbn [In]. tauto.
Qed.

Lemma Pose_startLevel : Pose (THREE.position (block startLevel)).
Proof. apply (Level_new_Pose 0). apply Level_new_0. Qed.

Lemma roll_startLevel_negX :
  THREE.position (block (roll startLevel negX)) = THREE.mkVector3 (IZR 3 + 1 / 2) (1 / 2) (IZR 1).
Proof.
  rewrite roll_position. cbv zeta.
  destruct (offsets_of_pose startLevel Pose_startLevel)
    as [(i & j & E & Ox & Oz) | [(i & j & E & _) | (i & j & E & _)]];
    [| apply (f_equal THREE.y) in E; cbn in E; lra
     | apply (f_equal THREE.y) in E; cbn in E; lra].
  rewrite Ox. cbn [startLevel block createBlock THREE.set_position THREE.position
                   THREE.x THREE.y THREE.z fst snd].
  rewrite twoPtRound_IZR. apply Vector3_eq; cbn [THREE.x THREE.y THREE.z]; lra.
Qed.

Lemma getBlockPos_roll_startLevel_negX :
  getBlockPos (block (roll startLevel negX)) = [ mkVector2XZ 3 1; mkVector2XZ (3 + 1) 1 ].
Proof.
  apply getBlockPos_halfX; rewrite roll_startLevel_negX; cbn [THREE.x THREE.z];
    [apply halfRound_half | apply halfRound_IZR].
Qed.

Lemma accepted_startLevel_negX : accepted startLevel negX = true.
Proof.
  apply isValidRotation_tiled.
  change (getRotatedClone (block startLevel) (rollPoint startLevel negX)
            (rollAxis startLevel negX) (rollAngle startLevel negX))
    with (block (roll startLevel negX)).
  rewrite getBlockPos_roll_startLevel_negX.
  destruct board_startLevel as (T3 & T4 & _).
  repeat constructor.
  - exists (createTile 3 1). split; [exact T3 | split; reflexivity].
  - exists (createTile 4 1). split; [exact T4 |].
    unfold createTile. cbn [THREE.set_position THREE.position THREE.x THREE.z x z].
    split; [lra | reflexivity].
Qed.

Lemma wins_roll_startLevel_negX : wins (roll startLevel negX) = false.
Proof.
  unfold wins, _checkForWin, blockPos. rewrite getBlockPos_roll_startLevel_negX.
  destruct (winTile (roll startLevel negX)); reflexivity.
Qed.

Lemma togglePause_hidden (st : Game) :
  pauseWindowBox st = "hidden"%string -> pauseWindowBox (togglePause st) = "visible"%string.
Proof. intros H. unfold togglePause. cbn [pauseWindowBox set_pauseWindowBox]. now rewrite H. Qed.

Lemma togglePause_visible (st : Game) :
  pauseWindowBox st = "visible"%string -> pauseWindowBox (togglePause st) = "hidden"%string.
Proof. intros H. unfold togglePause. cbn [pauseWindowBox set_pauseWindowBox]. now rewrite H. Qed.

Ltac roll_tick R P :=
  let R' := fresh in
  let P' := fresh in
  destruct (rotating_step _ _ _ _ _ _ _ R ltac:(lia)) as [R' P'];
  rewrite P in P'; clear R P; rename R' into R; rename P' into P.

Ltac fade_tick R P :=
  let R' := fresh in
  let P' := fresh in
  destruct (rotating_fade_tick _ _ _ _ _ _ _ _ _ R ltac:(lia)) as [R' P'];
  rewrite P in P'; clear R P; rename R' into R; rename P' into P.

(** C8: the flag is no lock against a level request.  In the session of
    level 0 a restart is requested from the pause menu while an accepted roll
    is turning the block; the last interval of the roll clears the flag while
    the fade out is still pending, and the next key press, in any direction,
    starts a rotation or a bounce during the fade. *)
Theorem C8_roll_starts_during_fade :
  let st := run restartDuringRoll startGame in
  animationPlaying st = false
  /\ pauseWindowBox st = "hidden"%string
  /\ timers st = [ fadeOutAnimation 0 16 ]
  /\ forall rotDir,
       handleBlockMovement rotDir st <> st
       /\ animationPlaying (handleBlockMovement rotDir st) = true
       /\ exists t, timers (handleBlockMovement rotDir st) = [ fadeOutAnimation 0 16; t ]
                    /\ ((exists p a g b, t = rotationAnimation p a g b 0)
                        \/ (exists p a g, t = failAnimationForward p a g 0)).
Proof.
  cbv zeta.
  change (run restartDuringRoll startGame)
    with (fire 0 (fire 1 (fire 0 (fire 0 (fire 1 (fire 0 (fire 1 (fire 0 (togglePause
          (fire 0 (fire 1 (fire 0 (fire 0 (fadeOutInLevel 0
          (fire 0 (fire 0 (fire 0 (fire 0 (togglePause
          (fire 0 (fire 0 (fire 0 (fire 0 (fire 0 (fire 0
          (handleBlockMovement negX startGame)))))))))))))))))))))))))).
  assert (E0 : handleBlockMovement negX startGame
               = animateRotation (rollPoint startLevel negX) (rollAxis startLevel negX)
                   (rollAngle startLevel negX) startGame).
  { rewrite (handleBlockMovement_idle negX startGame idle_startGame).
    change (level startGame) with startLevel. now rewrite accepted_startLevel_negX. }
  rewrite E0.
  pose proof (animateRotation_rotating startGame (rollPoint startLevel negX)
                (rollAxis startLevel negX) (rollAngle startLevel negX) eq_refl) as R.
  change (level startGame) with startLevel in R.
  assert (P : pauseWindowBox (animateRotation (rollPoint startLevel negX)
                (rollAxis startLevel negX) (rollAngle startLevel negX) startGame)
              = "hidden"%string) by reflexivity.
  do 6 roll_tick R P.
  apply rotating_togglePause in R. apply togglePause_hidden in P.
  do 4 roll_tick R P.
  destruct (rotating_fadeOutInLevel _ _ _ _ _ _ 0 _ R) as [F Q];
    [change (0 <= 0 + 0 <= 11)%Z; lia |].
  rewrite P in Q. clear R P. change ([] ++ [fadeOutAnimation 0 20]) with [fadeOutAnimation 0 20] in F.
  do 2 roll_tick F Q. fade_tick F Q. roll_tick F Q.
  apply rotating_togglePause in F. apply togglePause_visible in Q.
  roll_tick F Q. fade_tick F Q. roll_tick F Q. fade_tick F Q.
  do 2 roll_tick F Q. fade_tick F Q.
  destruct (rotating_last _ _ _ _ _ _ (normalized_rollAxis startLevel negX) F)
    as (L18 & P18 & A18 & T18).
  change (set_block startLevel
            (rotateAroundWorldAxis (block startLevel) (rollPoint startLevel negX)
               (rollAxis startLevel negX) (rollAngle startLevel negX)))
    with (roll startLevel negX) in L18, A18, T18.
  rewrite wins_roll_startLevel_negX in A18, T18.
  rewrite Q in P18. clear F Q.
  match goal with
  | H : animationPlaying ?s = false |- _ => generalize dependent s
  end.
  intros st L18 P18 A18 T18.
  change ([fadeOutAnimation 0 (20 - 1 - 1 - 1 - 1)] ++ []) with [fadeOutAnimation 0 16] in T18.
  assert (Hidle : idle st) by (split; [exact A18 | rewrite P18; discriminate]).
  split; [exact A18 |]. split; [exact P18 |]. split; [exact T18 |].
  intros rotDir. rewrite (handleBlockMovement_idle rotDir st Hidle).
  destruct (accepted (level st) rotDir).
  - split; [| split].
    + intros E. apply (f_equal animationPlaying) in E.
      unfold animateRotation, setTimer in E. cbn [animationPlaying set_timers set_animationPlaying] in E.
      congruence.
    + reflexivity.
    + eexists. unfold animateRotation, setTimer.
      cbn [timers set_timers set_animationPlaying]. rewrite T18.
      split; [reflexivity |]. left. repeat eexists.
  - split; [| split].
    + intros E. apply (f_equal animationPlaying) in E.
      unfold animateFailedRotation, setTimer in E.
      cbn [animationPlaying set_timers set_animationPlaying] in E. congruence.
    + reflexivity.
    + eexists. unfold animateFailedRotation, setTimer.
      cbn [timers set_timers set_animationPlaying]. rewrite T18.
      split; [reflexivity |]. right. repeat eexists.
Qed.

Lemma getBlockPos_diagonal (block : THREE.Mesh) (i j : Z) :
  halfRound (THREE.x (THREE.position block)) = IZR i + 1 / 2 ->
  halfRound (THREE.z (THREE.position block)) = IZR j + 1 / 2 ->
  getBlockPos block = [ mkVector2XZ (IZR i) (IZR j); mkVector2XZ (IZR i + 1) (IZR j + 1) ].
Proof.
  intros Hx Hz. unfold getBlockPos, Vector2XZ_floor, Vector2XZ_ceil, Vector2XZ_halfRound.
  cbn [x z]. rewrite Hx, Hz, !isInt_half. cbn [andb].
  now rewrite !Math_floor_half, !Math_ceil_half.
Qed.

Lemma halfRound_one_half : halfRound (1 / 2) = IZR 0 + 1 / 2.
Proof. rewrite <- (halfRound_half 0) at 1. f_equal. lra. Qed.

Lemma getBlockPos_astrideLevel :
  getBlockPos (block astrideLevel) = [ mkVector2XZ 0 0; mkVector2XZ 0 (0 + 1) ].
Proof.
  apply (getBlockPos_halfZ _ 0 0); cbn [astrideLevel block blockAt THREE.set_position
    THREE.position THREE.x THREE.z].
  - apply (halfRound_IZR 0).
  - apply halfRound_one_half.
Qed.

Lemma roll_astrideLevel :
  THREE.position (block (roll astrideLevel posX))
  = THREE.mkVector3 (IZR 1 + 1 / 2) (1 / 2) (1 / 2).
Proof.
  rewrite roll_position. cbv zeta. unfold offsetRotPointX.
  cbn [astrideLevel block blockAt THREE.set_position THREE.position THREE.x THREE.y THREE.z].
  rewrite twoPtRound_1, one_not_half. cbn [andb]. rewrite (twoPtRound_IZR 0).
  apply Vector3_eq; cbn [THREE.x THREE.y THREE.z]; lra.
Qed.

Lemma getBlockPos_roll_astrideLevel :
  getBlockPos (block (roll astrideLevel posX)) = [ mkVector2XZ 1 0; mkVector2XZ (1 + 1) (0 + 1) ].
Proof.
  apply (getBlockPos_diagonal _ 1 0); rewrite roll_astrideLevel; cbn [THREE.x THREE.z].
  - apply halfRound_half.
  - apply halfRound_one_half.
Qed.

(** C6, as stated: an accepted roll from a classification-consistent state
    gives a classification-consistent state.  Not from every such state:
    classification does not look at the height, and from a block at
    standing height astride two cells the engine accepts a roll onto two
    diagonal cells. *)
Lemma C6_consistent_state_rolls_to_diagonal :
  classificationConsistent (getBlockPos (block astrideLevel))
  /\ accepted astrideLevel posX = true
  /\ getBlockPos (block (roll astrideLevel posX)) = [ mkVector2XZ 1 0; mkVector2XZ (1 + 1) (0 + 1) ]
  /\ ~ classificationConsistent (getBlockPos (block (roll astrideLevel posX))).
Proof.
  split; [| split; [| split]].
  - rewrite getBlockPos_astrideLevel. right.
    exists (mkVector2XZ 0 0), (mkVector2XZ 0 (0 + 1)).
    split; [reflexivity |].
    split; [split; apply (whole_IZR 0) |].
    split; [split; [apply (whole_IZR 0) | apply (whole_succ 0)] |].
    right. split; reflexivity.
  - apply isValidRotation_tiled.
    change (getRotatedClone (block astrideLevel) (rollPoint astrideLevel posX)
              (rollAxis astrideLevel posX) (rollAngle astrideLevel posX))
      with (block (roll astrideLevel posX)).
    rewrite getBlockPos_roll_astrideLevel. repeat constructor.
    + exists (createTile 1 0). split; [left; reflexivity | split; reflexivity].
    + exists (createTile 2 1). split; [right; left; reflexivity |].
      unfold createTile. cbn [THREE.set_position THREE.position THREE.x THREE.z x z].
      split; lra.
  - apply getBlockPos_roll_astrideLevel.
  - rewrite getBlockPos_roll_astrideLevel.
    intros [(c & E & _) | (c1 & c2 & E & _ & _ & A)]; [discriminate E |].
    injection E as <- <-. unfold adjacent in A. cbn [x z] in A. lra.
Qed.

(** C6, amended: every block state reached from the initial placement of a
    level by accepted quarter-turn rolls is classification-consistent.  The
    block at the initial placement, and any block obtained by a roll about
    the engine's pivot and axis from a resting pose (standing at height 1 on
    a whole cell, or lying at height 0.5 across two adjacent cells; every
    reached state is one), yields exactly one cell or exactly two adjacent
    cells, never two diagonal ones; and the eighteen intervals of an
    accepted roll turn the block exactly as that roll. *)
Theorem C6_reachable_classificationConsistent :
  (forall n level0,
      Level_new n = Some level0 ->
      Pose (THREE.position (block level0))
      /\ classificationConsistent (getBlockPos (block level0)))
  /\ (forall lvl rotDir,
        Pose (THREE.position (block lvl)) ->
        Pose (THREE.position (block (roll lvl rotDir)))
        /\ classificationConsistent (getBlockPos (block (roll lvl rotDir))))
  /\ (forall n level0 lvl,
        Level_new n = Some level0 -> reachable level0 lvl ->
        Pose (THREE.position (block lvl))
        /\ classificationConsistent (getBlockPos (block lvl)))
  /\ (forall rotDir st,
        idle st -> timers st = [] -> accepted (level st) rotDir = true ->
        level (Nat.iter 18 (fire 0) (handleBlockMovement rotDir st)) = roll (level st) rotDir).
Proof.
  split; [| split; [| split]].
  - intros n level0 L. pose proof (Level_new_Pose n level0 L) as P.
    split; [exact P | now apply Pose_classificationConsistent].
  - intros lvl rotDir P. pose proof (roll_Pose lvl rotDir P) as P'.
    split; [exact P' | now apply Pose_classificationConsistent].
  - intros n level0 lvl L R.
    assert (P : Pose (THREE.position (block lvl)))
      by (apply (reachable_Pose level0); [apply (Level_new_Pose n) |]; assumption).
    split; [exact P | now apply Pose_classificationConsistent].
  - intros rotDir st Hidle T A. apply (accepted_roll_completes rotDir st Hidle T A).
Qed.

(** Level 0 after its first roll to the left. *)
Lemma C6_reachable_classificationConsistent_witness :
  classificationConsistent (getBlockPos (block (roll startLevel negX))).
Proof.
  apply (proj1 (proj2 (proj2 C6_reachable_classificationConsistent)) 0%Z startLevel).
  - exact Level_new_0.
  - apply reachable_roll; [apply reachable_start | exact accepted_startLevel_negX].
Defined.

(** ** Witnesses *)

Lemma getBlockPos_roll_halfSupportedLevel :
  getBlockPos (block (roll halfSupportedLevel posZ))
  = [ mkVector2XZ 0 (0 + 1); mkVector2XZ (0 + 1) (0 + 1) ].
Proof.
  assert (E : THREE.position (block (roll halfSupportedLevel posZ))
              = THREE.mkVector3 (IZR 0 + 1 / 2) (1 / 2) (IZR (0 + 1))).
  { rewrite roll_position. cbv zeta. unfold offsetRotPointZ.
    cbn [halfSupportedLevel block blockAt THREE.set_position THREE.position
         THREE.x THREE.y THREE.z].
    rewrite twoPtRound_one_half, strict_eq_refl, isInt_one_half. cbn [andb].
    rewrite (twoPtRound_IZR 0).
    apply Vector3_eq; cbn [THREE.x THREE.y THREE.z]; rewrite ?plus_IZR; lra. }
  rewrite (getBlockPos_halfX _ 0 (0 + 1)); rewrite ?E; cbn [THREE.x THREE.z].
  - rewrite plus_IZR. reflexivity.
  - apply halfRound_half.
  - apply halfRound_IZR.
Qed.

(** A block lying across (0,0) and (1,0) may not roll onto (0,1) and (1,1)
    when only (0,1) is a tile. *)
Lemma C1_roll_legal_iff_tiled_witness : accepted halfSupportedLevel posZ = false.
Proof.
  apply (proj1 (proj2 (proj2 (C1_roll_legal_iff_tiled posZ halfSupportedLevel)))).
  exists (mkVector2XZ (0 + 1) (0 + 1)). split.
  - change (getRotatedClone (block halfSupportedLevel) (rollPoint halfSupportedLevel posZ)
              (rollAxis halfSupportedLevel posZ) (rollAngle halfSupportedLevel posZ))
      with (block (roll halfSupportedLevel posZ)).
    rewrite getBlockPos_roll_halfSupportedLevel. right. left. reflexivity.
  - intros (tile & [<- | [<- | [<- | []]]] & Hx & Hz);
      cbn [createTile THREE.set_position THREE.position THREE.x THREE.z x z] in Hx, Hz; lra.
Defined.

(** The rotation that the first roll to the left starts in level 0. *)
Lemma C4_direction_table_witness :
  handleBlockMovement negX startGame
  = animateRotation (fst (fst (rotationOf startLevel negX)))
      (snd (fst (rotationOf startLevel negX)))
      (ninetyDegRad * snd (rotationOf startLevel negX)) startGame.
Proof.
  apply (proj2 (proj2 (proj2 (proj2 (proj2 (proj2 (proj2 (proj2 (proj2 (proj2 (proj2
           (C4_direction_table startLevel))))))))))) negX startGame).
  - reflexivity.
  - exact idle_startGame.
  - exact accepted_startLevel_negX.
Defined.

(** Level 0 after its first roll to the left: the block lies, no win. *)
Lemma C5_checkForWin_witness :
  _checkForWin (roll startLevel negX) = Some false.
Proof.
  destruct (proj2 C5_checkForWin 0%Z startLevel (roll startLevel negX) Level_new_0)
    as (w & W & _).
  - apply reachable_roll; [apply reachable_start | exact accepted_startLevel_negX].
  - apply (proj1 (proj2 (proj1 C5_checkForWin (roll startLevel negX) w W))
             (mkVector2XZ 3 1) (mkVector2XZ (3 + 1) 1)).
    exact getBlockPos_roll_startLevel_negX.
Defined.

(** From level 0: no level -1 and no level 12, and level 1 after the fade out. *)
Lemma level_request_alone_startGame :
  fadeOutInLevel (-1) startGame = startGame
  /\ fadeOutInLevel 12 startGame = startGame
  /\ exists level', Level_new 1 = Some level'
                    /\ level (Nat.iter 21 (fire 0) (fadeOutInLevel 1 startGame)) = level'
                    /\ scene (Nat.iter 21 (fire 0) (fadeOutInLevel 1 startGame))
                       = sceneOf level'.
Proof.
  split; [| split].
  - apply (proj1 (level_request_alone (-1) startGame)). left.
    cbn [startGame startLevel level levelNum]. lia.
  - apply (proj1 (level_request_alone 12 startGame)). right.
    cbn [startGame startLevel level levelNum totalLevels]. unfold _LEVELS. lia.
  - destruct (proj2 (proj2 (level_request_alone 1 startGame)) eq_refl)
      as (layout & position & level' & _ & _ & _ & N & _ & _ & F).
    + cbn [startGame startLevel level levelNum totalLevels]. unfold _LEVELS. lia.
    + exists level'. split; [exact N |].
      split; [exact (proj1 (F eq_refl)) | exact (proj2 (F eq_refl) eq_refl)].
Defined.

(** The block of level 0 stands at the start. *)
Lemma C3_offsetRotPoint_witness :
  offsetRotPointX startLevel = 1 / 2.
Proof.
  apply (proj1 (proj2 (C3_offsetRotPoint startLevel))).
  intros [E _]. cbn [startLevel block createBlock THREE.set_position THREE.position THREE.y] in E.
  rewrite twoPtRound_1 in E. lra.
Defined.

(** 1 is no tie. *)
Lemma C10_halfRound_isInt_witness : halfRound (- 1) = - halfRound 1.
Proof.
  apply (proj2 (proj2 (proj2 (proj2 (proj2 (C10_halfRound_isInt 1)))))).
  intros [k Hk]. assert (E : IZR (2 * k) = 5) by (rewrite mult_IZR; lra).
  apply eq_IZR in E. lia.
Defined.

(** Level 0 at the start, and after its first roll to the left. *)
Lemma C2_getBlockPos_cells_witness :
  getBlockPos (block startLevel) = [ mkVector2XZ (halfRound 5) (halfRound 1) ]
  /\ exists c1 c2, getBlockPos (block (roll startLevel negX)) = [ c1; c2 ]
                   /\ x c2 = x c1 + 1 /\ z c2 = z c1.
Proof.
  split.
  - apply (proj1 (proj2 (C2_getBlockPos_cells (block startLevel))));
      cbn [startLevel block createBlock THREE.set_position THREE.position THREE.x THREE.z fst snd];
      rewrite halfRound_IZR; apply whole_IZR.
  - destruct (proj1 (proj2 (proj2 (C2_getBlockPos_cells (block (roll startLevel negX))))))
      as (c1 & c2 & E & _ & _ & _ & _ & Hx & Hz).
    + exists 3%Z. rewrite roll_startLevel_negX. apply halfRound_half.
    + exists 1%Z. rewrite roll_startLevel_negX. apply halfRound_IZR.
    + exists c1, c2. auto.
Defined.

(** ** Further properties *)






Lemma getBlockPos_standing (b : THREE.Mesh) (i j : Z) :
  THREE.x (THREE.position b) = IZR i -> THREE.z (THREE.position b) = IZR j ->
  getBlockPos b = [cell i j].
Proof.
  intros Hx Hz. rewrite getBlockPos_whole; rewrite ?Hx, ?Hz, ?halfRound_IZR;
    try reflexivity; apply whole_IZR.
Qed.

Lemma getBlockPos_lyingAlongX (b : THREE.Mesh) (i j : Z) :
  THREE.x (THREE.position b) = IZR i + 1 / 2 -> THREE.z (THREE.position b) = IZR j ->
  getBlockPos b = [cell i j; cell (i + 1) j].
Proof.
  intros Hx Hz. rewrite (getBlockPos_halfX b i j).
  - unfold cell. now rewrite plus_IZR.
  - rewrite Hx. apply halfRound_half.
  - rewrite Hz. apply halfRound_IZR.
Qed.

Lemma getBlockPos_lyingAlongZ (b : THREE.Mesh) (i j : Z) :
  THREE.x (THREE.position b) = IZR i -> THREE.z (THREE.position b) = IZR j + 1 / 2 ->
  getBlockPos b = [cell i j; cell i (j + 1)].
Proof.
  intros Hx Hz. rewrite (getBlockPos_halfZ b i j).
  - unfold cell. now rewrite plus_IZR.
  - rewrite Hx. apply halfRound_IZR.
  - rewrite Hz. apply halfRound_half.
Qed.

Lemma offsets_standing (lvl : Level) (i j : Z) :
  THREE.position (block lvl) = THREE.mkVector3 (IZR i) 1 (IZR j) ->
  offsetRotPointX lvl = 1 / 2 /\ offsetRotPointZ lvl = 1 / 2.
Proof.
  intros E. unfold offsetRotPointX, offsetRotPointZ. rewrite E.
  cbn [THREE.x THREE.y THREE.z]. rewrite twoPtRound_1, one_not_half. split; reflexivity.
Qed.

Lemma offsets_lyingAlongX (lvl : Level) (i j : Z) :
  THREE.position (block lvl) = THREE.mkVector3 (IZR i + 1 / 2) (1 / 2) (IZR j) ->
  offsetRotPointX lvl = 1 /\ offsetRotPointZ lvl = 1 / 2.
Proof.
  intros E. unfold offsetRotPointX, offsetRotPointZ. rewrite E.
  cbn [THREE.x THREE.y THREE.z].
  rewrite twoPtRound_one_half, strict_eq_refl, twoPtRound_half, twoPtRound_IZR,
    isInt_IZR, isInt_half.
  split; reflexivity.
Qed.

Lemma offsets_lyingAlongZ (lvl : Level) (i j : Z) :
  THREE.position (block lvl) = THREE.mkVector3 (IZR i) (1 / 2) (IZR j + 1 / 2) ->
  offsetRotPointX lvl = 1 / 2 /\ offsetRotPointZ lvl = 1.
Proof.
  intros E. unfold offsetRotPointX, offsetRotPointZ. rewrite E.
  cbn [THREE.x THREE.y THREE.z].
  rewrite twoPtRound_one_half, strict_eq_refl, twoPtRound_half, twoPtRound_IZR,
    isInt_IZR, isInt_half.
  split; reflexivity.
Qed.

Ltac roll_cells E Ox Oz :=
  rewrite roll_position; cbv zeta; rewrite E, ?Ox, ?Oz;
  cbn [THREE.x THREE.y THREE.z];
  rewrite ?twoPtRound_IZR, ?twoPtRound_half, ?plus_IZR, ?minus_IZR; lra.

(** X2: the cells a roll takes the block to.  A block standing on the cell
    (i,j) rolls onto the two cells beyond it in the direction of the roll; a
    block lying along the direction of the roll stands up on the cell beyond
    its end; a block lying across the direction of the roll stays lying, one
    cell further. *)
Theorem X2_roll_table (lvl : Level) (i j : Z) :
  let pos := THREE.position (block lvl) in
  let after := fun rotDir => getBlockPos (block (roll lvl rotDir)) in
  (pos = THREE.mkVector3 (IZR i) 1 (IZR j) ->
   getBlockPos (block lvl) = [cell i j]
   /\ after posX = [cell (i + 1) j; cell (i + 2) j]
   /\ after negX = [cell (i - 2) j; cell (i - 1) j]
   /\ after posZ = [cell i (j + 1); cell i (j + 2)]
   /\ after negZ = [cell i (j - 2); cell i (j - 1)])
  /\ (pos = THREE.mkVector3 (IZR i + 1 / 2) (1 / 2) (IZR j) ->
      getBlockPos (block lvl) = [cell i j; cell (i + 1) j]
      /\ after posX = [cell (i + 2) j]
      /\ after negX = [cell (i - 1) j]
      /\ after posZ = [cell i (j + 1); cell (i + 1) (j + 1)]
      /\ after negZ = [cell i (j - 1); cell (i + 1) (j - 1)])
  /\ (pos = THREE.mkVector3 (IZR i) (1 / 2) (IZR j + 1 / 2) ->
      getBlockPos (block lvl) = [cell i j; cell i (j + 1)]
      /\ after posX = [cell (i + 1) j; cell (i + 1) (j + 1)]
      /\ after negX = [cell (i - 1) j; cell (i - 1) (j + 1)]
      /\ after posZ = [cell i (j + 2)]
      /\ after negZ = [cell i (j - 1)]).
Proof.
  cbv zeta. split; [| split]; intros E.
  - destruct (offsets_standing lvl i j E) as [Ox Oz].
    split; [apply getBlockPos_standing; rewrite E; reflexivity |].
    split; [| split; [| split]].
    + replace (i + 2)%Z with (i + 1 + 1)%Z by lia.
      apply getBlockPos_lyingAlongX; roll_cells E Ox Oz.
    + replace (i - 1)%Z with (i - 2 + 1)%Z by lia.
      apply getBlockPos_lyingAlongX; roll_cells E Ox Oz.
    + replace (j + 2)%Z with (j + 1 + 1)%Z by lia.
      apply getBlockPos_lyingAlongZ; roll_cells E Ox Oz.
    + replace (j - 1)%Z with (j - 2 + 1)%Z by lia.
      apply getBlockPos_lyingAlongZ; roll_cells E Ox Oz.
  - destruct (offsets_lyingAlongX lvl i j E) as [Ox Oz].
    split; [apply getBlockPos_lyingAlongX; rewrite E; reflexivity |].
    split; [| split; [| split]].
    + apply getBlockPos_standing; roll_cells E Ox Oz.
    + apply getBlockPos_standing; roll_cells E Ox Oz.
    + apply (getBlockPos_lyingAlongX _ i (j + 1)); roll_cells E Ox Oz.
    + apply (getBlockPos_lyingAlongX _ i (j - 1)); roll_cells E Ox Oz.
  - destruct (offsets_lyingAlongZ lvl i j E) as [Ox Oz].
    split; [apply getBlockPos_lyingAlongZ; rewrite E; reflexivity |].
    split; [| split; [| split]].
    + apply (getBlockPos_lyingAlongZ _ (i + 1) j); roll_cells E Ox Oz.
    + apply (getBlockPos_lyingAlongZ _ (i - 1) j); roll_cells E Ox Oz.
    + apply getBlockPos_standing; roll_cells E Ox Oz.
    + apply getBlockPos_standing; roll_cells E Ox Oz.
Qed.

Ltac roll_to E Ox Oz :=
  rewrite roll_position; cbv zeta; rewrite E, ?Ox, ?Oz;
  cbn [THREE.x THREE.y THREE.z];
  rewrite ?twoPtRound_IZR, ?twoPtRound_half;
  apply Vector3_eq; cbn [THREE.x THREE.y THREE.z];
  rewrite ?plus_IZR, ?minus_IZR; lra.

(** Where each roll takes the centre of a standing block. *)
Lemma roll_standing (lvl : Level) (i j : Z) :
  THREE.position (block lvl) = THREE.mkVector3 (IZR i) 1 (IZR j) ->
  let after := fun rotDir => THREE.position (block (roll lvl rotDir)) in
  after posX = THREE.mkVector3 (IZR (i + 1) + 1 / 2) (1 / 2) (IZR j)
  /\ after negX = THREE.mkVector3 (IZR (i - 2) + 1 / 2) (1 / 2) (IZR j)
  /\ after posZ = THREE.mkVector3 (IZR i) (1 / 2) (IZR (j + 1) + 1 / 2)
  /\ after negZ = THREE.mkVector3 (IZR i) (1 / 2) (IZR (j - 2) + 1 / 2).
Proof.
  intros E. destruct (offsets_standing lvl i j E) as [Ox Oz].
  cbv zeta. repeat split; roll_to E Ox Oz.
Qed.

Lemma roll_lyingAlongX (lvl : Level) (i j : Z) :
  THREE.position (block lvl) = THREE.mkVector3 (IZR i + 1 / 2) (1 / 2) (IZR j) ->
  let after := fun rotDir => THREE.position (block (roll lvl rotDir)) in
  after posX = THREE.mkVector3 (IZR (i + 2)) 1 (IZR j)
  /\ after negX = THREE.mkVector3 (IZR (i - 1)) 1 (IZR j)
  /\ after posZ = THREE.mkVector3 (IZR i + 1 / 2) (1 / 2) (IZR (j + 1))
  /\ after negZ = THREE.mkVector3 (IZR i + 1 / 2) (1 / 2) (IZR (j - 1)).
Proof.
  intros E. destruct (offsets_lyingAlongX lvl i j E) as [Ox Oz].
  cbv zeta. repeat split; roll_to E Ox Oz.
Qed.

Lemma roll_lyingAlongZ (lvl : Level) (i j : Z) :
  THREE.position (block lvl) = THREE.mkVector3 (IZR i) (1 / 2) (IZR j + 1 / 2) ->
  let after := fun rotDir => THREE.position (block (roll lvl rotDir)) in
  after posX = THREE.mkVector3 (IZR (i + 1)) (1 / 2) (IZR j + 1 / 2)
  /\ after negX = THREE.mkVector3 (IZR (i - 1)) (1 / 2) (IZR j + 1 / 2)
  /\ after posZ = THREE.mkVector3 (IZR i) 1 (IZR (j + 2))
  /\ after negZ = THREE.mkVector3 (IZR i) 1 (IZR (j - 1)).
Proof.
  intros E. destruct (offsets_lyingAlongZ lvl i j E) as [Ox Oz].
  cbv zeta. repeat split; roll_to E Ox Oz.
Qed.

Ltac same_pivot E O E' O' :=
  unfold rollPoint, rollAxis, rollAngle, rotationOf; cbn [opposite fst snd];
  rewrite E, E'; destruct O as [Ox Oz]; destruct O' as [Ox' Oz'];
  rewrite ?Ox, ?Oz, ?Ox', ?Oz';
  cbn [THREE.x THREE.y THREE.z THREE.Vector3_new];
  rewrite ?twoPtRound_IZR, ?twoPtRound_half;
  split; [apply Vector3_eq; cbn [THREE.x THREE.y THREE.z];
          rewrite ?plus_IZR, ?minus_IZR; lra
         | split; [reflexivity | lra]].

(** The roll back turns about the pivot and the axis of the roll, by the
    opposite angle. *)
Lemma rotationOf_opposite (lvl : Level) (rotDir : dirEnum) :
  Pose (THREE.position (block lvl)) ->
  rollPoint (roll lvl rotDir) (opposite rotDir) = rollPoint lvl rotDir
  /\ rollAxis (roll lvl rotDir) (opposite rotDir) = rollAxis lvl rotDir
  /\ rollAngle (roll lvl rotDir) (opposite rotDir) = - rollAngle lvl rotDir.
Proof.
  intros P. inversion P as [i j E | i j E | i j E]; symmetry in E.
  - destruct (roll_standing lvl i j E) as (E1 & E2 & E3 & E4).
    pose proof (offsets_standing lvl i j E) as O.
    destruct rotDir.
    + pose proof (offsets_lyingAlongX _ _ _ E1) as O'. same_pivot E O E1 O'.
    + pose proof (offsets_lyingAlongX _ _ _ E2) as O'. same_pivot E O E2 O'.
    + pose proof (offsets_lyingAlongZ _ _ _ E3) as O'. same_pivot E O E3 O'.
    + pose proof (offsets_lyingAlongZ _ _ _ E4) as O'. same_pivot E O E4 O'.
  - destruct (roll_lyingAlongX lvl i j E) as (E1 & E2 & E3 & E4).
    pose proof (offsets_lyingAlongX lvl i j E) as O.
    destruct rotDir.
    + pose proof (offsets_standing _ _ _ E1) as O'. same_pivot E O E1 O'.
    + pose proof (offsets_standing _ _ _ E2) as O'. same_pivot E O E2 O'.
    + pose proof (offsets_lyingAlongX _ _ _ E3) as O'. same_pivot E O E3 O'.
    + pose proof (offsets_lyingAlongX _ _ _ E4) as O'. same_pivot E O E4 O'.
  - destruct (roll_lyingAlongZ lvl i j E) as (E1 & E2 & E3 & E4).
    pose proof (offsets_lyingAlongZ lvl i j E) as O.
    destruct rotDir.
    + pose proof (offsets_lyingAlongZ _ _ _ E1) as O'. same_pivot E O E1 O'.
    + pose proof (offsets_lyingAlongZ _ _ _ E2) as O'. same_pivot E O E2 O'.
    + pose proof (offsets_standing _ _ _ E3) as O'. same_pivot E O E3 O'.
    + pose proof (offsets_standing _ _ _ E4) as O'. same_pivot E O E4 O'.
Qed.

Lemma roll_opposite (lvl : Level) (rotDir : dirEnum) :
  Pose (THREE.position (block lvl)) ->
  roll (roll lvl rotDir) (opposite rotDir) = lvl.
Proof.
  intros P. destruct (rotationOf_opposite lvl rotDir P) as (Ep & Ea & Eg).
  unfold roll at 1. rewrite Ep, Ea, Eg. unfold roll. cbn [block set_block].
  rewrite set_block_set_block.
  rewrite (rotateAroundWorldAxis_compose _ _ _ _ _ (normalized_rollAxis lvl rotDir)).
  replace (- rollAngle lvl rotDir + rollAngle lvl rotDir) with 0 by ring.
  rewrite rotateAroundWorldAxis_zero. apply set_block_block.
Qed.

(** X3: from a resting pose, the roll in the opposite direction turns the
    block back about the same pivot: after a roll and the roll back the
    block has exactly the position and the orientation it had, and the
    engine accepts the roll back whenever the block rested on tiles. *)
Theorem X3_roll_back (lvl : Level) (rotDir : dirEnum) :
  Pose (THREE.position (block lvl)) ->
  roll (roll lvl rotDir) (opposite rotDir) = lvl
  /\ ((forall c, In c (getBlockPos (block lvl)) -> tiled lvl c) ->
      accepted (roll lvl rotDir) (opposite rotDir) = true).
Proof.
  intros P. pose proof (roll_opposite lvl rotDir P) as E. split; [exact E |].
  intros T. apply isValidRotation_tiled.
  change (getRotatedClone (block (roll lvl rotDir))
            (rollPoint (roll lvl rotDir) (opposite rotDir))
            (rollAxis (roll lvl rotDir) (opposite rotDir))
            (rollAngle (roll lvl rotDir) (opposite rotDir)))
    with (block (roll (roll lvl rotDir) (opposite rotDir))).
  rewrite E. apply Forall_forall. intros c Hc.
  destruct (T c Hc) as (tile & Hin & Hx & Hz). exists tile. auto.
Qed.

(** Level 0: the first roll to the left, and back. *)
Lemma X2_roll_table_witness :
  getBlockPos (block (roll startLevel negX)) = [cell (5 - 2) 1; cell (5 - 1) 1].
Proof.
  exact (proj1 (proj2 (proj2 (proj1 (X2_roll_table startLevel 5 1) eq_refl)))).
Defined.

Lemma X3_roll_back_witness : roll (roll startLevel negX) (opposite negX) = startLevel.
Proof. exact (proj1 (X3_roll_back startLevel negX Pose_startLevel)). Defined.

Lemma boardFromRow_cons (c : string) (row : list string) (i j : nat)
    (acc : list THREE.Mesh * option THREE.Mesh) :
  exists acc',
    boardFromRow (c :: row) i j acc = boardFromRow row i (S j) acc'
    /\ (forall tile, In tile (fst acc') <-> In tile (fst acc) \/ tileFor c i j tile)
    /\ (forall w, snd acc' = Some w <->
                  (c <> "□"%string /\ snd acc = Some w)
                  \/ (c = "□"%string /\ tileFor c i j w)).
Proof.
  cbn [boardFromRow]. eexists. split; [reflexivity |].
  unfold tileFor.
  destruct (String.eqb_spec c " ") as [-> | N1]; cbn [negb].
  - split.
    + intros tile. split; [auto |]. intros [H | [[H _] | [H _]]]; [exact H | |]; discriminate H.
    + intros w. split.
      * intros H. left. split; [discriminate | exact H].
      * intros [[_ H] | [H _]]; [exact H | discriminate H].
  - destruct (String.eqb_spec c "■") as [-> | N2].
    + cbn [fst snd]. split.
      * intros tile. rewrite in_app_iff. cbn [In]. split.
        -- intros [H | [<- | []]]; auto.
        -- intros [H | [[_ ->] | [H _]]]; [auto | auto | discriminate H].
      * intros w. split.
        -- intros H. left. split; [discriminate | exact H].
        -- intros [[_ H] | [H _]]; [exact H | discriminate H].
    + destruct (String.eqb_spec c "□") as [-> | N3].
      * cbn [fst snd]. split.
        -- intros tile. rewrite in_app_iff. cbn [In]. split.
           ++ intros [H | [<- | []]]; auto.
           ++ intros [H | [[H _] | [_ ->]]]; [auto | discriminate H | auto].
        -- intros w. split.
           ++ intros [= <-]. right. auto.
           ++ intros [[H _] | [_ [[H _] | [_ ->]]]];
                [contradiction | discriminate H | reflexivity].
      * split.
        -- intros tile. split; [auto |]. intros [H | [[H _] | [H _]]]; [exact H | |]; contradiction.
        -- intros w. split.
           ++ intros H. left. auto.
           ++ intros [[_ H] | [H _]]; [exact H | contradiction].
Qed.

Lemma boardFromRow_In (row : list string) (i j : nat)
    (acc : list THREE.Mesh * option THREE.Mesh) (tile : THREE.Mesh) :
  In tile (fst (boardFromRow row i j acc))
  <-> In tile (fst acc)
      \/ exists k c, nth_error row k = Some c /\ tileFor c i (j + k) tile.
Proof.
  revert j acc. induction row as [| c row IH]; intros j acc.
  - cbn [boardFromRow]. split; [auto |].
    intros [H | (k & c & H & _)]; [exact H |]. destruct k; discriminate H.
  - destruct (boardFromRow_cons c row i j acc) as (acc' & -> & Hin & _).
    rewrite IH, Hin. split.
    + intros [[H | H] | (k & c' & Hk & T)].
      * now left.
      * right. exists 0%nat, c. rewrite Nat.add_0_r. auto.
      * right. exists (S k), c'. rewrite <- plus_n_Sm. auto.
    + intros [H | (k & c' & Hk & T)]; [auto |].
      destruct k as [| k].
      * cbn in Hk. injection Hk as <-. rewrite Nat.add_0_r in T. auto.
      * right. exists k, c'. rewrite <- plus_n_Sm in T. auto.
Qed.

Lemma boardFromRows_In (layout : list (list string)) (i : nat)
    (acc : list THREE.Mesh * option THREE.Mesh) (tile : THREE.Mesh) :
  In tile (fst (boardFromRows layout i acc))
  <-> In tile (fst acc)
      \/ exists r k c, layoutAt layout r k = Some c /\ tileFor c (i + r) k tile.
Proof.
  revert i acc. induction layout as [| row layout IH]; intros i acc.
  - cbn [boardFromRows]. split; [auto |].
    intros [H | (r & k & c & H & _)]; [exact H |]. destruct r; discriminate H.
  - cbn [boardFromRows]. rewrite IH, boardFromRow_In. split.
    + intros [[H | (k & c & Hk & T)] | (r & k & c & Hk & T)].
      * now left.
      * right. exists 0%nat, k, c. rewrite Nat.add_0_r. auto.
      * right. exists (S r), k, c. rewrite <- plus_n_Sm. auto.
    + intros [H | (r & k & c & Hk & T)]; [auto |].
      destruct r as [| r].
      * left. right. exists k, c. rewrite Nat.add_0_r in T. auto.
      * right. exists r, k, c. rewrite <- plus_n_Sm in T. auto.
Qed.

Lemma boardFromRow_winTile_inv (row : list string) (i j : nat)
    (acc : list THREE.Mesh * option THREE.Mesh) (w : THREE.Mesh) :
  snd (boardFromRow row i j acc) = Some w ->
  snd acc = Some w
  \/ exists k, nth_error row k = Some "□"%string /\ tileFor "□" i (j + k) w.
Proof.
  revert j acc. induction row as [| c row IH]; intros j acc.
  - cbn [boardFromRow]. auto.
  - destruct (boardFromRow_cons c row i j acc) as (acc' & -> & _ & Hw).
    intros H. apply IH in H. destruct H as [H | (k & Hk & T)].
    + apply Hw in H. destruct H as [[_ H] | [-> T]]; [auto |].
      right. exists 0%nat. rewrite Nat.add_0_r. auto.
    + right. exists (S k). rewrite <- plus_n_Sm. auto.
Qed.

Lemma boardFromRows_winTile_inv (layout : list (list string)) (i : nat)
    (acc : list THREE.Mesh * option THREE.Mesh) (w : THREE.Mesh) :
  snd (boardFromRows layout i acc) = Some w ->
  snd acc = Some w
  \/ exists r k, layoutAt layout r k = Some "□"%string /\ tileFor "□" (i + r) k w.
Proof.
  revert i acc. induction layout as [| row layout IH]; intros i acc.
  - cbn [boardFromRows]. auto.
  - cbn [boardFromRows]. intros H. apply IH in H. destruct H as [H | (r & k & Hk & T)].
    + apply boardFromRow_winTile_inv in H. destruct H as [H | (k & Hk & T)]; [auto |].
      right. exists 0%nat, k. rewrite Nat.add_0_r. auto.
    + right. exists (S r), k. rewrite <- plus_n_Sm. auto.
Qed.

Lemma hasHole_layoutAt (layout : list (list string)) :
  hasHole layout = true <-> exists i j, layoutAt layout i j = Some "□"%string.
Proof.
  unfold hasHole. rewrite existsb_exists. split.
  - intros (row & Hrow & H). apply existsb_exists in H. destruct H as (c & Hc & E).
    apply String.eqb_eq in E. subst c.
    apply In_nth_error in Hrow. destruct Hrow as [i Hi].
    apply In_nth_error in Hc. destruct Hc as [j Hj].
    exists i, j. unfold layoutAt. now rewrite Hi.
  - intros (i & j & H). unfold layoutAt in H.
    destruct (nth_error layout i) as [row |] eqn:Hi; [| discriminate].
    exists row. split; [now apply nth_error_In in Hi |].
    apply existsb_exists. exists "□"%string. split; [now apply nth_error_In in H |].
    apply String.eqb_refl.
Qed.

Lemma boardFromLayout_In (layout : list (list string)) (tile : THREE.Mesh) :
  In tile (fst (boardFromLayout layout))
  <-> exists i j c, layoutAt layout i j = Some c /\ tileFor c i j tile.
Proof.
  unfold boardFromLayout. rewrite boardFromRows_In. cbn [fst In plus].
  split; [intros [[] | H]; exact H | auto].
Qed.

Lemma boardFromLayout_winTile_inv (layout : list (list string)) (w : THREE.Mesh) :
  snd (boardFromLayout layout) = Some w ->
  exists i j, layoutAt layout i j = Some "□"%string /\ tileFor "□" i j w.
Proof.
  intros H. unfold boardFromLayout in H. apply boardFromRows_winTile_inv in H.
  cbn [snd plus] in H. destruct H as [H | H]; [discriminate H | exact H].
Qed.


(** *** The block stays on the board *)

Lemma array_get_combine {A B : Type} (a : list A) (b : list B) (n : Z) (u : A) (v : B) :
  array_get a n = Some u -> array_get b n = Some v -> In (u, v) (combine a b).
Proof.
  unfold array_get. destruct (n <? 0)%Z; [discriminate |].
  generalize (Z.to_nat n). clear n. intros n. revert b n.
  induction a as [| a0 a IH]; intros b n Ha Hb; [destruct n; discriminate Ha |].
  destruct b as [| b0 b]; [destruct n; discriminate Hb |].
  destruct n as [| n]; cbn in *.
  - injection Ha as <-. injection Hb as <-. now left.
  - right. now apply (IH b n).
Qed.

(** In every level the block starts on a filled square of the layout. *)
Lemma start_cells_filled :
  forallb (fun '(layout, (px, pz)) =>
             match layoutAt layout (Z.to_nat pz) (Z.to_nat px) with
             | Some c => (c =? "■")%string
             | None => false
             end && (0 <=? px)%Z && (0 <=? pz)%Z)
          (combine _LAYOUTS _BLOCK_POSITIONS) = true.
Proof. vm_compute. reflexivity. Qed.

Lemma Level_new_start (n : Z) (level0 : Level) :
  Level_new n = Some level0 ->
  exists layout px pz,
    board level0 = fst (boardFromLayout layout)
    /\ winTile level0 = snd (boardFromLayout layout)
    /\ THREE.position (block level0) = THREE.mkVector3 (IZR px) 1 (IZR pz)
    /\ layoutAt layout (Z.to_nat pz) (Z.to_nat px) = Some "■"%string
    /\ (0 <= px)%Z /\ (0 <= pz)%Z.
Proof.
  intros H. apply Level_new_inv in H. destruct H as (layout & [px pz] & EL & EP & ->).
  exists layout, px, pz. cbn [board winTile block].
  split; [reflexivity |]. split; [reflexivity |]. split; [reflexivity |].
  pose proof start_cells_filled as F. rewrite forallb_forall in F.
  specialize (F _ (array_get_combine _ _ _ _ _ EL EP)). cbn beta iota in F.
  apply andb_true_iff in F. destruct F as [F Hz].
  apply andb_true_iff in F. destruct F as [F Hx].
  apply Z.leb_le in Hx. apply Z.leb_le in Hz.
  destruct (layoutAt layout (Z.to_nat pz) (Z.to_nat px)) as [c |]; [| discriminate F].
  apply String.eqb_eq in F. subst c. auto.
Qed.

Lemma reachable_tiled (level0 lvl : Level) :
  (forall c, In c (getBlockPos (block level0)) -> tiled level0 c) ->
  reachable level0 lvl ->
  forall c, In c (getBlockPos (block lvl)) -> tiled lvl c.
Proof.
  intros T0 R. induction R as [| lvl rotDir R IH A]; [exact T0 |].
  apply isValidRotation_tiled in A. rewrite Forall_forall in A.
  intros c Hc. destruct (A c Hc) as (tile & Hin & Hx & Hz). exists tile. auto.
Qed.

(** X5: in every level the block starts standing on a tile of the board
    that is not the winning tile, and after any sequence of accepted rolls
    every cell it occupies is the cell of a tile. *)
Theorem X5_block_on_tiles (n : Z) (level0 : Level) :
  Level_new n = Some level0 ->
  (exists i j,
      getBlockPos (block level0) = [cell i j]
      /\ tiled level0 (cell i j)
      /\ _checkForWin level0 = Some false)
  /\ (forall lvl,
        reachable level0 lvl ->
        forall c, In c (getBlockPos (block lvl)) -> tiled lvl c).
Proof.
  intros L.
  destruct (Level_new_start n level0 L) as (layout & px & pz & B & W & E & F & Hx & Hz).
  assert (C : getBlockPos (block level0) = [cell px pz])
    by (apply getBlockPos_standing; rewrite E; reflexivity).
  assert (T : tiled level0 (cell px pz)).
  { exists (createTile (IZR px) (IZR pz)). split; [| split; reflexivity].
    rewrite B. apply boardFromLayout_In.
    exists (Z.to_nat pz), (Z.to_nat px), "■"%string. split; [exact F |].
    left. split; [reflexivity |]. now rewrite !Z2Nat.id. }
  split.
  - exists px, pz. split; [exact C |]. split; [exact T |].
    unfold _checkForWin, blockPos. rewrite C.
    destruct (Level_new_winTile n level0 L) as (w & Ew & _). rewrite Ew. f_equal.
    rewrite W in Ew. apply boardFromLayout_winTile_inv in Ew.
    destruct Ew as (i & j & H & [[D _] | [_ ->]]); [discriminate D |].
    cbn [cell x z createTile THREE.set_visible THREE.set_position THREE.position
         THREE.x THREE.z].
    apply andb_false_iff.
    destruct (Z.eq_dec px (Z.of_nat j)) as [-> | Nx].
    + destruct (Z.eq_dec pz (Z.of_nat i)) as [-> | Nz].
      * rewrite !Nat2Z.id in F. congruence.
      * right. apply strict_eq_false. intros Q. apply eq_IZR in Q. contradiction.
    + left. apply strict_eq_false. intros Q. apply eq_IZR in Q. contradiction.
  - intros lvl R. apply (reachable_tiled level0 lvl); [| exact R].
    intros c Hc. rewrite C in Hc. destruct Hc as [<- | []]. exact T.
Qed.


(** Level 0 after its first roll to the left. *)
Lemma X5_block_on_tiles_witness :
  Forall (tiled (roll startLevel negX)) (getBlockPos (block (roll startLevel negX))).
Proof.
  apply Forall_forall.
  refine (proj2 (X5_block_on_tiles 0 startLevel Level_new_0) (roll startLevel negX) _).
  apply reachable_roll; [apply reachable_start | exact accepted_startLevel_negX].
Defined.

(** *** Drift *)












(** *** Rigid motion *)

Lemma sandwich_length (v : THREE.Vector3) (q : THREE.Quaternion) :
  dot (sandwich v q) (sandwich v q) = norm2 q * norm2 q * dot v v.
Proof.
  destruct v, q. unfold dot, sandwich, norm2. cbn. ring.
Qed.

Lemma applyQuaternion_along_axis (v axis : THREE.Vector3) (angle : R) :
  dot (THREE.applyQuaternion v (THREE.setFromAxisAngle axis angle)) axis = dot v axis.
Proof.
  destruct v, axis. unfold dot, THREE.applyQuaternion, THREE.setFromAxisAngle. cbn. ring.
Qed.

(** X7: [rotateAroundWorldAxis] about a normalized axis is a rigid motion
    about the pivot: it keeps the distance of the object to the pivot, its
    coordinate along the axis, the norm of its quaternion and its
    visibility; an object at the pivot stays there; and the turn by the
    opposite angle undoes it. *)
Theorem X7_rotateAroundWorldAxis_rigid
    (o : THREE.Mesh) (point axis : THREE.Vector3) (angle : R) :
  normalized axis ->
  let o' := rotateAroundWorldAxis o point axis angle in
  distanceToSquared (THREE.position o') point = distanceToSquared (THREE.position o) point
  /\ dot (THREE.sub (THREE.position o') point) axis
     = dot (THREE.sub (THREE.position o) point) axis
  /\ norm2 (THREE.quaternion o') = norm2 (THREE.quaternion o)
  /\ THREE.visible o' = THREE.visible o
  /\ (THREE.position o = point -> THREE.position o' = point)
  /\ rotateAroundWorldAxis o' point axis (- angle) = o.
Proof.
  intros N o'. subst o'.
  pose proof (norm2_setFromAxisAngle axis angle N) as Nq.
  split; [| split; [| split; [| split; [| split]]]].
  - rewrite position_rotateAroundWorldAxis.
    pose proof (sandwich_length (THREE.sub (THREE.position o) point)
                  (THREE.setFromAxisAngle axis angle)) as L.
    rewrite <- (applyQuaternion_sandwich _ _ Nq), Nq in L.
    destruct (THREE.applyQuaternion _ _) as [a b c].
    destruct (THREE.position o) as [u v w]. destruct point as [px py pz].
    unfold distanceToSquared, dot, THREE.add, THREE.sub in *.
    cbn [THREE.x THREE.y THREE.z] in *. lra.
  - rewrite position_rotateAroundWorldAxis, sub_add_cancel.
    apply applyQuaternion_along_axis.
  - unfold rotateAroundWorldAxis, THREE.Object3D_applyQuaternion, THREE.set_position,
      THREE.premultiply. cbn [THREE.quaternion].
    rewrite norm2_multiply, Nq. ring.
  - reflexivity.
  - intros E. rewrite position_rotateAroundWorldAxis, E.
    destruct point as [px py pz]. unfold THREE.add, THREE.sub, THREE.applyQuaternion.
    cbn [THREE.x THREE.y THREE.z]. apply Vector3_eq; cbn [THREE.x THREE.y THREE.z]; ring.
  - rewrite (rotateAroundWorldAxis_compose _ _ _ _ _ N).
    replace (- angle + angle) with 0 by ring. apply rotateAroundWorldAxis_zero.
Qed.

(** A block standing on (0,0), turned as for a roll in +X. *)
Lemma X7_rotateAroundWorldAxis_rigid_witness :
  rotateAroundWorldAxis
    (rotateAroundWorldAxis (blockAt (THREE.mkVector3 0 1 0))
       (THREE.mkVector3 (1 / 2) 0 0) zAxis (- ninetyDegRad))
    (THREE.mkVector3 (1 / 2) 0 0) zAxis (- - ninetyDegRad)
  = blockAt (THREE.mkVector3 0 1 0).
Proof.
  apply (X7_rotateAroundWorldAxis_rigid (blockAt (THREE.mkVector3 0 1 0))
           (THREE.mkVector3 (1 / 2) 0 0) zAxis (- ninetyDegRad) normalized_zAxis).
Defined.

(** *** A refused roll *)

Lemma bounce_angle (lvl : Level) (rotDir : dirEnum) :
  JS.Math_PI / (6 * snd (rotationOf lvl rotDir)) = rollAngle lvl rotDir / 3.
Proof.
  unfold rollAngle, rotationOf, ninetyDegRad. destruct rotDir; cbn [snd]; field.
Qed.

(** X8: a refused roll tilts the block by a third of the quarter turn, 30
    degrees towards the requested side about the pivot of the roll, in
    eighteen intervals, and back in eighteen more; every roll request made
    on the way is dropped; and after the thirty-six intervals the session
    is exactly what it was before the request. *)
Theorem X8_refused_roll_bounces (rotDir : dirEnum) (st : Game) :
  idle st -> timers st = [] -> accepted (level st) rotDir = false ->
  let run := fun n => Nat.iter n (fire 0) (handleBlockMovement rotDir st) in
  block (level (run 18%nat))
  = rotateAroundWorldAxis (block (level st)) (rollPoint (level st) rotDir)
      (rollAxis (level st) rotDir) (rollAngle (level st) rotDir / 3)
  /\ (forall n, (n < 36)%nat ->
        animationPlaying (run n) = true
        /\ forall rotDir', handleBlockMovement rotDir' (run n) = run n)
  /\ run 36%nat = st.
Proof.
  intros Hidle T A run.
  split; [| split].
  - subst run. cbv beta. rewrite (handleBlockMovement_idle rotDir st Hidle), A.
    destruct (bouncingBackward_iter st (rollPoint (level st) rotDir)
                (rollAxis (level st) rotDir)
                (JS.Math_PI / (6 * snd (rotationOf (level st) rotDir))) 0 T)
      as (_ & _ & _ & _ & _ & _ & L); [lia |].
    change (18 + 0)%nat with 18%nat in L. rewrite L. cbn [block set_block].
    change (Nat.iter 0 ?f ?x) with x.
    rewrite (rotateAroundWorldAxis_iter 18 _ _ _ _ (normalized_rollAxis _ _)).
    rewrite bounce_angle.
    replace (INR 18 * (rollAngle (level st) rotDir / 3 / 18))
      with (rollAngle (level st) rotDir / 3); [reflexivity |].
    rewrite INR_IZR_INZ. cbn [Z.of_nat Pos.of_succ_nat Pos.succ]. field.
  - intros n Hn.
    assert (F : animationPlaying (run n) = true).
    { apply in_flight_flag; [exact Hidle | exact T |]. now rewrite A. }
    split; [exact F |]. intros rotDir'. apply handleBlockMovement_busy. now left.
  - now apply refused_roll_completes.
Qed.

Lemma refused_halfSupportedLevel :
  accepted halfSupportedLevel posZ = false.
Proof.
  apply isValidRotation_untiled.
  exists (mkVector2XZ (0 + 1) (0 + 1)). split.
  - change (getRotatedClone (block halfSupportedLevel) (rollPoint halfSupportedLevel posZ)
              (rollAxis halfSupportedLevel posZ) (rollAngle halfSupportedLevel posZ))
      with (block (roll halfSupportedLevel posZ)).
    rewrite getBlockPos_roll_halfSupportedLevel. right. left. reflexivity.
  - intros (tile & [<- | [<- | [<- | []]]] & Hx & Hz);
      cbn [createTile THREE.set_position THREE.position THREE.x THREE.z x z] in Hx, Hz; lra.
Qed.

(** The half-supported block, asked to roll in +Z in an idle session. *)
Lemma X8_refused_roll_bounces_witness :
  let st := mkGame halfSupportedLevel (sceneOf halfSupportedLevel) camOffset false "hidden" 1 [] in
  Nat.iter 36 (fire 0) (handleBlockMovement posZ st) = st.
Proof.
  cbv zeta.
  apply (X8_refused_roll_bounces posZ
           (mkGame halfSupportedLevel (sceneOf halfSupportedLevel) camOffset false "hidden" 1 [])).
  - split; [reflexivity | discriminate].
  - reflexivity.
  - exact refused_halfSupportedLevel.
Defined.

(** *** The camera during a roll *)

Lemma cameraAfter_0 (F c0 : THREE.Vector3) : cameraAfter F c0 0 = c0.
Proof.
  destruct F, c0. unfold cameraAfter, multiplyScalar, THREE.add, THREE.sub, camOffset.
  cbn [THREE.x THREE.y THREE.z INR pow]. apply Vector3_eq; cbn [THREE.x THREE.y THREE.z]; ring.
Qed.

Lemma cameraAfter_S (F c0 : THREE.Vector3) (n : nat) :
  THREE.lerp (cameraAfter F c0 n)
             (THREE.add (THREE.add F (multiplyScalar camOffset (INR n))) camOffset) (1 / 18)
  = cameraAfter F c0 (S n).
Proof.
  destruct F, c0. unfold cameraAfter, multiplyScalar, THREE.lerp, THREE.add, THREE.sub, camOffset.
  rewrite S_INR. cbn [THREE.x THREE.y THREE.z pow].
  apply Vector3_eq; cbn [THREE.x THREE.y THREE.z]; field.
Qed.

Lemma tracking_start (st0 : Game) (p a : THREE.Vector3) (g : R) :
  timers st0 = [] ->
  tracking (THREE.position (getRotatedClone (block (level st0)) p a g)) (camera st0) 0
           (animateRotation p a g st0).
Proof.
  intros T. unfold tracking, animateRotation, setTimer. cbn [timers camera set_timers
    set_animationPlaying]. rewrite T. split.
  - do 5 eexists. split; [reflexivity |].
    destruct (THREE.position _) as [u v w]. unfold THREE.add, multiplyScalar, camOffset.
    cbn [THREE.x THREE.y THREE.z INR]. apply Vector3_eq; cbn [THREE.x THREE.y THREE.z]; ring.
  - symmetry. apply cameraAfter_0.
Qed.

Lemma tracking_camera (F c0 : THREE.Vector3) (n : nat) (st : Game) :
  tracking F c0 n st ->
  camera (fire 0 st)
  = THREE.lerp (camera st) (THREE.add F (multiplyScalar camOffset (INR (S n)))) (1 / 18)
  /\ camera (fire 0 st) = cameraAfter F c0 (S n).
Proof.
  intros [(p & a & g & fb & rest & T & Hfb) C].
  assert (E : camera (fire 0 st)
              = THREE.lerp (camera st) (THREE.add (THREE.position fb) camOffset) (1 / 18)).
  { unfold fire. rewrite T. cbn [nth_error]. unfold rotationAnimation_callback.
    destruct (Z.of_nat n + 1 =? 18)%Z; [| reflexivity].
    match goal with |- context [_checkForWin ?l] => destruct (_checkForWin l) as [[|] |] end;
      reflexivity. }
  rewrite E, Hfb. split.
  - f_equal. destruct F. unfold THREE.add, multiplyScalar, camOffset. rewrite S_INR.
    cbn [THREE.x THREE.y THREE.z]. apply Vector3_eq; cbn [THREE.x THREE.y THREE.z]; ring.
  - rewrite C. apply cameraAfter_S.
Qed.

Lemma tracking_step (F c0 : THREE.Vector3) (n : nat) (st : Game) :
  tracking F c0 n st -> (S n < 18)%nat -> tracking F c0 (S n) (fire 0 st).
Proof.
  intros H Hn. split; [| apply (tracking_camera F c0 n st H)].
  destruct H as [(p & a & g & fb & rest & T & Hfb) C].
  unfold fire. rewrite T. cbn [nth_error]. unfold rotationAnimation_callback.
  destruct (Z.eqb_spec (Z.of_nat n + 1) 18) as [E | _]; [lia |].
  cbn [timers set_timers set_level_block set_level set_camera]. rewrite T. cbn [replace_at].
  do 5 eexists. split.
  - do 2 f_equal. lia.
  - cbn [THREE.position THREE.set_position]. rewrite Hfb.
    destruct F. unfold THREE.add, multiplyScalar, camOffset. rewrite S_INR.
    cbn [THREE.x THREE.y THREE.z]. apply Vector3_eq; cbn [THREE.x THREE.y THREE.z]; ring.
Qed.

Lemma tracking_iter (st0 : Game) (p a : THREE.Vector3) (g : R) (n : nat) :
  timers st0 = [] -> (n < 18)%nat ->
  tracking (THREE.position (getRotatedClone (block (level st0)) p a g)) (camera st0) n
           (Nat.iter n (fire 0) (animateRotation p a g st0)).
Proof.
  intros T. induction n as [| n IH]; intros Hn.
  - now apply tracking_start.
  - rewrite Nat.iter_succ. apply tracking_step; [apply IH; lia | exact Hn].
Qed.

(** X9: the camera during an accepted roll.  [futureBlock.position.add]
    moves the clone itself, so the point the camera is drawn to moves on by
    [camOffset] at every interval: the n-th interval takes the camera one
    eighteenth of the way to the position of the rolled block plus n times
    [camOffset].  Hence the closed form [cameraAfter] of its position. *)
Theorem X9_camera_tracking (rotDir : dirEnum) (st : Game) (n : nat) :
  idle st -> timers st = [] -> accepted (level st) rotDir = true -> (n < 18)%nat ->
  let F := THREE.position (block (roll (level st) rotDir)) in
  let run := fun n => Nat.iter n (fire 0) (handleBlockMovement rotDir st) in
  camera (run 0%nat) = camera st
  /\ camera (run (S n))
     = THREE.lerp (camera (run n)) (THREE.add F (multiplyScalar camOffset (INR (S n)))) (1 / 18)
  /\ camera (run (S n)) = cameraAfter F (camera st) (S n).
Proof.
  intros Hidle T A Hn F run. subst run. cbv beta.
  rewrite (handleBlockMovement_idle rotDir st Hidle), A.
  split; [reflexivity |]. rewrite Nat.iter_succ.
  apply (tracking_camera F (camera st) n).
  apply (tracking_iter st _ _ _ n T Hn).
Qed.

(** The first interval of the first roll to the left in level 0. *)
Lemma X9_camera_tracking_witness :
  camera (fire 0 (handleBlockMovement negX startGame))
  = cameraAfter (THREE.position (block (roll startLevel negX))) (camera startGame) 1.
Proof.
  apply (X9_camera_tracking negX startGame 0 idle_startGame eq_refl accepted_startLevel_negX).
  lia.
Defined.

(** *** The slide into the hole *)

Lemma sunk_eq (st : Game) (d e : R) : d = e -> sunk st d = sunk st e.
Proof. now intros ->. Qed.

Lemma sunk_0 (st : Game) : sunk st 0 = st.
Proof.
  destruct st as [[tl ln bd [[px py pz] q v] wt] sc cam ap pw op tm].
  unfold sunk, set_level_block, set_level, set_block, THREE.set_position.
  cbn [level block THREE.position THREE.x THREE.y THREE.z scene camera animationPlaying
       pauseWindowBox opacity timers totalLevels levelNum board winTile THREE.quaternion
       THREE.visible].
  now rewrite Rminus_0_r.
Qed.

Lemma sunk_y (st : Game) (d : R) :
  THREE.y (THREE.position (block (level (sunk st d))))
  = THREE.y (THREE.position (block (level st))) - d.
Proof. reflexivity. Qed.

(** One interval of the slide while the block is above -0.9. *)
Lemma winAnimation_lowers (st : Game) (d : R) :
  timers st = [winAnimation] ->
  - (9 / 10) <= twoPtRound (THREE.y (THREE.position (block (level st))) - d) ->
  fire 0 (sunk st d) = sunk st (d + 1 / 10).
Proof.
  intros T H. unfold fire. change (timers (sunk st d)) with (timers st). rewrite T.
  cbn [nth_error]. unfold winAnimation_callback. rewrite sunk_y.
  unfold JS.ge. destruct (Rle_dec _ _) as [_ | N]; [| contradiction].
  destruct st as [[tl ln bd [[px py pz] q v] wt] sc cam ap pw op tm].
  unfold sunk, set_level_block, set_level, set_block, THREE.set_position.
  cbn [level block THREE.position THREE.x THREE.y THREE.z scene camera animationPlaying
       pauseWindowBox opacity timers totalLevels levelNum board winTile THREE.quaternion
       THREE.visible].
  do 4 f_equal. ring.
Qed.

Lemma twoPtRound_tenths (k : nat) : twoPtRound (1 - INR k / 10) = 1 - INR k / 10.
Proof.
  rewrite INR_IZR_INZ.
  replace (1 - IZR (Z.of_nat k) / 10) with (IZR (100 - 10 * Z.of_nat k) / 100)
    by (rewrite minus_IZR, mult_IZR; field).
  apply twoPtRound_centi.
Qed.

Lemma slide_iter (st : Game) (k : nat) :
  timers st = [winTimeout] ->
  THREE.y (THREE.position (block (level st))) = 1 ->
  (k <= 20)%nat ->
  Nat.iter (S k) (fire 0) st = sunk (set_timers st [winAnimation]) (INR k / 10).
Proof.
  intros T Y. induction k as [| k IH]; intros Hk.
  - change (Nat.iter 1 (fire 0) st) with (fire 0 st). cbn [INR].
    replace (0 / 10) with 0 by field. rewrite sunk_0.
    unfold fire. rewrite T. cbn [nth_error].
    unfold winTimeout_callback, setTimer, clearTimer.
    cbn [timers set_timers]. rewrite T. reflexivity.
  - rewrite Nat.iter_succ, IH by lia.
    rewrite winAnimation_lowers.
    + apply sunk_eq. rewrite S_INR. field.
    + reflexivity.
    + change (level (set_timers st [winAnimation])) with (level st). rewrite Y.
      rewrite twoPtRound_tenths.
      assert (INR k <= 19) by (replace 19 with (INR 19) by (cbn; lra); apply le_INR; lia).
      lra.
Qed.

Lemma slide_ends (st : Game) :
  timers st = [winTimeout] ->
  THREE.y (THREE.position (block (level st))) = 1 ->
  Nat.iter 22 (fire 0) st = sunk (set_timers st [winFadeTimeout]) 2.
Proof.
  intros T Y. rewrite Nat.iter_succ, (slide_iter st 20 T Y) by lia.
  replace (INR 20 / 10) with 2 by (rewrite INR_IZR_INZ; cbn; field).
  unfold fire. change (timers (sunk (set_timers st [winAnimation]) 2)) with [winAnimation].
  cbn [nth_error]. unfold winAnimation_callback. rewrite sunk_y.
  change (level (set_timers st [winAnimation])) with (level st). rewrite Y.
  replace (1 - 2) with (IZR (-1)) by lra. rewrite twoPtRound_IZR.
  unfold JS.ge. destruct (Rle_dec _ _) as [H | _]; [lra |].
  reflexivity.
Qed.

Lemma slide_requests (st : Game) :
  timers st = [winTimeout] ->
  THREE.y (THREE.position (block (level st))) = 1 ->
  Nat.iter 23 (fire 0) st = fadeOutInLevel 1 (sunk (set_timers st []) 2).
Proof.
  intros T Y. rewrite Nat.iter_succ, (slide_ends st T Y). reflexivity.
Qed.

(** X10: the slide after a win.  The timeout starts the slide; each of
    twenty intervals lowers the block by 0.1, from height 1 to height -1,
    leaving everything else in the session alone; the next interval ends the
    slide and waits for 100 ms, after which the next level is requested. *)
Theorem X10_win_slide (st : Game) :
  timers st = [winTimeout] ->
  THREE.y (THREE.position (block (level st))) = 1 ->
  (forall k, (k <= 20)%nat ->
     Nat.iter (S k) (fire 0) st = sunk (set_timers st [winAnimation]) (INR k / 10))
  /\ Nat.iter 22 (fire 0) st = sunk (set_timers st [winFadeTimeout]) 2
  /\ Nat.iter 23 (fire 0) st = fadeOutInLevel 1 (sunk (set_timers st []) 2)
  /\ ((0 <= levelNum (level st) + 1 <= totalLevels (level st))%Z ->
      Nat.iter 23 (fire 0) st
      = sunk (set_timers (set_animationPlaying st true) [fadeOutAnimation 1 20]) 2).
Proof.
  intros T Y.
  pose proof (slide_requests st T Y) as E.
  split; [intros k; apply (slide_iter st k T Y) |].
  split; [apply (slide_ends st T Y) |].
  split; [exact E |].
  intros H. rewrite E, fadeOutInLevel_in_range by exact H. reflexivity.
Qed.

(** Level 0 with the timeout of a win pending. *)
Lemma X10_win_slide_witness :
  Nat.iter 22 (fire 0) (set_timers startGame [winTimeout])
  = sunk (set_timers (set_timers startGame [winTimeout]) [winFadeTimeout]) 2.
Proof.
  apply (X10_win_slide (set_timers startGame [winTimeout])); reflexivity.
Defined.

(** *** Winning the last level *)

Lemma wins_standing (lvl : Level) :
  Pose (THREE.position (block lvl)) -> wins lvl = true ->
  THREE.y (THREE.position (block lvl)) = 1.
Proof.
  intros P W. inversion P as [i j E | i j E | i j E]; [reflexivity | |]; exfalso;
    unfold wins, _checkForWin, blockPos in W; symmetry in E.
  - rewrite (getBlockPos_lyingAlongX _ i j) in W by (rewrite E; reflexivity).
    destruct (winTile lvl); discriminate W.
  - rewrite (getBlockPos_lyingAlongZ _ i j) in W by (rewrite E; reflexivity).
    destruct (winTile lvl); discriminate W.
Qed.

Lemma last_level_slide (st : Game) :
  timers st = [winTimeout] ->
  THREE.y (THREE.position (block (level st))) = 1 ->
  (levelNum (level st) + 1 > totalLevels (level st))%Z ->
  Nat.iter 23 (fire 0) st = sunk (set_timers st []) 2.
Proof.
  intros T Y H. rewrite (slide_requests st T Y).
  apply fadeOutInLevel_out_of_range. right. exact H.
Qed.

Lemma roll_then_slide (rotDir : dirEnum) (st : Game) :
  idle st -> timers st = [] -> Pose (THREE.position (block (level st))) ->
  accepted (level st) rotDir = true -> wins (roll (level st) rotDir) = true ->
  exists st18,
    Nat.iter 18 (fire 0) (handleBlockMovement rotDir st) = st18
    /\ level st18 = roll (level st) rotDir
    /\ animationPlaying st18 = true
    /\ timers st18 = [winTimeout]
    /\ THREE.y (THREE.position (block (level st18))) = 1.
Proof.
  intros Hidle T P A W.
  destruct (accepted_roll_completes rotDir st Hidle T A) as (L & _ & F & Tm).
  rewrite W in F, Tm. eexists. split; [reflexivity |].
  split; [exact L |]. split; [exact F |]. split; [exact Tm |].
  rewrite L. apply wins_standing; [now apply roll_Pose | exact W].
Qed.

(** X11: winning the last level.  The request for the next level is out
    of range and returns at once, after [_animateWin] has set the busy flag:
    forty-one intervals after the winning key press no callback is pending,
    the flag is still set, the block is at height -1, and every roll request
    is dropped. *)
Theorem X11_last_level_win (rotDir : dirEnum) (st : Game) :
  idle st -> timers st = [] -> Pose (THREE.position (block (level st))) ->
  accepted (level st) rotDir = true -> wins (roll (level st) rotDir) = true ->
  (levelNum (level st) + 1 > totalLevels (level st))%Z ->
  let st' := Nat.iter (23 + 18) (fire 0) (handleBlockMovement rotDir st) in
  timers st' = []
  /\ animationPlaying st' = true
  /\ levelNum (level st') = levelNum (level st)
  /\ THREE.y (THREE.position (block (level st'))) = -1
  /\ (forall rotDir', handleBlockMovement rotDir' st' = st')
  /\ (forall k, fire k st' = st').
Proof.
  intros Hidle T P A W Hlast st'. subst st'. rewrite Nat.iter_add.
  destruct (roll_then_slide rotDir st Hidle T P A W) as (st18 & -> & L & F & Tm & Y).
  rewrite (last_level_slide st18 Tm Y) by (rewrite L; exact Hlast).
  split; [reflexivity |]. split; [exact F |].
  split; [change (levelNum (level st18) = levelNum (level st)); now rewrite L |].
  split; [rewrite sunk_y; change (level (set_timers st18 [])) with (level st18);
          rewrite Y; lra |].
  split.
  - intros rotDir'. apply handleBlockMovement_busy. left. exact F.
  - intros k. unfold fire. change (timers (sunk (set_timers st18 []) 2)) with (@nil Timer).
    now destruct k.
Qed.

Lemma accepted_lastRollLevel : accepted lastRollLevel posX = true.
Proof.
  apply isValidRotation_tiled.
  change (getRotatedClone (block lastRollLevel) (rollPoint lastRollLevel posX)
            (rollAxis lastRollLevel posX) (rollAngle lastRollLevel posX))
    with (block (roll lastRollLevel posX)).
  rewrite (getBlockPos_standing _ 2 0);
    try (rewrite (proj1 (roll_lyingAlongX lastRollLevel 0 0 eq_refl)); reflexivity).
  repeat constructor. exists lastHole. split; [right; right; left; reflexivity |].
  split; reflexivity.
Qed.

Lemma wins_lastRollLevel : wins (roll lastRollLevel posX) = true.
Proof.
  unfold wins, _checkForWin, blockPos.
  rewrite (getBlockPos_standing _ 2 0);
    try (rewrite (proj1 (roll_lyingAlongX lastRollLevel 0 0 eq_refl)); reflexivity).
  cbn [winTile roll set_block lastRollLevel lastHole createTile THREE.set_visible
       THREE.set_position THREE.position THREE.x THREE.z cell x z].
  now rewrite !strict_eq_refl.
Qed.

(** The last roll of the last level. *)
Lemma X11_last_level_win_witness :
  animationPlaying (Nat.iter (23 + 18) (fire 0) (handleBlockMovement posX lastRollGame)) = true.
Proof.
  refine (proj1 (proj2 (X11_last_level_win posX lastRollGame _ eq_refl _
                          accepted_lastRollLevel wins_lastRollLevel _))).
  - split; [reflexivity | discriminate].
  - apply lyingAlongX.
  - cbn [lastRollGame lastRollLevel level levelNum totalLevels]. lia.
Defined.

(** *** One interval of a fade *)

Lemma fire_fadeOut_tick (k : nat) (st : Game) (offset c : Z) :
  nth_error (timers st) k = Some (fadeOutAnimation offset c) -> c <> 0%Z ->
  fire k st
  = set_timers (set_opacity st (IZR c / 20))
      (replace_at k (fadeOutAnimation offset (c - 1)) (timers st)).
Proof.
  intros H Hc. unfold fire. rewrite H. unfold fadeOutAnimation_callback.
  destruct (Z.eqb_spec c 0) as [E | _]; [contradiction | reflexivity].
Qed.

Lemma fire_fadeOut_last (k : nat) (st : Game) (offset : Z) :
  nth_error (timers st) k = Some (fadeOutAnimation offset 0) ->
  fire k st
  = match changeLevel offset (clearTimer (set_opacity st (IZR 0 / 20)) k) with
    | Throws st' => st'
    | Returns st' => setTimer st' (fadeInAnimation (-1))
    end.
Proof. intros H. unfold fire. rewrite H. reflexivity. Qed.

Lemma fire_fadeIn_tick (k : nat) (st : Game) (c : Z) :
  nth_error (timers st) k = Some (fadeInAnimation c) -> c <> 20%Z ->
  fire k st
  = set_timers (set_opacity st (IZR c / 20))
      (replace_at k (fadeInAnimation (c + 1)) (timers st)).
Proof.
  intros H Hc. unfold fire. rewrite H. unfold fadeInAnimation_callback.
  destruct (Z.eqb_spec c 20) as [E | _]; [contradiction | reflexivity].
Qed.

Lemma fire_fadeIn_last (k : nat) (st : Game) :
  nth_error (timers st) k = Some (fadeInAnimation 20) ->
  fire k st = set_animationPlaying (clearTimer (set_opacity st (IZR 20 / 20)) k) false.
Proof. intros H. unfold fire. rewrite H. reflexivity. Qed.

Lemma fire_winFadeTimeout (k : nat) (st : Game) :
  nth_error (timers st) k = Some winFadeTimeout ->
  fire k st = fadeOutInLevel 1 (clearTimer st k).
Proof. intros H. unfold fire. rewrite H. reflexivity. Qed.

(** [changeLevel] does not look at the index: outside the layouts
    [new Level] throws, after the level has left the scene. *)
Lemma changeLevel_Throws (offset : Z) (st : Game) :
  Level_new (levelNum (level st) + offset) = None ->
  changeLevel offset st
  = Throws (set_scene st (scene_remove [theBlock]
                            (scene_remove (boardChildren (level st)) (scene st)))).
Proof. intros N. unfold changeLevel. cbn. rewrite N. reflexivity. Qed.

(** *** The tracked fields along the intervals *)

Lemma session_togglePause l sc flag ts st :
  session l sc flag ts st -> session l sc flag ts (togglePause st).
Proof. intros H. exact H. Qed.

Lemma session_fadeOutInLevel l sc flag ts st (offset : Z) :
  session l sc flag ts st ->
  (0 <= levelNum l + offset <= totalLevels l)%Z ->
  session l sc true (ts ++ [fadeOutAnimation offset 20]) (fadeOutInLevel offset st).
Proof.
  intros (L & S & A & T) H. rewrite fadeOutInLevel_in_range by (rewrite L; exact H).
  unfold session, setTimer. cbn. rewrite T. auto.
Qed.

Lemma session_winFadeTimeout l sc flag ts st (k : nat) :
  session l sc flag ts st ->
  nth_error ts k = Some winFadeTimeout ->
  (0 <= levelNum l + 1 <= totalLevels l)%Z ->
  session l sc true (remove_at k ts ++ [fadeOutAnimation 1 20]) (fire k st).
Proof.
  intros (L & S & A & T) Hk H. rewrite fire_winFadeTimeout by (rewrite T; exact Hk).
  apply (session_fadeOutInLevel l sc flag); [| exact H].
  unfold session, clearTimer. cbn. rewrite T. auto.
Qed.

Lemma session_fadeOut_tick l sc flag ts st (k : nat) (offset c : Z) :
  session l sc flag ts st ->
  nth_error ts k = Some (fadeOutAnimation offset c) -> c <> 0%Z ->
  session l sc flag (replace_at k (fadeOutAnimation offset (c - 1)) ts) (fire k st).
Proof.
  intros (L & S & A & T) Hk Hc.
  rewrite (fire_fadeOut_tick k st offset c) by (rewrite ?T; assumption).
  unfold session. cbn. rewrite T. auto.
Qed.

Lemma session_fadeIn_tick l sc flag ts st (k : nat) (c : Z) :
  session l sc flag ts st ->
  nth_error ts k = Some (fadeInAnimation c) -> c <> 20%Z ->
  session l sc flag (replace_at k (fadeInAnimation (c + 1)) ts) (fire k st).
Proof.
  intros (L & S & A & T) Hk Hc.
  rewrite (fire_fadeIn_tick k st c) by (rewrite ?T; assumption).
  unfold session. cbn. rewrite T. auto.
Qed.

Lemma session_fadeIn_last l sc flag ts st (k : nat) :
  session l sc flag ts st ->
  nth_error ts k = Some (fadeInAnimation 20) ->
  session l sc false (remove_at k ts) (fire k st).
Proof.
  intros (L & S & A & T) Hk.
  rewrite (fire_fadeIn_last k st) by (rewrite T; exact Hk).
  unfold session, clearTimer. cbn. rewrite T. auto.
Qed.

(** The interval that ends a fade out computes the index again, from the
    level that is current by then: in range it changes the level ... *)
Lemma session_fadeOut_change l sc flag ts st (k : nat) (offset : Z) (level' : Level) :
  session l sc flag ts st ->
  nth_error ts k = Some (fadeOutAnimation offset 0) ->
  Level_new (levelNum l + offset) = Some level' ->
  session level'
    (scene_add [theBlock]
       (scene_add (boardChildren level')
          (scene_remove [theBlock] (scene_remove (boardChildren l) sc))))
    flag (remove_at k ts ++ [fadeInAnimation (-1)]) (fire k st).
Proof.
  intros (L & S & A & T) Hk N.
  rewrite (fire_fadeOut_last k st offset) by (rewrite T; exact Hk).
  rewrite (changeLevel_Returns offset _ level')
    by (cbn [level clearTimer set_timers set_opacity]; rewrite L; exact N).
  unfold session, setTimer, clearTimer. cbn. rewrite L, S, A, T. auto.
Qed.

(** ... and out of range it throws, with the level gone from the scene and
    no fade in started. *)
Lemma session_fadeOut_throw l sc flag ts st (k : nat) (offset : Z) :
  session l sc flag ts st ->
  nth_error ts k = Some (fadeOutAnimation offset 0) ->
  Level_new (levelNum l + offset) = None ->
  session l (scene_remove [theBlock] (scene_remove (boardChildren l) sc))
    flag (remove_at k ts) (fire k st).
Proof.
  intros (L & S & A & T) Hk N.
  rewrite (fire_fadeOut_last k st offset) by (rewrite T; exact Hk).
  rewrite changeLevel_Throws
    by (cbn [level clearTimer set_timers set_opacity]; rewrite L; exact N).
  unfold session, clearTimer. cbn. rewrite L, S, A, T. auto.
Qed.

(** Two fade outs that take their intervals in turn. *)
Lemma session_two_fadeOuts l sc flag st (o1 o2 : Z) (n : nat) (c1 c2 : Z) :
  session l sc flag [fadeOutAnimation o1 c1; fadeOutAnimation o2 c2] st ->
  (Z.of_nat n <= c1)%Z -> (Z.of_nat n <= c2)%Z ->
  session l sc flag
    [fadeOutAnimation o1 (c1 - Z.of_nat n); fadeOutAnimation o2 (c2 - Z.of_nat n)]
    (Nat.iter n (fun s => fire 1 (fire 0 s)) st).
Proof.
  intros H. induction n as [| n IH]; intros H1 H2.
  - cbn [Nat.iter nat_rect Z.of_nat]. now rewrite !Z.sub_0_r.
  - rewrite Nat.iter_succ.
    specialize (IH ltac:(lia) ltac:(lia)).
    apply (session_fadeOut_tick _ _ _ _ _ 0 o1 (c1 - Z.of_nat n)) in IH;
      [| reflexivity | lia].
    cbn [replace_at] in IH.
    apply (session_fadeOut_tick _ _ _ _ _ 1 o2 (c2 - Z.of_nat n)) in IH;
      [| reflexivity | lia].
    cbn [replace_at] in IH.
    replace (c1 - Z.of_nat (S n))%Z with (c1 - Z.of_nat n - 1)%Z by lia.
    replace (c2 - Z.of_nat (S n))%Z with (c2 - Z.of_nat n - 1)%Z by lia.
    exact IH.
Qed.

(** A fade in on its own, from counter [c] to its end. *)
Lemma session_fadeIn_rest l sc flag st (n : nat) (c : Z) :
  session l sc flag [fadeInAnimation c] st ->
  (c + Z.of_nat n = 20)%Z ->
  session l sc false [] (Nat.iter (S n) (fire 0) st).
Proof.
  revert c st. induction n as [| n IH]; intros c st H Hc.
  - change (Nat.iter 1 (fire 0) st) with (fire 0 st).
    replace c with 20%Z in H by lia.
    apply (session_fadeIn_last _ _ _ _ _ 0) in H; [exact H | reflexivity].
  - rewrite Nat.iter_succ_r.
    apply (IH (c + 1)%Z); [| lia].
    apply (session_fadeIn_tick _ _ _ _ _ 0 c) in H; [exact H | reflexivity | lia].
Qed.

(** *** Runs *)

Lemma run_app (e1 e2 : list Event) (st : Game) :
  run (e1 ++ e2) st = run e2 (run e1 st).
Proof. apply fold_left_app. Qed.

Lemma run_repeat_interval (k n : nat) (st : Game) :
  run (repeat (interval k) n) st = Nat.iter n (fire k) st.
Proof.
  revert st. induction n as [| n IH]; intros st; [reflexivity |].
  rewrite Nat.iter_succ_r. cbn [repeat]. apply IH.
Qed.

Lemma run_repeat_pair (k1 k2 n : nat) (st : Game) :
  run (List.concat (repeat [interval k1; interval k2] n)) st
  = Nat.iter n (fun s => fire k2 (fire k1 s)) st.
Proof.
  revert st. induction n as [| n IH]; intros st; [reflexivity |].
  rewrite Nat.iter_succ_r. cbn [repeat List.concat app]. apply IH.
Qed.

(** *** Two requests for the level after the last but one *)

Lemma two_requests (l : Level) (sc : list SceneChild) (flag : bool) (w : Game) :
  session l sc flag [winFadeTimeout] w ->
  (0 <= levelNum l + 1 <= totalLevels l)%Z ->
  session l sc true [fadeOutAnimation 1 18; fadeOutAnimation 1 20] (run twoRequests w).
Proof.
  intros H R. unfold twoRequests. cbn [run fold_left handle].
  apply session_togglePause in H.
  apply (session_fadeOutInLevel _ _ _ _ _ 1) in H; [| exact R]. cbn [app] in H.
  apply (session_fadeOut_tick _ _ _ _ _ 1 1 20) in H; [| reflexivity | lia].
  cbn [replace_at] in H.
  apply (session_fadeOut_tick _ _ _ _ _ 1 1 (20 - 1)) in H; [| reflexivity | lia].
  cbn [replace_at] in H.
  apply (session_winFadeTimeout _ _ _ _ _ 0) in H; [| reflexivity | exact R].
  exact H.
Qed.

Lemma both_fades (l level' : Level) (w : Game) :
  session l (sceneOf l) true [fadeOutAnimation 1 18; fadeOutAnimation 1 20] w ->
  Level_new (levelNum l + 1) = Some level' ->
  (levelNum l + 1 = _LEVELS)%Z ->
  session level' [AmbientLight; DirectionalLight] false [] (run bothFades w).
Proof.
  intros H N Last. unfold bothFades.
  rewrite !run_app, run_repeat_pair, run_repeat_interval.
  cbn [run fold_left handle].
  apply (session_two_fadeOuts _ _ _ _ 1 1 18 18 20) in H; [| lia | lia].
  change (18 - Z.of_nat 18)%Z with 0%Z in H. change (20 - Z.of_nat 18)%Z with 2%Z in H.
  apply (session_fadeOut_change _ _ _ _ _ 0 1 level') in H; [| reflexivity | exact N].
  rewrite changeLevel_sceneOf in H. cbn [remove_at app] in H.
  apply (session_fadeOut_tick _ _ _ _ _ 0 1 2) in H; [| reflexivity | lia].
  cbn [replace_at] in H.
  apply (session_fadeIn_tick _ _ _ _ _ 1 (-1)) in H; [| reflexivity | lia].
  cbn [replace_at] in H.
  apply (session_fadeOut_tick _ _ _ _ _ 0 1 (2 - 1)) in H; [| reflexivity | lia].
  cbn [replace_at] in H.
  apply (session_fadeIn_tick _ _ _ _ _ 1 (-1 + 1)) in H; [| reflexivity | lia].
  cbn [replace_at] in H.
  apply (session_fadeOut_throw _ _ _ _ _ 0 1) in H; [| reflexivity |].
  - rewrite scene_remove_sceneOf in H. cbn [remove_at] in H.
    apply (session_fadeIn_rest _ _ _ _ 19 (-1 + 1 + 1)) in H; [exact H | lia].
  - apply Level_new_inv in N. destruct N as (layout & position & _ & _ & ->).
    cbn [levelNum]. apply Level_new_None. right. lia.
Qed.

(** *** The winning roll *)

Lemma rotating_scene (level0 : Level) (rotPoint axis : THREE.Vector3) (angle : R)
    (n : nat) (rest : list Timer) (st : Game) :
  rotating level0 rotPoint axis angle n rest st -> scene (fire 0 st) = scene st.
Proof.
  intros ([fb T] & _ & _). unfold fire. rewrite T. cbn [nth_error].
  unfold rotationAnimation_callback.
  destruct (Z.of_nat n + 1 =? 18)%Z; [| reflexivity].
  match goal with |- context [_checkForWin ?l] => destruct (_checkForWin l) as [[|] |] end;
    reflexivity.
Qed.

Lemma roll_scene (rotDir : dirEnum) (st : Game) (n : nat) :
  idle st -> timers st = [] -> accepted (level st) rotDir = true -> (n <= 18)%nat ->
  scene (Nat.iter n (fire 0) (handleBlockMovement rotDir st)) = scene st.
Proof.
  intros Hidle T A. induction n as [| n IH]; intros Hn.
  - cbn [Nat.iter nat_rect]. rewrite (handleBlockMovement_idle rotDir st Hidle), A. reflexivity.
  - rewrite Nat.iter_succ. rewrite <- IH by lia.
    rewrite (handleBlockMovement_idle rotDir st Hidle), A.
    apply (rotating_scene (level st) (rollPoint (level st) rotDir)
             (rollAxis (level st) rotDir) (rollAngle (level st) rotDir) n []).
    apply (rotating_iter st _ _ _ n T). lia.
Qed.

Lemma sceneOf_set_block (l : Level) (b : THREE.Mesh) : sceneOf (set_block l b) = sceneOf l.
Proof. reflexivity. Qed.

(** From an idle session to the end of the slide: the timeout that asks for
    the next level is pending, the flag is set and the scene still shows
    the level. *)
Lemma winning_roll (rotDir : dirEnum) (st : Game) :
  idle st -> timers st = [] -> Pose (THREE.position (block (level st))) ->
  accepted (level st) rotDir = true -> wins (roll (level st) rotDir) = true ->
  scene st = sceneOf (level st) ->
  exists l,
    session l (sceneOf l) true [winFadeTimeout]
      (run slideEvents (run (rollEvents rotDir) st))
    /\ levelNum l = levelNum (level st) /\ totalLevels l = totalLevels (level st).
Proof.
  intros Hidle T P A W S.
  unfold slideEvents, rollEvents. rewrite run_app, !run_repeat_interval.
  change (run [keydown rotDir] st) with (handleBlockMovement rotDir st).
  pose proof (roll_scene rotDir st 18 Hidle T A (le_n 18)) as S18.
  destruct (roll_then_slide rotDir st Hidle T P A W) as (st18 & E18 & L & F & Tm & Y).
  rewrite E18 in S18 |- *. clear E18.
  rewrite (slide_ends st18 Tm Y).
  exists (level (sunk (set_timers st18 [winFadeTimeout]) 2)).
  split; [| split].
  - split; [reflexivity |]. split; [| split; [exact F | reflexivity]].
    change (scene st18 = sceneOf (level st18)). rewrite S18, S, L. reflexivity.
  - change (levelNum (level st18) = levelNum (level st)). now rewrite L.
  - change (totalLevels (level st18) = totalLevels (level st)). now rewrite L.
Qed.

Lemma sceneOf_not_lights (l : Level) : [AmbientLight; DirectionalLight] <> sceneOf l.
Proof.
  intros E. apply (f_equal (@List.length SceneChild)) in E.
  unfold sceneOf in E. rewrite !length_app in E. cbn [List.length] in E. lia.
Qed.

(** *** A level transition on its own *)

Lemma fadeIn_iter (st : Game) (c : Z) (m : nat) :
  timers st = [fadeInAnimation c] -> (c + Z.of_nat m < 20)%Z ->
  Nat.iter (S m) (fire 0) st
  = set_timers (set_opacity st (IZR (c + Z.of_nat m) / 20))
      [fadeInAnimation (c + Z.of_nat m + 1)].
Proof.
  intros T. induction m as [| m IH]; intros Hm.
  - change (Nat.iter 1 (fire 0) st) with (fire 0 st).
    rewrite (fire_fadeIn_tick 0 st c) by (rewrite ?T; (reflexivity || lia)).
    rewrite T. cbn [replace_at Z.of_nat]. now rewrite Z.add_0_r.
  - rewrite Nat.iter_succ, IH by lia.
    rewrite (fire_fadeIn_tick 0 _ (c + Z.of_nat m + 1)) by (reflexivity || lia).
    cbn [timers set_timers set_opacity replace_at].
    replace (c + Z.of_nat m + 1)%Z with (c + Z.of_nat (S m))%Z by lia. reflexivity.
Qed.

Lemma fadeIn_ends (st : Game) :
  timers st = [fadeInAnimation (-1)] ->
  Nat.iter 22 (fire 0) st = set_animationPlaying (set_timers (set_opacity st (IZR 20 / 20)) []) false.
Proof.
  intros T. rewrite Nat.iter_succ, (fadeIn_iter st (-1) 20 T) by lia.
  change (-1 + Z.of_nat 20 + 1)%Z with 20%Z.
  rewrite fire_fadeIn_last by reflexivity. reflexivity.
Qed.

Lemma transition_state (offset : Z) (st : Game) (level' : Level) (n : nat) :
  timers st = [] ->
  (0 <= levelNum (level st) + offset <= totalLevels (level st))%Z ->
  Level_new (levelNum (level st) + offset) = Some level' ->
  (n < 43)%nat ->
  animationPlaying (Nat.iter n (fire 0) (fadeOutInLevel offset st)) = true
  /\ (level (Nat.iter n (fire 0) (fadeOutInLevel offset st))
      = if (n <=? 20)%nat then level st else level').
Proof.
  intros T H N Hn. rewrite (fadeOutInLevel_in_range offset st H).
  destruct (Nat.leb_spec n 20) as [Hle | Hgt].
  - destruct (fadingOut_iter st offset n T Hle) as (_ & A & _ & _ & _ & L). auto.
  - replace n with ((n - 21) + 21)%nat by lia. rewrite Nat.iter_add.
    rewrite (Nat.iter_succ 20).
    rewrite (fadingOut_last st offset _ _ (fadingOut_iter st offset 20 T (le_n 20)) N).
    destruct (n - 21)%nat as [| m] eqn:E; [split; reflexivity |].
    rewrite (fadeIn_iter _ (-1) m) by (cbn [timers]; (reflexivity || lia)).
    split; reflexivity.
Qed.

Lemma transition_changes (offset : Z) (st : Game) (level' : Level) :
  timers st = [] -> scene st = sceneOf (level st) ->
  (0 <= levelNum (level st) + offset <= totalLevels (level st))%Z ->
  Level_new (levelNum (level st) + offset) = Some level' ->
  Nat.iter 21 (fire 0) (fadeOutInLevel offset st)
  = mkGame level' (sceneOf level') (THREE.add (THREE.position (block level')) camOffset)
           true (pauseWindowBox st) (IZR 0 / 20) [fadeInAnimation (-1)].
Proof.
  intros T S H N. rewrite (fadeOutInLevel_in_range offset st H), Nat.iter_succ.
  rewrite (fadingOut_last st offset _ _ (fadingOut_iter st offset 20 T (le_n 20)) N).
  now rewrite S, changeLevel_sceneOf.
Qed.

Lemma transition_ends (offset : Z) (st : Game) (level' : Level) :
  timers st = [] -> scene st = sceneOf (level st) ->
  (0 <= levelNum (level st) + offset <= totalLevels (level st))%Z ->
  Level_new (levelNum (level st) + offset) = Some level' ->
  Nat.iter (22 + 21) (fire 0) (fadeOutInLevel offset st)
  = mkGame level' (sceneOf level') (THREE.add (THREE.position (block level')) camOffset)
           false (pauseWindowBox st) (IZR 20 / 20) [].
Proof.
  intros T S H N.
  rewrite Nat.iter_add, (transition_changes offset st level' T S H N), fadeIn_ends
    by reflexivity.
  reflexivity.
Qed.

(** X12: a level transition with nothing else pending takes twenty-one
    intervals of fade out and twenty-two of fade in.  The opacity goes from
    1 to 0 in steps of 0.05, the level changes on the twenty-first
    interval, and the opacity goes from -0.05 (the counter has passed 0)
    up to 1.  The session ends on the new level, shown in the scene with the
    camera centred on its block, with the flag cleared and no callback
    pending; until then the flag is set and every roll request is
    dropped. *)
Theorem X12_level_transition (offset : Z) (st : Game) (level' : Level) :
  timers st = [] -> scene st = sceneOf (level st) ->
  (0 <= levelNum (level st) + offset <= totalLevels (level st))%Z ->
  Level_new (levelNum (level st) + offset) = Some level' ->
  let run := fun n => Nat.iter n (fire 0) (fadeOutInLevel offset st) in
  run (22 + 21)%nat
  = mkGame level' (sceneOf level') (THREE.add (THREE.position (block level')) camOffset)
           false (pauseWindowBox st) (IZR 20 / 20) []
  /\ (forall n, (n < 43)%nat ->
        animationPlaying (run n) = true
        /\ (level (run n) = if (n <=? 20)%nat then level st else level')
        /\ forall rotDir, handleBlockMovement rotDir (run n) = run n)
  /\ (forall m, (m <= 20)%nat -> opacity (run (S m)) = IZR (20 - Z.of_nat m) / 20)
  /\ (forall m, (m <= 21)%nat -> opacity (run (S m + 21)%nat) = IZR (Z.of_nat m - 1) / 20).
Proof.
  intros T S H N run. subst run. cbv beta.
  pose proof (transition_changes offset st level' T S H N) as E21.
  split; [| split; [| split]].
  - now apply transition_ends.
  - intros n Hn. destruct (transition_state offset st level' n T H N Hn) as [A L].
    split; [exact A |]. split; [exact L |].
    intros rotDir. apply handleBlockMovement_busy. now left.
  - intros m Hm. destruct (Nat.eq_dec m 20) as [-> | Hne]; [now rewrite E21 |].
    rewrite (fadeOutInLevel_in_range offset st H), Nat.iter_succ.
    destruct (fadingOut_iter st offset m T Hm) as (Tm & _).
    rewrite (fire_fadeOut_tick 0 _ offset (20 - Z.of_nat m)) by (rewrite ?Tm; (reflexivity || lia)).
    reflexivity.
  - intros m Hm. rewrite Nat.iter_add, E21.
    destruct (Nat.eq_dec m 21) as [-> | Hne].
    + rewrite fadeIn_ends by reflexivity. reflexivity.
    + rewrite (fadeIn_iter _ (-1) m) by (cbn [timers]; (reflexivity || lia)).
      cbn [opacity set_timers set_opacity]. do 2 f_equal. lia.
Qed.

(** From level 0 to level 1. *)
Lemma X12_level_transition_witness :
  exists level',
    Level_new 1 = Some level'
    /\ Nat.iter (22 + 21) (fire 0) (fadeOutInLevel 1 startGame)
       = mkGame level' (sceneOf level') (THREE.add (THREE.position (block level')) camOffset)
                false "hidden" (IZR 20 / 20) [].
Proof.
  destruct (Level_new_Some 1) as (layout & position & _ & _ & N); [unfold _LEVELS; lia |].
  eexists. split; [exact N |].
  refine (proj1 (X12_level_transition 1 startGame _ eq_refl eq_refl _ N)).
  cbn [startGame startLevel level levelNum totalLevels]. unfold _LEVELS. lia.
Defined.

(** *** The engine plays the puzzle on the grid *)

Lemma roll_move (lvl : Level) (p : Place) (rotDir : dirEnum) :
  THREE.position (block lvl) = centre p ->
  THREE.position (block (roll lvl rotDir)) = centre (move rotDir p).
Proof.
  destruct p as [[| |] c r]; unfold centre; cbn [lie col row]; intros E.
  - destruct (roll_standing lvl c r E) as (E1 & E2 & E3 & E4). destruct rotDir; assumption.
  - destruct (roll_lyingAlongX lvl c r E) as (E1 & E2 & E3 & E4). destruct rotDir; assumption.
  - destruct (roll_lyingAlongZ lvl c r E) as (E1 & E2 & E3 & E4). destruct rotDir; assumption.
Qed.

Lemma centre_Pose (p : Place) : Pose (centre p).
Proof. destruct p as [[| |] c r]; constructor. Qed.

Lemma getBlockPos_centre (b : THREE.Mesh) (p : Place) :
  THREE.position b = centre p ->
  getBlockPos b = map (fun c => cell (fst c) (snd c)) (cells p).
Proof.
  destruct p as [[| |] c r]; unfold centre, cells; cbn [lie col row map fst snd]; intros E.
  - apply getBlockPos_standing; rewrite E; reflexivity.
  - apply getBlockPos_lyingAlongX; rewrite E; reflexivity.
  - apply getBlockPos_lyingAlongZ; rewrite E; reflexivity.
Qed.

Lemma filled_tiled (layout : list (list string)) (lvl : Level) (c : Z * Z) :
  board lvl = fst (boardFromLayout layout) -> filled layout c = true ->
  tiled lvl (cell (fst c) (snd c)).
Proof.
  intros B F. unfold filled, square in F.
  destruct (Z.ltb_spec (fst c) 0) as [| Hx]; [discriminate F |].
  destruct (Z.ltb_spec (snd c) 0) as [| Hz]; [discriminate F |]. cbn [orb] in F.
  destruct (layoutAt layout (Z.to_nat (snd c)) (Z.to_nat (fst c))) as [s |] eqn:L;
    [| discriminate F].
  assert (T : exists tile,
             tileFor s (Z.to_nat (snd c)) (Z.to_nat (fst c)) tile).
  { apply orb_true_iff in F. destruct F as [F | F]; apply String.eqb_eq in F; subst s;
      eexists; [left | right]; split; reflexivity. }
  destruct T as [tile T]. exists tile. split.
  - rewrite B. apply boardFromLayout_In. eauto.
  - unfold tileFor in T. rewrite !Z2Nat.id in T by assumption.
    destruct T as [[_ ->] | [_ ->]]; split; reflexivity.
Qed.

Lemma accepted_move (layout : list (list string)) (lvl : Level) (p : Place)
    (rotDir : dirEnum) :
  board lvl = fst (boardFromLayout layout) ->
  THREE.position (block lvl) = centre p ->
  forallb (filled layout) (cells (move rotDir p)) = true ->
  accepted lvl rotDir = true.
Proof.
  intros B E F. apply isValidRotation_tiled.
  change (getRotatedClone (block lvl) (rollPoint lvl rotDir) (rollAxis lvl rotDir)
            (rollAngle lvl rotDir)) with (block (roll lvl rotDir)).
  rewrite (getBlockPos_centre _ _ (roll_move lvl p rotDir E)).
  rewrite forallb_forall in F. apply Forall_forall. intros c Hc.
  apply in_map_iff in Hc. destruct Hc as (c' & <- & Hc').
  apply (filled_tiled layout); [exact B | now apply F].
Qed.

Lemma legal_reachable (layout : list (list string)) (level0 : Level) (path : list dirEnum) :
  forall (lvl : Level) (p : Place),
    reachable level0 lvl ->
    board lvl = fst (boardFromLayout layout) ->
    THREE.position (block lvl) = centre p ->
    legal layout p path = true ->
    reachable level0 (fold_left roll path lvl)
    /\ THREE.position (block (fold_left roll path lvl)) = centre (final p path).
Proof.
  induction path as [| rotDir path IH]; intros lvl p R B E L; [auto |].
  cbn [legal] in L. apply andb_true_iff in L. destruct L as [F L].
  cbn [fold_left]. unfold final. cbn [fold_left].
  apply IH.
  - apply reachable_roll; [exact R |]. now apply (accepted_move layout lvl p).
  - exact B.
  - now apply roll_move.
  - exact L.
Qed.

(** *** Winning *)

Lemma holesOfRow_In (row : list string) (i j k : nat) :
  nth_error row k = Some "□"%string -> In (i, (j + k)%nat) (holesOfRow row i j).
Proof.
  revert j k. induction row as [| c row IH]; intros j k H; [destruct k; discriminate H |].
  cbn [holesOfRow]. apply in_or_app. destruct k as [| k].
  - cbn in H. injection H as ->. left. rewrite Nat.add_0_r. now left.
  - right. rewrite <- plus_n_Sm. apply (IH (S j) k). exact H.
Qed.

Lemma holesOf_In (layout : list (list string)) (i r k : nat) :
  layoutAt layout r k = Some "□"%string -> In ((i + r)%nat, k) (holesOf layout i).
Proof.
  revert i r. induction layout as [| row layout IH]; intros i r H;
    [destruct r; discriminate H |].
  cbn [holesOf]. apply in_or_app. destruct r as [| r].
  - left. rewrite Nat.add_0_r. apply (holesOfRow_In row i 0 k). exact H.
  - right. rewrite <- plus_n_Sm. apply (IH (S i) r). exact H.
Qed.

(** On a board with one empty square the winning tile is the tile of that
    square. *)
Lemma winTile_only_hole (layout : list (list string)) (i j : nat) (w : THREE.Mesh) :
  holesOf layout 0 = [ (i, j) ] ->
  snd (boardFromLayout layout) = Some w ->
  THREE.position w = THREE.mkVector3 (IZR (Z.of_nat j)) (- (1 / 10)) (IZR (Z.of_nat i)).
Proof.
  intros H W. apply boardFromLayout_winTile_inv in W.
  destruct W as (i' & j' & L & [[D _] | [_ ->]]); [discriminate D |].
  apply (holesOf_In layout 0) in L. rewrite H in L.
  destruct L as [[= -> ->] | []]. reflexivity.
Qed.

Lemma holesOf_hasHole (layout : list (list string)) (i j : nat) :
  holesOf layout 0 = [ (i, j) ] -> hasHole layout = true.
Proof.
  intros H. destruct (hasHole layout) eqn:E; [reflexivity |]. exfalso.
  assert (N : forall r k, layoutAt layout r k <> Some "□"%string).
  { intros r k L. assert (hasHole layout = true) by (apply hasHole_layoutAt; eauto).
    congruence. }
  clear E. revert H N. generalize 0%nat. 
  induction layout as [| row layout IH]; intros a H N; [discriminate H |].
  cbn [holesOf] in H.
  assert (R : forall b, holesOfRow row a b = []).
  { assert (Nr : forall k, nth_error row k <> Some "□"%string) by (intros k; apply (N 0%nat k)).
    clear H N IH. induction row as [| c row IHr]; intros b; [reflexivity |].
    cbn [holesOfRow]. destruct (String.eqb_spec c "□") as [-> | _].
    - exfalso. apply (Nr 0%nat). reflexivity.
    - cbn [app]. apply IHr. intros k. apply (Nr (S k)). }
  rewrite R in H. apply (IH (S a)); [exact H |].
  intros r k. apply (N (S r) k).
Qed.

Lemma wins_on_only_hole (layout : list (list string)) (lvl : Level) (i j : nat) :
  winTile lvl = snd (boardFromLayout layout) ->
  holesOf layout 0 = [ (i, j) ] ->
  THREE.position (block lvl) = centre (mkPlace upright (Z.of_nat j) (Z.of_nat i)) ->
  _checkForWin lvl = Some true.
Proof.
  intros W H E. unfold _checkForWin, blockPos.
  rewrite (getBlockPos_centre _ _ E). cbn [cells lie col row map fst snd].
  rewrite W.
  pose proof (boardFromLayout_winTile layout (holesOf_hasHole layout i j H)) as Nn.
  destruct (snd (boardFromLayout layout)) as [w |] eqn:Ew; [| contradiction].
  rewrite (winTile_only_hole layout i j w H Ew).
  cbn [THREE.x THREE.z cell x z]. now rewrite !strict_eq_refl.
Qed.

Lemma not_onHole_wins (layout : list (list string)) (lvl : Level) (p : Place) :
  winTile lvl = snd (boardFromLayout layout) ->
  THREE.position (block lvl) = centre p ->
  onHole layout p = false ->
  wins lvl = false.
Proof.
  intros W E H. unfold wins, _checkForWin, blockPos.
  rewrite (getBlockPos_centre _ _ E), W.
  destruct (snd (boardFromLayout layout)) as [w |] eqn:Ew; [| reflexivity].
  destruct p as [[| |] c r]; cbn [cells lie col row map fst snd]; try reflexivity.
  apply boardFromLayout_winTile_inv in Ew.
  destruct Ew as (i & j & L & [[D _] | [_ ->]]); [discriminate D |].
  cbn [createTile THREE.set_visible THREE.set_position THREE.position THREE.x THREE.z
       cell x z].
  destruct ((IZR c === IZR (Z.of_nat j)) && (IZR r === IZR (Z.of_nat i))) eqn:Q;
    [| reflexivity].
  exfalso. apply andb_true_iff in Q. destruct Q as [Qx Qz].
  apply strict_eq_true, eq_IZR in Qx. apply strict_eq_true, eq_IZR in Qz. subst c r.
  unfold onHole, square in H. cbn [lie col row fst snd] in H.
  destruct (Z.ltb_spec (Z.of_nat j) 0); [lia |].
  destruct (Z.ltb_spec (Z.of_nat i) 0); [lia |]. cbn [orb] in H.
  rewrite !Nat2Z.id, L in H. discriminate H.
Qed.

(** *** Playing a path *)

Lemma run_rollEvents (rotDir : dirEnum) (st : Game) :
  run (rollEvents rotDir) st = Nat.iter 18 (fire 0) (handleBlockMovement rotDir st).
Proof.
  unfold rollEvents. rewrite run_app, run_repeat_interval. reflexivity.
Qed.

Lemma fold_roll_keeps (path : list dirEnum) (l : Level) :
  board (fold_left roll path l) = board l
  /\ winTile (fold_left roll path l) = winTile l
  /\ levelNum (fold_left roll path l) = levelNum l
  /\ totalLevels (fold_left roll path l) = totalLevels l.
Proof.
  revert l. induction path as [| rotDir path IH]; intros l; [auto |].
  cbn [fold_left]. destruct (IH (roll l rotDir)) as (B & W & N & T). auto.
Qed.

Lemma sceneOf_fold_roll (path : list dirEnum) (l : Level) :
  sceneOf (fold_left roll path l) = sceneOf l.
Proof.
  unfold sceneOf, boardChildren. now rewrite (proj1 (fold_roll_keeps path l)).
Qed.

(** The rolls of a legal and quiet path, typed into an idle session one
    after the other, each key after the roll before it has ended. *)
Lemma play_path (layout : list (list string)) (path : list dirEnum) :
  forall (st : Game) (p : Place),
    idle st -> timers st = [] ->
    board (level st) = fst (boardFromLayout layout) ->
    winTile (level st) = snd (boardFromLayout layout) ->
    THREE.position (block (level st)) = centre p ->
    legal layout p path = true -> quiet layout p path = true ->
    level (run (play path) st) = fold_left roll path (level st)
    /\ idle (run (play path) st)
    /\ timers (run (play path) st) = []
    /\ scene (run (play path) st) = scene st
    /\ pauseWindowBox (run (play path) st) = pauseWindowBox st
    /\ THREE.position (block (level (run (play path) st))) = centre (final p path).
Proof.
  induction path as [| rotDir path IH]; intros st p Hidle T B W E L Q.
  - unfold final. cbn [play flat_map run fold_left].
    split; [reflexivity |]. split; [exact Hidle |]. split; [exact T |].
    split; [reflexivity |]. split; [reflexivity | exact E].
  - cbn [legal] in L. apply andb_true_iff in L. destruct L as [F L].
    cbn [quiet] in Q. apply andb_true_iff in Q. destruct Q as [H Q].
    apply negb_true_iff in H.
    assert (A : accepted (level st) rotDir = true) by now apply (accepted_move layout _ p).
    pose proof (roll_move (level st) p rotDir E) as E'.
    assert (Nw : wins (roll (level st) rotDir) = false)
      by (apply (not_onHole_wins layout _ (move rotDir p)); assumption).
    destruct (accepted_roll_completes rotDir st Hidle T A) as (L1 & P1 & F1 & T1).
    pose proof (roll_scene rotDir st 18 Hidle T A (le_n 18)) as S1.
    rewrite Nw in F1, T1.
    cbn [play flat_map]. rewrite run_app, run_rollEvents.
    remember (Nat.iter 18 (fire 0) (handleBlockMovement rotDir st)) as st1 eqn:E1.
    clear E1.
    destruct (IH st1 (move rotDir p)) as (L2 & I2 & T2 & S2 & P2 & E2).
    + split; [exact F1 |]. rewrite P1. apply Hidle.
    + exact T1.
    + rewrite L1. exact B.
    + rewrite L1. exact W.
    + rewrite L1. exact E'.
    + exact L.
    + exact Q.
    + change (play path) with (flat_map rollEvents path) in *.
      rewrite L2, L1, S2, S1, P2, P1. cbn [fold_left]. unfold final. cbn [fold_left].
      split; [reflexivity |]. split; [exact I2 |]. split; [exact T2 |].
      split; [reflexivity |]. split; [reflexivity |].
      rewrite <- L1, <- L2. exact E2.
Qed.

(** *** Every level can be won *)

Lemma solutions_solve :
  forallb (fun '(layout, start, path) =>
             solves layout start path
             && quiet layout (mkPlace upright (fst start) (snd start)) (removelast path)
             && negb (match path with [] => true | _ => false end))
          (combine (combine _LAYOUTS _BLOCK_POSITIONS) solutions) = true.
Proof. vm_compute. reflexivity. Qed.

Lemma legal_app (layout : list (list string)) (path1 path2 : list dirEnum) (p : Place) :
  legal layout p (path1 ++ path2) = legal layout p path1 && legal layout (final p path1) path2.
Proof.
  revert p. induction path1 as [| rotDir path1 IH]; intros p; [reflexivity |].
  cbn [app legal]. rewrite IH. unfold final. cbn [fold_left].
  now rewrite andb_assoc.
Qed.

Lemma final_app (path1 path2 : list dirEnum) (p : Place) :
  final p (path1 ++ path2) = final (final p path1) path2.
Proof. apply fold_left_app. Qed.

Lemma array_get_combine_eq {A B : Type} (a : list A) (b : list B) (n : Z) (u : A) (v : B) :
  array_get a n = Some u -> array_get b n = Some v ->
  array_get (combine a b) n = Some (u, v).
Proof.
  unfold array_get. destruct (n <? 0)%Z; [discriminate |].
  generalize (Z.to_nat n). clear n. intros n. revert b n.
  induction a as [| a0 a IH]; intros b n Ha Hb; [destruct n; discriminate Ha |].
  destruct b as [| b0 b]; [destruct n; discriminate Hb |].
  destruct n as [| n]; cbn in *.
  - now injection Ha as <-; injection Hb as <-.
  - now apply IH.
Qed.

(** The solution of a level, with what the check above says of it. *)
Lemma solution_of (n : Z) (level0 : Level) :
  Level_new n = Some level0 ->
  exists layout start path rotDir i j,
    level0 = mkLevel _LEVELS n (fst (boardFromLayout layout)) (createBlock start)
               (snd (boardFromLayout layout))
    /\ array_get solutions n = Some (path ++ [rotDir])
    /\ legal layout (mkPlace upright (fst start) (snd start)) path = true
    /\ quiet layout (mkPlace upright (fst start) (snd start)) path = true
    /\ forallb (filled layout)
         (cells (move rotDir (final (mkPlace upright (fst start) (snd start)) path))) = true
    /\ holesOf layout 0 = [ (i, j) ]
    /\ move rotDir (final (mkPlace upright (fst start) (snd start)) path)
       = mkPlace upright (Z.of_nat j) (Z.of_nat i).
Proof.
  intros H. pose proof H as H'. apply Level_new_inv in H'.
  destruct H' as (layout & start & EL & EP & ->).
  destruct (array_get_Some solutions n) as [sol ES].
  { unfold array_get in EL. destruct (Z.ltb_spec n 0); [discriminate EL |].
    assert (Hn : nth_error _LAYOUTS (Z.to_nat n) <> None) by congruence.
    apply nth_error_Some in Hn. cbn in Hn. cbn. lia. }
  pose proof solutions_solve as F. rewrite forallb_forall in F.
  specialize (F _ (array_get_combine _ _ _ _ _ (array_get_combine_eq _ _ _ _ _ EL EP) ES)).
  cbn beta iota in F.
  apply andb_true_iff in F. destruct F as [F Ne].
  apply andb_true_iff in F. destruct F as [S Q].
  destruct (exists_last (l := sol)) as (path & rotDir & ->);
    [intros ->; discriminate Ne |].
  rewrite removelast_last in Q.
  unfold solves in S. cbv zeta in S. apply andb_true_iff in S. destruct S as [L Fin].
  rewrite legal_app in L. apply andb_true_iff in L. destruct L as [L Ll].
  cbn [legal] in Ll. rewrite andb_true_r in Ll.
  rewrite final_app in Fin. unfold final at 1 3 5 in Fin. cbn [fold_left] in Fin.
  destruct (holesOf layout 0) as [| [i j] [|]] eqn:Hh; try discriminate Fin.
  destruct (lie (move rotDir (final (mkPlace upright (fst start) (snd start)) path)))
    eqn:Lm; try discriminate Fin.
  apply andb_true_iff in Fin. destruct Fin as [Fc Fr].
  apply Z.eqb_eq in Fc. apply Z.eqb_eq in Fr.
  exists layout, start, path, rotDir, i, j.
  repeat (split; [assumption || reflexivity |]).
  destruct (move rotDir (final (mkPlace upright (fst start) (snd start)) path))
    as [l c r].
  cbn [lie col row] in Lm, Fc, Fr. now subst.
Qed.

Lemma play_app (path1 path2 : list dirEnum) : play (path1 ++ path2) = play path1 ++ play path2.
Proof. apply flat_map_app. Qed.

(** The solution of a level typed into the session that has just entered
    it: the last roll wins, and after the slide the timeout that asks for the
    next level is pending. *)
Lemma win_level (n : Z) (st : Game) :
  Level_new n = Some (level st) -> idle st -> timers st = [] ->
  scene st = sceneOf (level st) ->
  exists path l,
    array_get solutions n = Some path
    /\ reachable (level st) (fold_left roll path (level st))
    /\ _checkForWin (fold_left roll path (level st)) = Some true
    /\ session l (sceneOf l) true [winFadeTimeout] (run slideEvents (run (play path) st))
    /\ levelNum l = n /\ totalLevels l = _LEVELS.
Proof.
  intros N Hidle T S.
  destruct (solution_of n (level st) N)
    as (layout & start & path & rotDir & i & j & E0 & ES & L & Q & F & Hh & M).
  set (p := mkPlace upright (fst start) (snd start)) in *.
  assert (B : board (level st) = fst (boardFromLayout layout)) by now rewrite E0.
  assert (W : winTile (level st) = snd (boardFromLayout layout)) by now rewrite E0.
  assert (E : THREE.position (block (level st)) = centre p) by now rewrite E0.
  destruct (fold_roll_keeps path (level st)) as (Bk & Wk & Nk & Tk).
  destruct (legal_reachable layout (level st) path (level st) p (reachable_start _) B E L)
    as (R & Ef).
  assert (A : accepted (fold_left roll path (level st)) rotDir = true)
    by (apply (accepted_move layout _ (final p path)); [now rewrite Bk | exact Ef | exact F]).
  assert (Cw : _checkForWin (roll (fold_left roll path (level st)) rotDir) = Some true).
  { apply (wins_on_only_hole layout _ i j); [now rewrite <- W, <- Wk | exact Hh |].
    rewrite <- M. now apply roll_move. }
  destruct (play_path layout path st p Hidle T B W E L Q) as (L1 & I1 & T1 & S1 & _ & E1).
  exists (path ++ [rotDir]).
  rewrite play_app, run_app.
  change (play [rotDir]) with (rollEvents rotDir ++ []). rewrite app_nil_r.
  destruct (winning_roll rotDir (run (play path) st)) as (l & Hs & Hn & Ht).
  - exact I1.
  - exact T1.
  - rewrite E1. apply centre_Pose.
  - now rewrite L1.
  - rewrite L1. unfold wins. now rewrite Cw.
  - now rewrite S1, S, L1, sceneOf_fold_roll.
  - exists l. rewrite fold_left_app. cbn [fold_left].
    split; [exact ES |]. split; [now apply reachable_roll |]. split; [exact Cw |].
    split; [exact Hs |].
    rewrite Hn, Ht, L1, Nk, Tk, E0. split; reflexivity.
Qed.

(** X13: every level can be won.  For each level there is a sequence of
    rolls, all of them accepted, that leaves the block standing on the
    winning tile, where the win check is true; typed into the session that
    has just entered the level, one key after the roll before it has ended,
    it ends in the slide into the hole, after which the timeout that asks
    for the next level is pending, the busy flag is set and the scene still
    shows the level. *)
Theorem X13_levels_can_be_won (n : Z) (st : Game) :
  Level_new n = Some (level st) -> idle st -> timers st = [] ->
  scene st = sceneOf (level st) ->
  exists path,
    let won := run slideEvents (run (play path) st) in
    array_get solutions n = Some path
    /\ reachable (level st) (fold_left roll path (level st))
    /\ _checkForWin (fold_left roll path (level st)) = Some true
    /\ timers won = [winFadeTimeout]
    /\ animationPlaying won = true
    /\ scene won = sceneOf (level won)
    /\ levelNum (level won) = n.
Proof.
  intros N Hidle T S.
  destruct (win_level n st N Hidle T S)
    as (path & l & ES & R & Cw & (L & Sc & A & Tm) & Hn & _).
  exists path. cbv zeta. repeat (split; [assumption |]).
  split; [now rewrite Sc, L | now rewrite L].
Qed.

Lemma X13_levels_can_be_won_witness :
  exists path,
    array_get solutions 0 = Some path
    /\ _checkForWin (fold_left roll path startLevel) = Some true
    /\ timers (run slideEvents (run (play path) startGame)) = [winFadeTimeout].
Proof.
  destruct (X13_levels_can_be_won 0 startGame Level_new_0 idle_startGame
              eq_refl eq_refl) as (path & H).
  cbv zeta in H. destruct H as (ES & _ & Cw & Tm & _).
  exists path. split; [exact ES |]. split; [exact Cw | exact Tm].
Defined.

(** *** Entering a level *)

Lemma Level_new_levelNum (n : Z) (l : Level) :
  Level_new n = Some l -> levelNum l = n /\ totalLevels l = _LEVELS.
Proof.
  intros H. apply Level_new_inv in H. destruct H as (layout & position & _ & _ & ->).
  split; reflexivity.
Qed.

Lemma entered_next (n : nat) (st : Game) :
  entered n st -> (Z.of_nat n + 1 <= _LEVELS)%Z -> entered (S n) (run nextLevelEvents st).
Proof.
  intros (N & S & T & A & P) H.
  destruct (Level_new_levelNum _ _ N) as [Ln Lt].
  destruct (Level_new_Some (Z.of_nat n + 1)) as (layout & position & _ & _ & N'); [lia |].
  remember (mkLevel _LEVELS (Z.of_nat n + 1) (fst (boardFromLayout layout))
              (createBlock position) (snd (boardFromLayout layout))) as level' eqn:E'.
  clear E'.
  unfold nextLevelEvents. rewrite run_app, run_repeat_interval.
  change (run [clickLevelButton 1] st) with (fadeOutInLevel 1 st).
  rewrite (transition_ends 1 st level' T S); [| rewrite Ln, Lt; lia | rewrite Ln; exact N'].
  unfold entered. cbn [level scene timers animationPlaying pauseWindowBox].
  rewrite Nat2Z.inj_succ. unfold Z.succ. auto.
Qed.

Lemma entered_more (m n : nat) (st : Game) :
  entered n st -> (Z.of_nat (n + m) <= _LEVELS)%Z ->
  entered (n + m) (run (List.concat (repeat nextLevelEvents m)) st).
Proof.
  revert n st. induction m as [| m IH]; intros n st E H.
  - rewrite Nat.add_0_r. exact E.
  - cbn [repeat List.concat]. rewrite run_app.
    replace (n + S m)%nat with (S n + m)%nat in * by lia.
    apply IH; [| exact H]. apply entered_next; [exact E | lia].
Qed.

Lemma enter_level (n : nat) :
  (Z.of_nat n <= _LEVELS)%Z ->
  Level_new (Z.of_nat n) = Some (level (run (enterLevel n) startGame))
  /\ idle (run (enterLevel n) startGame)
  /\ timers (run (enterLevel n) startGame) = []
  /\ scene (run (enterLevel n) startGame) = sceneOf (level (run (enterLevel n) startGame)).
Proof.
  intros H. unfold enterLevel. rewrite !run_app.
  change (run [escape] startGame) with (togglePause startGame).
  assert (E0 : entered 0 (togglePause startGame)).
  { split; [exact Level_new_0 |]. repeat split. }
  apply (entered_more n 0) in E0; [| exact H]. cbn [plus] in E0.
  destruct E0 as (N & S & T & A & P).
  change (run [escape] ?s) with (togglePause s).
  split; [exact N |]. split; [| split; [exact T | exact S]].
  split; [exact A |]. rewrite (togglePause_visible _ P). discriminate.
Qed.

Lemma array_get_solution10 (path : list dirEnum) :
  array_get solutions 10 = Some path -> path = nth 10 solutions [].
Proof. intros H. change (Some (nth 10 solutions []) = Some path) in H. congruence. Qed.

(** C7: a request is checked against the index range when it is made, and
    the level is changed twenty-one intervals later from the index that is
    current by then.  The player enters level 10 and wins it; with the
    block in the hole the player opens the pause menu and clicks the
    next-level button just before the timeout of the win asks for the next
    level too.  Both requests are in range when they are made.  The first
    change builds level 11; the second one takes the board and the block of
    level 11 out of the scene and builds nothing, the index 12 being past
    the last layout: the session is left on level 11 with only the two
    lights in the scene. *)
Theorem C7_level_change_on_stale_index :
  let start := run (enterLevel 10) startGame in
  let path := nth 10 solutions [] in
  let won := run slideEvents (run (play path) start) in
  let requested := run twoRequests won in
  let st := run bothFades requested in
  (Level_new 10 = Some (level start)
   /\ reachable (level start) (fold_left roll path (level start))
   /\ _checkForWin (fold_left roll path (level start)) = Some true)
  /\ (levelNum (level requested) = 10%Z
      /\ (0 <= levelNum (level requested) + 1 <= totalLevels (level requested))%Z
      /\ scene requested = sceneOf (level requested)
      /\ timers requested = [fadeOutAnimation 1 18; fadeOutAnimation 1 20])
  /\ Level_new 11 = Some (level st)
  /\ Level_new (levelNum (level st) + 1) = None
  /\ scene st = [AmbientLight; DirectionalLight]
  /\ scene st <> sceneOf (level st)
  /\ animationPlaying st = false
  /\ timers st = [].
Proof.
  cbv zeta.
  destruct (enter_level 10) as (N & Hidle & T & S); [unfold _LEVELS; lia |].
  change (Z.of_nat 10) with 10%Z in N.
  remember (run (enterLevel 10) startGame) as start eqn:E. clear E.
  destruct (win_level 10 start N Hidle T S) as (path & l & ES & R & Cw & H & Ln & Tl).
  apply array_get_solution10 in ES. subst path.
  split; [auto |].
  apply two_requests in H; [| rewrite Ln, Tl; unfold _LEVELS; lia].
  pose proof H as (L & Sc & A & Tm).
  destruct (Level_new_Some 11) as (layout & position & _ & _ & N11); [unfold _LEVELS; lia |].
  remember (mkLevel _LEVELS 11 (fst (boardFromLayout layout)) (createBlock position)
              (snd (boardFromLayout layout))) as level' eqn:E'.
  apply (both_fades l level') in H; [| rewrite Ln; exact N11 | rewrite Ln; reflexivity].
  destruct H as (L' & S' & A' & T').
  split; [| split; [| split; [| split; [| split; [| split]]]]].
  - rewrite L. split; [exact Ln |]. split; [rewrite Ln, Tl; unfold _LEVELS; lia |].
    split; [exact Sc | exact Tm].
  - rewrite L'. exact N11.
  - rewrite L', E'. apply Level_new_None. right. reflexivity.
  - exact S'.
  - rewrite S'. apply sceneOf_not_lights.
  - exact A'.
  - exact T'.
Qed.
